(** * snake-game-2d: the simulation core of [game.js], embedded in Rocq

    JavaScript numbers are modelled as real numbers (exact arithmetic):
    [Math.sqrt], [Math.cos], [Math.sin], [Math.log10] and [Math.floor] are the
    functions of the Standard Library's [Reals].  The [Map] behind the spatial
    hash is a [gmap] keyed by the pair of cell coordinates (the source builds
    the string ["cx,cy"], which determines and is determined by that pair).
    Objects that are shared by reference (the snakes held both by the
    population and by the spatial hash) live in one store, a list indexed by
    position; a reference is an index into it.  [Math.random] reads the next
    element of a stream carried by the world. *)

From Stdlib Require Import Reals Lra Lia ZArith List Bool Zfloor.
From stdpp Require Import base decidable option list gmap.
#[local] Open Scope R_scope.

(** ** Comparisons on numbers are decidable, as in the source's [if]s *)

#[global] Instance Rlt_decision (a b : R) : Decision (a < b) := Rlt_dec a b.
#[global] Instance Rle_decision (a b : R) : Decision (a <= b) := Rle_dec a b.
#[global] Instance Rgt_decision (a b : R) : Decision (a > b) := Rgt_dec a b.
#[global] Instance Req_decision : EqDecision R := Req_dec_T.

(** ** Configuration *)

Module CONFIG.
Definition mapSize : R := 100000.
Definition botCount : nat := 150.
Definition foodCount : nat := 5000.
Definition baseSpeed : R := 450.
Definition boostSpeed : R := 900.
Definition turnSpeed : R := 8.
Definition maxPathPoints : nat := 400.
  (** [colors], [fruitEmojis] and [patterns] only matter through their
      lengths: an entry is chosen by index. *)
Definition colors_length : R := 15.
Definition fruitEmojis_length : R := 18.
Definition patterns_length : R := 3.
End CONFIG.

(** ** Numeric helpers of the JavaScript runtime *)

(** [Math.floor], to an integer. *)
Definition Math_floor (a : R) : Z := Zfloor a.

(** [Math.floor] of a value used as a count or an index (never negative where
    the source uses it so). *)
Definition floor_nat (a : R) : nat := Z.to_nat (Zfloor a).

(** [Math.log10]. *)
Definition log10 (a : R) : R := ln a / ln 10.

(** [Math.sign]. *)
Definition Math_sign (a : R) : R :=
  if decide (a > 0) then 1 else if decide (a < 0) then -1 else 0.

(** [Math.atan2] on real arguments. *)
Definition Math_atan2 (b a : R) : R :=
  if decide (a > 0) then atan (b / a)
  else if decide (a < 0) then
         (if decide (b < 0) then atan (b / a) - PI else atan (b / a) + PI)
  else if decide (b > 0) then PI / 2
  else if decide (b < 0) then - (PI / 2)
  else 0.

(** ** class Vector *)

Module Vector.
Record t := mk { x : R; y : R }.

Definition add (a v : t) : t := mk (x a + x v) (y a + y v).
Definition sub (a v : t) : t := mk (x a - x v) (y a - y v).
Definition mult (a : t) (n : R) : t := mk (x a * n) (y a * n).
Definition mag (a : t) : R := sqrt (x a * x a + y a * y a).
Definition norm (a : t) : t :=
    let m := mag a in
    if decide (m = 0) then mk 0 0 else mk (x a / m) (y a / m).
Definition dist (a v : t) : R := sqrt ((x a - x v) ^ 2 + (y a - y v) ^ 2).
Definition copy (a : t) : t := mk (x a) (y a).
End Vector.
Abbreviation Vector := Vector.t.

(** ** class SpatialHash

    The hash stores references; [A] is the type of references and [pos] reads
    the position of the referenced object at the time of the call. *)

Record Rect := mkRect { rect_x : R; rect_y : R; rect_w : R; rect_h : R }.

Module SpatialHash.
Section SpatialHash.
Context {A : Type}.
Variable pos : A -> Vector.

Record t := mk { cellSize : R; grid : gmap (Z * Z) (list A) }.

Definition new (cellSize : R) : t := mk cellSize ∅.

  (** The key of the cell that holds a point. *)
Definition key (h : t) (p : Vector) : Z * Z :=
    (Math_floor (Vector.x p / cellSize h), Math_floor (Vector.y p / cellSize h)).

Definition insert (h : t) (obj : A) : t :=
    let k := key h (pos obj) in
    let cell := match grid h !! k with Some cell => cell | None => [] end in
    mk (cellSize h) (<[k := cell ++ [obj]]> (grid h)).

  (** [for (let v = s; v <= e; v++)] *)
Definition range (s e : Z) : list Z := seqZ s (e - s + 1).

Definition retrieve (h : t) (rect : Rect) : list A :=
    let sx := Math_floor (rect_x rect / cellSize h) in
    let sy := Math_floor (rect_y rect / cellSize h) in
    let ex := Math_floor ((rect_x rect + rect_w rect) / cellSize h) in
    let ey := Math_floor ((rect_y rect + rect_h rect) / cellSize h) in
    flat_map (fun x =>
      flat_map (fun y =>
        match grid h !! (x, y) with Some cell => cell | None => [] end)
        (range sy ey))
      (range sx ex).

Definition clear (h : t) : t := mk (cellSize h) ∅.

  (** Inserting a sequence of objects, in order. *)
Definition insert_all (h : t) (objs : list A) : t := fold_left insert objs h.
End SpatialHash.
End SpatialHash.
Arguments SpatialHash.t : clear implicits.

(** ** Entities *)

(** [class Food].  [emoji] is the index drawn into [CONFIG.fruitEmojis]. *)
Module Food.
Record t := mk {
  pos : Vector; value : R; radius : R;
  emoji : nat; rotation : R; floatOffset : R }.
End Food.
Abbreviation Food := Food.t.

(** [class PowerUp]. *)
Module PowerUp.
Record t := mk { pos : Vector; multiplier : R; radius : R }.
End PowerUp.
Abbreviation PowerUp := PowerUp.t.

(** The object literal pushed by [spawnParticles]. *)
Module Particle.
Record t := mk { pos : Vector; vel : Vector; life : R; color : nat }.
End Particle.
Abbreviation Particle := Particle.t.

(** [class Snake] (and [Bot], which adds no field).  The display name and the
    second colour and pattern are used by the drawing code only and are not
    kept; [color] is the index drawn into [CONFIG.colors]. *)
Module Snake.
Record t := mk {
  isBot : bool;
  id : nat;
  pos : Vector;
  angle : R;
  targetAngle : R;
  score : R;
  width : R;
  targetWidth : R;
  path : list Vector;          (* newest point first *)
  color : nat;
  dead : bool;
  multiplier : R;
  multiplierTimer : R;
  changeDirTimer : R;
  wantBoost : bool;
  boostCooldown : R }.

(** Field assignments [this.f = v]. *)
Definition set_pos (s : t) (v : Vector) : t :=
  mk (isBot s) (id s) v (angle s) (targetAngle s) (score s) (width s)
     (targetWidth s) (path s) (color s) (dead s) (multiplier s)
     (multiplierTimer s) (changeDirTimer s) (wantBoost s) (boostCooldown s).
Definition set_angle (s : t) (v : R) : t :=
  mk (isBot s) (id s) (pos s) v (targetAngle s) (score s) (width s)
     (targetWidth s) (path s) (color s) (dead s) (multiplier s)
     (multiplierTimer s) (changeDirTimer s) (wantBoost s) (boostCooldown s).
Definition set_targetAngle (s : t) (v : R) : t :=
  mk (isBot s) (id s) (pos s) (angle s) v (score s) (width s)
     (targetWidth s) (path s) (color s) (dead s) (multiplier s)
     (multiplierTimer s) (changeDirTimer s) (wantBoost s) (boostCooldown s).
Definition set_score (s : t) (v : R) : t :=
  mk (isBot s) (id s) (pos s) (angle s) (targetAngle s) v (width s)
     (targetWidth s) (path s) (color s) (dead s) (multiplier s)
     (multiplierTimer s) (changeDirTimer s) (wantBoost s) (boostCooldown s).
Definition set_width (s : t) (v : R) : t :=
  mk (isBot s) (id s) (pos s) (angle s) (targetAngle s) (score s) v
     (targetWidth s) (path s) (color s) (dead s) (multiplier s)
     (multiplierTimer s) (changeDirTimer s) (wantBoost s) (boostCooldown s).
Definition set_targetWidth (s : t) (v : R) : t :=
  mk (isBot s) (id s) (pos s) (angle s) (targetAngle s) (score s) (width s)
     v (path s) (color s) (dead s) (multiplier s)
     (multiplierTimer s) (changeDirTimer s) (wantBoost s) (boostCooldown s).
Definition set_path (s : t) (v : list Vector) : t :=
  mk (isBot s) (id s) (pos s) (angle s) (targetAngle s) (score s) (width s)
     (targetWidth s) v (color s) (dead s) (multiplier s)
     (multiplierTimer s) (changeDirTimer s) (wantBoost s) (boostCooldown s).
Definition set_dead (s : t) (v : bool) : t :=
  mk (isBot s) (id s) (pos s) (angle s) (targetAngle s) (score s) (width s)
     (targetWidth s) (path s) (color s) v (multiplier s)
     (multiplierTimer s) (changeDirTimer s) (wantBoost s) (boostCooldown s).
Definition set_multiplier (s : t) (v : R) : t :=
  mk (isBot s) (id s) (pos s) (angle s) (targetAngle s) (score s) (width s)
     (targetWidth s) (path s) (color s) (dead s) v
     (multiplierTimer s) (changeDirTimer s) (wantBoost s) (boostCooldown s).
Definition set_multiplierTimer (s : t) (v : R) : t :=
  mk (isBot s) (id s) (pos s) (angle s) (targetAngle s) (score s) (width s)
     (targetWidth s) (path s) (color s) (dead s) (multiplier s)
     v (changeDirTimer s) (wantBoost s) (boostCooldown s).
Definition set_changeDirTimer (s : t) (v : R) : t :=
  mk (isBot s) (id s) (pos s) (angle s) (targetAngle s) (score s) (width s)
     (targetWidth s) (path s) (color s) (dead s) (multiplier s)
     (multiplierTimer s) v (wantBoost s) (boostCooldown s).
Definition set_wantBoost (s : t) (v : bool) : t :=
  mk (isBot s) (id s) (pos s) (angle s) (targetAngle s) (score s) (width s)
     (targetWidth s) (path s) (color s) (dead s) (multiplier s)
     (multiplierTimer s) (changeDirTimer s) v (boostCooldown s).
Definition set_boostCooldown (s : t) (v : R) : t :=
  mk (isBot s) (id s) (pos s) (angle s) (targetAngle s) (score s) (width s)
     (targetWidth s) (path s) (color s) (dead s) (multiplier s)
     (multiplierTimer s) (changeDirTimer s) (wantBoost s) v.
End Snake.
Abbreviation Snake := Snake.t.

(** ** The world: the script's global variables

    [snakes] is the store of snake objects: index 0 is [player], the
    following indices are [bots] in order, so that the list is also the
    array [allSnakes = [player, ...bots]] of [checkCollisions].  The spatial
    hash holds indices into it.  [random_stream] is the sequence of values
    that [Math.random] returns and [random_pos] the number already drawn. *)

Record World := mkWorld {
  snakes : list Snake;
  foods : list Food;
  powerups : list PowerUp;
  particles : list Particle;
  spatialHash : SpatialHash.t nat;
  mouseDown : bool;
  frameCount : nat;
  random_stream : nat -> R;
  random_pos : nat }.

Definition set_snakes (w : World) (v : list Snake) : World :=
  mkWorld v (foods w) (powerups w) (particles w) (spatialHash w)
          (mouseDown w) (frameCount w) (random_stream w) (random_pos w).
Definition set_foods (w : World) (v : list Food) : World :=
  mkWorld (snakes w) v (powerups w) (particles w) (spatialHash w)
          (mouseDown w) (frameCount w) (random_stream w) (random_pos w).
Definition set_powerups (w : World) (v : list PowerUp) : World :=
  mkWorld (snakes w) (foods w) v (particles w) (spatialHash w)
          (mouseDown w) (frameCount w) (random_stream w) (random_pos w).
Definition set_particles (w : World) (v : list Particle) : World :=
  mkWorld (snakes w) (foods w) (powerups w) v (spatialHash w)
          (mouseDown w) (frameCount w) (random_stream w) (random_pos w).
Definition set_spatialHash (w : World) (v : SpatialHash.t nat) : World :=
  mkWorld (snakes w) (foods w) (powerups w) (particles w) v
          (mouseDown w) (frameCount w) (random_stream w) (random_pos w).
Definition set_random_pos (w : World) (v : nat) : World :=
  mkWorld (snakes w) (foods w) (powerups w) (particles w) (spatialHash w)
          (mouseDown w) (frameCount w) (random_stream w) v.

(** A routine that reads and writes the globals. *)
Definition M (A : Type) : Type := World -> A * World.

#[global] Instance M_ret : MRet M := fun A a w => (a, w).
#[global] Instance M_bind : MBind M :=
  fun A B f m w => let '(a, w') := m w in f a w'.

Definition get_world : M World := fun w => (w, w).
Definition modify (f : World -> World) : M unit := fun w => (tt, f w).

(** [Math.random()] *)
Definition Math_random : M R :=
  fun w => (random_stream w (random_pos w), set_random_pos w (S (random_pos w))).

(** [foods.push(f)], [particles.push(p)] *)
Definition push_food (f : Food) : M unit :=
  modify (fun w => set_foods w (foods w ++ [f])).
Definition push_particle (p : Particle) : M unit :=
  modify (fun w => set_particles w (particles w ++ [p])).

(** The stream of [Math.random] is the half-open unit interval. *)
Definition random_in_range (w : World) : Prop :=
  forall n, 0 <= random_stream w n < 1.

(** ** Sampling a path at a stride

    [for (let i = 0; i < path.length; i += step) ... path[i] ...]: the points
    visited, in order.  The loop runs at most [path.length] times when
    [step >= 1], which is the fuel given by [sample_path]. *)

Fixpoint sample_loop (fuel : nat) (path : list Vector) (step i : nat)
  : list Vector :=
  match fuel with
  | O => []
  | S fuel' =>
      match path !! i with
      | Some p => p :: sample_loop fuel' path step (i + step)%nat
      | None => []
      end
  end.

Definition sample_path (step : nat) (path : list Vector) : list Vector :=
  sample_loop (length path) path step 0.

(** ** Food construction, particles and food drops *)

(** [x || (Math.random() * CONFIG.mapSize * 2 - CONFIG.mapSize)]: a missing
    argument ([None]) and the number 0 are both falsy. *)
Definition coord_or_random (a : option R) : M R :=
  match a with
  | Some v =>
      if decide (v = 0)
      then r ← Math_random; mret (r * CONFIG.mapSize * 2 - CONFIG.mapSize)
      else mret v
  | None => r ← Math_random; mret (r * CONFIG.mapSize * 2 - CONFIG.mapSize)
  end.

(** [new Food(x, y, value)] *)
Definition new_Food (x y : option R) (value : R) : M Food :=
  px ← coord_or_random x;
  py ← coord_or_random y;
  let pos := Vector.mk px py in
  let pos := if decide (Vector.mag pos > CONFIG.mapSize)
             then Vector.mult (Vector.norm pos) (CONFIG.mapSize - 50)
             else pos in
  e ← Math_random;
  r ← Math_random;
  o ← Math_random;
  mret (Food.mk pos value (15 + value * 3)
                (floor_nat (e * CONFIG.fruitEmojis_length))
                (r * PI * 2) (o * 100)).

(** [spawnParticles(pos, count, color)] *)
Fixpoint spawnParticles (pos : Vector) (count : nat) (color : nat) : M unit :=
  match count with
  | O => mret tt
  | S count' =>
      vx ← Math_random;
      vy ← Math_random;
      push_particle
        (Particle.mk (Vector.copy pos)
                     (Vector.mk ((vx - 0.5) * 200) ((vy - 0.5) * 200)) 1 color);;
      spawnParticles pos count' color
  end.

(** The body of the loop of [dropFood], over the sampled points. *)
Fixpoint dropFood_loop (snake : Snake) (pts : list Vector) : M unit :=
  match pts with
  | [] => mret tt
  | p :: rest =>
      let val := IZR (Z.max 1 (Math_floor (Snake.width snake / 5))) in
      r1 ← Math_random;
      let rx := (r1 - 0.5) * Snake.width snake * 2 in
      r2 ← Math_random;
      let ry := (r2 - 0.5) * Snake.width snake * 2 in
      f ← new_Food (Some (Vector.x p + rx)) (Some (Vector.y p + ry)) val;
      push_food f;;
      dropFood_loop snake rest
  end.

(** [dropFood(snake)] *)
Definition dropFood (snake : Snake) : M unit :=
  let step := Z.to_nat (Z.max 1 (Math_floor (Snake.width snake / 10))) in
  dropFood_loop snake (sample_path step (Snake.path snake)).

(** ** class Snake: the width and length laws *)

Definition width_law (score : R) : R :=
  Rmin 500 (15 + log10 (Rmax 10 score) * 25).

Definition length_law (score : R) : R :=
  Rmin 8000 (200 + score * 0.1).

(** [calculateWidth()], [calculateTargetLength()], [getPathSpacing()] *)
Definition calculateWidth (s : Snake) : R := width_law (Snake.score s).
Definition calculateTargetLength (s : Snake) : R := length_law (Snake.score s).
Definition getPathSpacing (s : Snake) : R :=
  Rmax (Snake.width s * 0.5) (Snake.width s * 1.0).

(** [grow(amount)] *)
Definition grow (s : Snake) (amount : R) : Snake :=
  Snake.set_score s (Snake.score s + amount * Snake.multiplier s * 10).

(** ** The constructor of Snake *)

(** [for (let i = 0; i < startLen; i += spacing) path.push(pos.add(dir.mult(i)))].
    The accumulator [i] is a number, so the loop is run on fuel;
    [prefill_fuel] is the number of iterations after which [i >= startLen]
    (see [prefill_fuel_enough]). *)
Fixpoint prefill (fuel : nat) (pos dir : Vector) (startLen spacing i : R)
  : list Vector :=
  match fuel with
  | O => []
  | S fuel' =>
      if decide (i < startLen)
      then Vector.add pos (Vector.mult dir i)
             :: prefill fuel' pos dir startLen spacing (i + spacing)
      else []
  end.

Definition prefill_fuel (startLen spacing : R) : nat :=
  Z.to_nat (Zceil (startLen / spacing)).

(** [new Snake(name, isBot, startScore)] *)
Definition new_Snake (isBot : bool) (startScore : R) : M Snake :=
  i ← Math_random;
  let id := floor_nat (i * 100000) in
  rx ← Math_random;
  ry ← Math_random;
  let pos := Vector.mk ((rx - 0.5) * CONFIG.mapSize * 1.5)
                       ((ry - 0.5) * CONFIG.mapSize * 1.5) in
  ra ← Math_random;
  let angle := ra * PI * 2 in
  let width := width_law startScore in
  let startLen := length_law startScore in
  let dir := Vector.mult (Vector.mk (cos angle) (sin angle)) (-1) in
  let spacing := width / 2 in
  let path := prefill (prefill_fuel startLen spacing) pos dir startLen spacing 0 in
  c1 ← Math_random;
  c2 ← Math_random;
  pt ← Math_random;
  mret (Snake.mk isBot id pos angle angle startScore width width path
                 (floor_nat (c1 * CONFIG.colors_length))
                 false 1 0 0 false 0).

(** ** Snake.update(dt) *)

(** Multiplier decay. *)
Definition decay_multiplier (s : Snake) (dt : R) : Snake :=
  if decide (Snake.multiplier s > 1) then
    let s := Snake.set_multiplierTimer s (Snake.multiplierTimer s - dt) in
    if decide (Snake.multiplierTimer s <= 0) then Snake.set_multiplier s 1 else s
  else s.

(** [while (diff <= -Math.PI) diff += Math.PI * 2] and
    [while (diff > Math.PI) diff -= Math.PI * 2], run on fuel; the fuel
    given by [normalize_diff] lets each loop leave through its own test
    (see [wrap_up_exits] and [wrap_down_exits]). *)
Fixpoint wrap_up (fuel : nat) (diff : R) : R :=
  match fuel with
  | O => diff
  | S fuel' => if decide (diff <= - PI) then wrap_up fuel' (diff + PI * 2) else diff
  end.

Fixpoint wrap_down (fuel : nat) (diff : R) : R :=
  match fuel with
  | O => diff
  | S fuel' => if decide (diff > PI) then wrap_down fuel' (diff - PI * 2) else diff
  end.

Definition wrap_up_fuel (diff : R) : nat :=
  Z.to_nat (Zfloor ((- PI - diff) / (PI * 2)) + 1).

Definition wrap_down_fuel (diff : R) : nat :=
  Z.to_nat (Zceil ((diff - PI) / (PI * 2))).

Definition normalize_diff (diff : R) : R :=
  let diff := wrap_up (wrap_up_fuel diff) diff in
  wrap_down (wrap_down_fuel diff) diff.

(** Turning physics. *)
Definition turn (s : Snake) (dt : R) : Snake :=
  let diff := normalize_diff (Snake.targetAngle s - Snake.angle s) in
  let turnRate := CONFIG.turnSpeed * (30 / (Snake.width s + 10)) in
  let turnAmount := turnRate * dt in
  if decide (Rabs diff < turnAmount)
  then Snake.set_angle s (Snake.targetAngle s)
  else Snake.set_angle s (Snake.angle s + Math_sign diff * turnAmount).

(** The speed of a snake that does not boost. *)
Definition cruise_speed (s : Snake) : R :=
  let currentSpeed := CONFIG.baseSpeed in
  if Snake.isBot s && bool_decide (Snake.width s > 100)
  then currentSpeed * 0.9 else currentSpeed.

(** [(!this.isBot && mouseDown) || (this.isBot && this.wantBoost)] *)
Definition boosting (s : Snake) (w : World) : bool :=
  (negb (Snake.isBot s) && mouseDown w) || (Snake.isBot s && Snake.wantBoost s).

(** Speed and boost: the snake after the boost cost, and the speed chosen. *)
Definition speed_and_boost (s : Snake) (dt : R) : M (Snake * R) :=
  let currentSpeed := cruise_speed s in
  w ← get_world;
  if boosting s w && bool_decide (Snake.score s > 50) then
    let s := Snake.set_score s (Snake.score s - dt * 25) in
    r ← Math_random;
    (if decide (r < 0.3) then
       match last (Snake.path s) with
       | Some tail =>
           f ← new_Food (Some (Vector.x tail)) (Some (Vector.y tail)) 0.5;
           push_food f
       | None => mret tt
       end
     else mret tt);;
    mret (s, CONFIG.boostSpeed)
  else mret (s, currentSpeed).

(** Move. *)
Definition move (s : Snake) (currentSpeed dt : R) : Snake :=
  let velocity :=
    Vector.mult (Vector.mk (cos (Snake.angle s)) (sin (Snake.angle s)))
                (currentSpeed * dt) in
  Snake.set_pos s (Vector.add (Snake.pos s) velocity).

(** Everything [update] does up to and including the translation. *)
Definition kinematics (s : Snake) (dt : R) : M Snake :=
  let s := decay_multiplier s dt in
  let s := turn s dt in
  '(s, currentSpeed) ← speed_and_boost s dt;
  mret (move s currentSpeed dt).

(** The body of [if (this.pos.mag() > CONFIG.mapSize)], up to its [return]. *)
Definition die (s : Snake) : M Snake :=
  let s := Snake.set_dead s true in
  spawnParticles (Snake.pos s) 50 (Snake.color s);;
  dropFood s;;
  mret s.

(** [this.path.unshift(this.pos.copy())] followed by the cap. *)
Definition push_head (s : Snake) : Snake :=
  let path := Vector.copy (Snake.pos s) :: Snake.path s in
  let path := if decide (CONFIG.maxPathPoints < length path)%nat
              then take CONFIG.maxPathPoints path else path in
  Snake.set_path s path.

(** Path management and length management. *)
Definition manage_path (s : Snake) : Snake :=
  let spacing := getPathSpacing s in
  let s := match head (Snake.path s) with
           | Some lastPoint =>
               if decide (Vector.dist (Snake.pos s) lastPoint > spacing)
               then push_head s else s
           | None => push_head s
           end in
  let targetLen := calculateTargetLength s in
  if decide (INR (length (Snake.path s)) * spacing > targetLen)
  then Snake.set_path s (removelast (Snake.path s))
  else s.

(** Smooth growth. *)
Definition smooth_growth (s : Snake) (dt : R) : Snake :=
  let s := Snake.set_targetWidth s (calculateWidth s) in
  Snake.set_width s
    (Snake.width s + (Snake.targetWidth s - Snake.width s) * dt * 2).

Definition Snake_update (s : Snake) (dt : R) : M Snake :=
  if Snake.dead s then mret s
  else
    s ← kinematics s dt;
    if decide (Vector.mag (Snake.pos s) > CONFIG.mapSize)
    then die s
    else mret (smooth_growth (manage_path s) dt).

(** ** Bot.update(dt)

    [this] is the reference of the bot (its index in the store) and [s] its
    state; the other snakes are read from the store through the references
    that the spatial hash returns. *)

(** [for (let i = 0; i < other.path.length; i += step)] of the scan: is some
    sampled point closer to [checkPos] than [this.width + other.width]?  The
    loop stops at the first one ([break]). *)
Fixpoint probe_points (s other : Snake) (checkPos : Vector) (pts : list Vector)
  : bool :=
  match pts with
  | [] => false
  | p :: rest =>
      if decide (Vector.dist checkPos p < Snake.width s + Snake.width other)
      then true
      else probe_points s other checkPos rest
  end.

Definition probe_other (s other : Snake) (checkPos : Vector) : bool :=
  let step := Nat.max 5 (length (Snake.path other) / 10) in
  probe_points s other checkPos (sample_path step (Snake.path other)).

(** [for (const other of nearby)]: the danger flag after the loop. *)
Fixpoint probe_nearby (this : nat) (s : Snake) (checkPos : Vector)
  (store : list Snake) (nearby : list nat) : bool :=
  match nearby with
  | [] => false
  | j :: rest =>
      match store !! j with
      | Some other =>
          if bool_decide (j = this) || Snake.dead other
          then probe_nearby this s checkPos store rest
          else if probe_other s other checkPos then true
          else probe_nearby this s checkPos store rest
      | None => probe_nearby this s checkPos store rest
      end
  end.

Definition lookDist (s : Snake) : R := Snake.width s * 4 + 200.

Definition checkPos (s : Snake) : Vector :=
  let forward := Vector.mk (cos (Snake.angle s)) (sin (Snake.angle s)) in
  Vector.add (Snake.pos s) (Vector.mult forward (lookDist s)).

(** "1. Map Bounds": the flag. *)
Definition bounds_danger (s : Snake) : bool :=
  bool_decide (Vector.mag (checkPos s) > CONFIG.mapSize - 200).

(** "2. Snake Collision": the flag, when there is no bounds danger. *)
Definition snake_danger (this : nat) (s : Snake) (w : World) : bool :=
  let nearby :=
    SpatialHash.retrieve (spatialHash w)
      (mkRect (Vector.x (Snake.pos s) - lookDist s)
              (Vector.y (Snake.pos s) - lookDist s)
              (lookDist s * 2) (lookDist s * 2)) in
  probe_nearby this s (checkPos s) (snakes w) nearby.

(** "3. Food Seeking (if no danger)": wandering and occasional boost. *)
Definition wander (s : Snake) (dt : R) : M Snake :=
  let s := Snake.set_changeDirTimer s (Snake.changeDirTimer s - dt * 5) in
  s ← (if decide (Snake.changeDirTimer s <= 0) then
         r1 ← Math_random;
         let s := Snake.set_targetAngle s
                    (Snake.targetAngle s + (r1 - 0.5) * 2.0) in
         r2 ← Math_random;
         mret (Snake.set_changeDirTimer s (2 + r2 * 2))
       else mret s);
  let s := if decide (Snake.boostCooldown s > 0)
           then Snake.set_boostCooldown s (Snake.boostCooldown s - dt * 5)
           else s in
  start ← (if decide (Snake.boostCooldown s <= 0)
           then r ← Math_random; mret (bool_decide (r < 0.05))
           else mret false);
  if (start : bool) then
    mret (Snake.set_boostCooldown (Snake.set_wantBoost s true) 2)
  else
    stop ← (if Snake.wantBoost s
            then r ← Math_random; mret (bool_decide (r < 0.2))
            else mret false);
    if (stop : bool) then mret (Snake.set_wantBoost s false) else mret s.

(** The body of [if (shouldScan)]. *)
Definition Bot_scan (this : nat) (s : Snake) (dt : R) : M Snake :=
  w ← get_world;
  if bounds_danger s then
    let toCenter := Vector.sub (Vector.mk 0 0) (Snake.pos s) in
    let s := Snake.set_targetAngle s
               (Math_atan2 (Vector.y toCenter) (Vector.x toCenter)) in
    mret (Snake.set_wantBoost s true)
  else if snake_danger this s w then
    let s := Snake.set_targetAngle s (Snake.targetAngle s + PI / 2) in
    mret (Snake.set_wantBoost s true)
  else wander s dt.

Definition shouldScan (s : Snake) (w : World) : bool :=
  ((frameCount w + Snake.id s) mod 5 =? 0)%nat.

Definition Bot_update (this : nat) (s : Snake) (dt : R) : M Snake :=
  if Snake.dead s then mret s
  else
    w ← get_world;
    s ← (if shouldScan s w then Bot_scan this s dt else mret s);
    Snake_update s dt.

(** [x.update(dt)] on the object at index [this]: a [Bot] runs [Bot.update],
    the player [Snake.update]; the result is the new state of that object. *)
Definition update_at (this : nat) (dt : R) : M unit :=
  w ← get_world;
  match snakes w !! this with
  | Some s =>
      s' ← (if Snake.isBot s then Bot_update this s dt else Snake_update s dt);
      modify (fun w => set_snakes w (<[this := s']> (snakes w)))
  | None => mret tt
  end.

(** ** checkCollisions() *)

(** The two bounding-box rejections and the circular test of the food loop. *)
Definition food_hit (s : Snake) (f : Food) : bool :=
  if decide (Rabs (Vector.x (Snake.pos s) - Vector.x (Food.pos f))
             > Snake.width s + Food.radius f) then false
  else if decide (Rabs (Vector.y (Snake.pos s) - Vector.y (Food.pos f))
                  > Snake.width s + Food.radius f) then false
  else bool_decide (Vector.dist (Snake.pos s) (Food.pos f)
                    < Snake.width s / 2 + Food.radius f).

(** [for (let i = foods.length - 1; i >= 0; i--)]: the items are visited from
    the last to the first, and [foods.splice(i, 1)] removes the one at [i]. *)
Fixpoint food_loop (s : Snake) (fs : list Food) : Snake * list Food :=
  match fs with
  | [] => (s, [])
  | f :: rest =>
      let '(s, rest) := food_loop s rest in
      if food_hit s f then (grow s (Food.value f), rest) else (s, f :: rest)
  end.

Definition powerup_hit (s : Snake) (p : PowerUp) : bool :=
  bool_decide (Vector.dist (Snake.pos s) (PowerUp.pos p)
               < Snake.width s / 2 + PowerUp.radius p).

Fixpoint powerup_loop (s : Snake) (ps : list PowerUp) : Snake * list PowerUp :=
  match ps with
  | [] => (s, [])
  | p :: rest =>
      let '(s, rest) := powerup_loop s rest in
      if powerup_hit s p
      then (Snake.set_multiplierTimer
              (Snake.set_multiplier s (PowerUp.multiplier p)) 10, rest)
      else (s, p :: rest)
  end.

(** The body of the first [for (const s of allSnakes)]. *)
Definition pickups_at (i : nat) : M unit :=
  w ← get_world;
  match snakes w !! i with
  | Some s =>
      if Snake.dead s then mret tt
      else
        let '(s, fs) := food_loop s (foods w) in
        let '(s, ps) := powerup_loop s (powerups w) in
        modify (fun w =>
          set_powerups (set_foods (set_snakes w (<[i := s]> (snakes w))) fs) ps)
  | None => mret tt
  end.

(** Head of [s1] against the sampled points of the body of [s2]. *)
Definition minDist (s1 s2 : Snake) : R :=
  Snake.width s1 * 0.35 + Snake.width s2 / 2.

Fixpoint head_hits_points (s1 s2 : Snake) (pts : list Vector) : bool :=
  match pts with
  | [] => false
  | p :: rest =>
      if decide (Vector.dist (Snake.pos s1) p < minDist s1 s2) then true
      else head_hits_points s1 s2 rest
  end.

Definition head_hits_body (s1 s2 : Snake) : bool :=
  let step := Z.to_nat (Z.max 2 (Math_floor (Snake.width s2 / 5))) in
  head_hits_points s1 s2 (sample_path step (Snake.path s2)).

(** [for (const s2 of nearby)] for the snake at index [i].  On the first hit
    [s1.dead = true] is written to the store, the death effects run, and
    both loops are left. *)
Fixpoint scan_nearby (i : nat) (nearby : list nat) : M unit :=
  match nearby with
  | [] => mret tt
  | j :: rest =>
      w ← get_world;
      match snakes w !! i, snakes w !! j with
      | Some s1, Some s2 =>
          if bool_decide (i = j) || Snake.dead s2 then scan_nearby i rest
          else if head_hits_body s1 s2 then
            let s1 := Snake.set_dead s1 true in
            modify (fun w => set_snakes w (<[i := s1]> (snakes w)));;
            spawnParticles (Snake.pos s1) 50 (Snake.color s1);;
            dropFood s1
          else scan_nearby i rest
      | _, _ => scan_nearby i rest
      end
  end.

(** The body of the second [for (const s1 of allSnakes)]. *)
Definition collide_at (i : nat) : M unit :=
  w ← get_world;
  match snakes w !! i with
  | Some s1 =>
      if Snake.dead s1 then mret tt
      else
        scan_nearby i
          (SpatialHash.retrieve (spatialHash w)
             (mkRect (Vector.x (Snake.pos s1) - 100)
                     (Vector.y (Snake.pos s1) - 100) 200 200))
  | None => mret tt
  end.

Fixpoint for_each (l : list nat) (body : nat -> M unit) : M unit :=
  match l with
  | [] => mret tt
  | i :: rest => body i;; for_each rest body
  end.

(** [checkCollisions()], without the call of [gameOver] that ends it. *)
Definition checkCollisions : M unit :=
  w ← get_world;
  let allSnakes := seq 0 (length (snakes w)) in
  for_each allSnakes pickups_at;;
  for_each allSnakes collide_at.

(** [gameLoop(timestamp)]: the time step handed to [update], capped. *)
Definition gameLoop_dt (timestamp lastTime : R) : R :=
  Rmin ((timestamp - lastTime) / 1000) 0.05.

(** [obj.pos] for the object at index [i] of the store. *)
Definition pos_at (w : World) (i : nat) : Vector :=
  match snakes w !! i with
  | Some s => Snake.pos s
  | None => Vector.mk 0 0
  end.

(** The start of [update(dt)]: the hash is cleared and refilled with the
    player and the live bots, at their positions of that moment. *)
Definition rebuild_hash (w : World) : World :=
  let live := filter (fun i => i = 0%nat \/
                               (Snake.dead <$> snakes w !! i) = Some false)
                     (seq 0 (length (snakes w))) in
  set_spatialHash w
    (SpatialHash.insert_all (pos_at w) (SpatialHash.clear (spatialHash w)) live).

(** ** PowerUp and Bot construction *)

(** [new PowerUp(x, y)] *)
Definition new_PowerUp (x y : option R) : M PowerUp :=
  px ← coord_or_random x;
  py ← coord_or_random y;
  let pos := Vector.mk px py in
  let pos := if decide (Vector.mag pos > CONFIG.mapSize)
             then Vector.mult (Vector.norm pos) (CONFIG.mapSize - 50)
             else pos in
  r ← Math_random;
  let multiplier := if decide (r < 0.6) then 2
                    else if decide (r < 0.9) then 5 else 10 in
  mret (PowerUp.mk pos multiplier 40).

(** [powerups.push(p)] *)
Definition push_powerup (p : PowerUp) : M unit :=
  modify (fun w => set_powerups w (powerups w ++ [p])).

(** [getRandomName()]: the indices drawn into the two word lists of ten. *)
Definition getRandomName : M (nat * nat) :=
  a ← Math_random;
  b ← Math_random;
  mret (floor_nat (a * 10), floor_nat (b * 10)).

(** The starting score that the constructor of [Bot] draws. *)
Definition bot_start_score : M R :=
  r ← Math_random;
  if decide (r < 0.5) then r2 ← Math_random; mret (100 + r2 * 400)
  else if decide (r < 0.8) then r2 ← Math_random; mret (1000 + r2 * 4000)
  else if decide (r < 0.95) then r2 ← Math_random; mret (10000 + r2 * 40000)
  else r2 ← Math_random; mret (100000 + r2 * 900000).

(** [new Bot()] *)
Definition new_Bot : M Snake :=
  s ← bot_start_score;
  name ← getRandomName;
  new_Snake true s.

(** ** resetGameLogic() and update(dt) *)

(** [bots.push(b)]: the bots follow the player in the store. *)
Definition push_bot (b : Snake) : M unit :=
  modify (fun w => set_snakes w (snakes w ++ [b])).

(** [for (let i = 0; i < n; i++) bots.push(new Bot())] and the same for
    the food. *)
Fixpoint fill_bots (n : nat) : M unit :=
  match n with
  | O => mret tt
  | S n' => b ← new_Bot; push_bot b;; fill_bots n'
  end.

Fixpoint fill_foods (n : nat) : M unit :=
  match n with
  | O => mret tt
  | S n' => f ← new_Food None None 1; push_food f;; fill_foods n'
  end.

(** [resetGameLogic()] *)
Definition resetGameLogic : M unit :=
  player ← new_Snake false 100;
  modify (fun w =>
    set_particles (set_powerups (set_foods (set_snakes w [player]) []) []) []);;
  fill_bots CONFIG.botCount;;
  fill_foods CONFIG.foodCount.

(** The particle loop of [update]: from the last particle to the first, the
    particle ages and moves, and is spliced out when its life is used up. *)
Fixpoint particles_loop (dt : R) (ps : list Particle) : list Particle :=
  match ps with
  | [] => []
  | p :: rest =>
      let rest := particles_loop dt rest in
      let p := Particle.mk
                 (Vector.add (Particle.pos p) (Vector.mult (Particle.vel p) dt))
                 (Particle.vel p) (Particle.life p - dt * 2) (Particle.color p) in
      if decide (Particle.life p <= 0) then rest else p :: rest
  end.

(** "Player Input": the pointer at [(mouse_x, mouse_y)] on a canvas of the
    given size steers the player when it is more than 10 from the centre. *)
Definition player_input (mouse_x mouse_y canvas_width canvas_height : R)
  (w : World) : World :=
  let cx := canvas_width / 2 in
  let cy := canvas_height / 2 in
  let dx := mouse_x - cx in
  let dy := mouse_y - cy in
  if decide (sqrt (dx * dx + dy * dy) > 10) then
    match snakes w with
    | player :: bots =>
        set_snakes w (Snake.set_targetAngle player (Math_atan2 dy dx) :: bots)
    | [] => w
    end
  else w.

(** "Cleanup": [bots = bots.filter(b => !b.dead)]; the player stays. *)
Definition cleanup (w : World) : World :=
  match snakes w with
  | player :: bots =>
      set_snakes w (player :: filter (fun b => Snake.dead b = false) bots)
  | [] => w
  end.

(** [while (foods.length < CONFIG.foodCount) foods.push(new Food())] and
    [while (bots.length < CONFIG.botCount) bots.push(new Bot())].  Each turn
    adds one element, so the loops end within [CONFIG.foodCount] and
    [CONFIG.botCount] turns: that is the fuel [update] gives them. *)
Fixpoint spawn_foods (fuel : nat) : M unit :=
  match fuel with
  | O => mret tt
  | S fuel' =>
      w ← get_world;
      if decide (length (foods w) < CONFIG.foodCount)%nat
      then f ← new_Food None None 1; push_food f;; spawn_foods fuel'
      else mret tt
  end.

Fixpoint spawn_bots (fuel : nat) : M unit :=
  match fuel with
  | O => mret tt
  | S fuel' =>
      w ← get_world;
      if decide (length (snakes w) - 1 < CONFIG.botCount)%nat
      then b ← new_Bot; push_bot b;; spawn_bots fuel'
      else mret tt
  end.

(** [if (Math.random() < 0.01 && powerups.length < 50) powerups.push(new PowerUp())] *)
Definition spawn_powerup : M unit :=
  r ← Math_random;
  w ← get_world;
  if decide (r < 0.01) then
    if decide (length (powerups w) < 50)%nat
    then p ← new_PowerUp None None; push_powerup p
    else mret tt
  else mret tt.

(** [update(dt)], without the lines that write to the page.  The pointer and
    the size of the canvas are inputs. *)
Definition update (dt mouse_x mouse_y canvas_width canvas_height : R) : M unit :=
  modify rebuild_hash;;
  modify (player_input mouse_x mouse_y canvas_width canvas_height);;
  w ← get_world;
  for_each (seq 0 (length (snakes w))) (fun i => update_at i dt);;
  modify (fun w => set_particles w (particles_loop dt (particles w)));;
  checkCollisions;;
  modify cleanup;;
  spawn_foods CONFIG.foodCount;;
  spawn_bots CONFIG.botCount;;
  spawn_powerup.

(** The global [frameCount] set to [n] ([gameLoop] increments it). *)
Definition set_frameCount (w : World) (n : nat) : World :=
  mkWorld (snakes w) (foods w) (powerups w) (particles w) (spatialHash w)
          (mouseDown w) n (random_stream w) (random_pos w).

(** ** Vocabulary of the statements *)

(** The content of a cell of the hash ([[]] for an absent key). *)
Definition cell_at {A : Type} (h : SpatialHash.t A) (k : Z * Z) : list A :=
  match SpatialHash.grid h !! k with Some cell => cell | None => [] end.

(** The cells that [retrieve] visits for a rectangle: columns [sx..ex] and
    rows [sy..ey]. *)
Definition in_cell_range {A : Type} (h : SpatialHash.t A) (rect : Rect)
  (k : Z * Z) : Prop :=
  (Math_floor (rect_x rect / SpatialHash.cellSize h) <= k.1
   <= Math_floor ((rect_x rect + rect_w rect) / SpatialHash.cellSize h))%Z /\
  (Math_floor (rect_y rect / SpatialHash.cellSize h) <= k.2
   <= Math_floor ((rect_y rect + rect_h rect) / SpatialHash.cellSize h))%Z.

(** The square of the plane that is the cell [k] lies inside the rectangle. *)
Definition cell_inside {A : Type} (h : SpatialHash.t A) (k : Z * Z)
  (rect : Rect) : Prop :=
  rect_x rect <= IZR k.1 * SpatialHash.cellSize h /\
  (IZR k.1 + 1) * SpatialHash.cellSize h <= rect_x rect + rect_w rect /\
  rect_y rect <= IZR k.2 * SpatialHash.cellSize h /\
  (IZR k.2 + 1) * SpatialHash.cellSize h <= rect_y rect + rect_h rect.

(** A live snake at a given place and score, heading along the x axis, with
    the width of its score and a one-point path: the concrete snake of the
    examples. *)
Definition sample_snake (isBot : bool) (pos : Vector) (score : R) : Snake :=
  Snake.mk isBot 0 pos 0 0 score (width_law score) (width_law score)
           [pos] 0 false 1 0 0 false 0.

(** [w'] is [w] after some calls of [Math.random] and some pushes onto
    [foods] and [particles]; every other global is the same. *)
Definition effects_only (w w' : World) : Prop :=
  snakes w' = snakes w /\ powerups w' = powerups w /\
  spatialHash w' = spatialHash w /\ mouseDown w' = mouseDown w /\
  frameCount w' = frameCount w /\ random_stream w' = random_stream w /\
  (exists fs, foods w' = foods w ++ fs) /\
  (exists ps, particles w' = particles w ++ ps).

(** A world with no food, power-up or particle, the given snakes, an empty
    hash of the cell size of the game, the mouse button up, and a random
    source that always returns [r]. *)
Definition sample_world (store : list Snake) (r : R) : World :=
  mkWorld store [] [] [] (SpatialHash.new 1000) false 0 (fun _ => r) 0.

(** The states a snake object can be in: the constructor makes it, and it
    is then changed only by its [update] (of [Snake] or of [Bot]), by the
    steering of the player in [update(dt)], and by the loops of
    [checkCollisions] (food, power-ups, death). *)
Inductive reachable : Snake -> Prop :=
| reach_new isBot startScore w :
    reachable (fst (new_Snake isBot startScore w))
| reach_update s dt w :
    reachable s -> reachable (fst (Snake_update s dt w))
| reach_bot_update this s dt w :
    reachable s -> reachable (fst (Bot_update this s dt w))
| reach_steer s a :
    reachable s -> reachable (Snake.set_targetAngle s a)
| reach_food s fs :
    reachable s -> reachable (fst (food_loop s fs))
| reach_powerup s ps :
    reachable s -> reachable (fst (powerup_loop s ps))
| reach_dead s :
    reachable s -> reachable (Snake.set_dead s true).

(** The score that the food loop adds for a snake [s]: one term
    [value * multiplier * 10] for each item that passes the tests. *)
Definition gained (s : Snake) (fs : list Food) : R :=
  fold_right (fun f acc =>
                if food_hit s f
                then acc + Food.value f * Snake.multiplier s * 10 else acc)
             0 fs.

(** The example of the bot scan: a bot at the origin heading along the x
    axis, and in front of it the body of another snake whose head is at
    (900, 100) and whose sixth path point is at (460, 100); both have score
    100, hence width 65.  The hash is the one that [update(dt)] builds. *)
Definition scan_example_other : Snake :=
  Snake.set_path (sample_snake false (Vector.mk 900 100) 100)
    [Vector.mk 900 100; Vector.mk 812 100; Vector.mk 724 100;
     Vector.mk 636 100; Vector.mk 548 100; Vector.mk 460 100].

Definition scan_example_bot : Snake := sample_snake true (Vector.mk 0 0) 100.

Definition scan_example_world : World :=
  rebuild_hash (sample_world [scan_example_other; scan_example_bot] 0.5).

(** Two worlds for the collision pass, each with the hash as [update]
    rebuilds it.  In the first the two heads are 10 apart, in one cell.  In
    the second both snakes have score 1000000 (width 165) and the heads are
    in neighbouring cells, 113.4 apart. *)
Definition near_example_head : Snake := sample_snake false (Vector.mk 0 0) 100.

Definition near_example_body : Snake := sample_snake true (Vector.mk 10 0) 100.

Definition near_example_world : World :=
  rebuild_hash (sample_world [near_example_head; near_example_body] 0.5).

Definition far_example_head : Snake :=
  sample_snake false (Vector.mk 899 500) 1000000.

Definition far_example_body : Snake :=
  sample_snake true (Vector.mk 1012 510) 1000000.

Definition far_example_world : World :=
  rebuild_hash (sample_world [far_example_head; far_example_body] 0.5).

(** The rectangle that the scan of a bot queries. *)
Definition scan_rect (s : Snake) : Rect :=
  mkRect (Vector.x (Snake.pos s) - lookDist s)
         (Vector.y (Snake.pos s) - lookDist s)
         (lookDist s * 2) (lookDist s * 2).

(** A particle after a time [t]: moved along its velocity, and older. *)
Definition aged (t : R) (p : Particle) : Particle :=
  Particle.mk (Vector.add (Particle.pos p) (Vector.mult (Particle.vel p) t))
              (Particle.vel p) (Particle.life p - t * 2) (Particle.color p).

(** What [checkCollisions] may do to a snake object: the head, the width,
    the path and the kind stay, and a dead snake stays exactly as it is. *)
Definition snake_kept (s s' : Snake) : Prop :=
  Snake.pos s' = Snake.pos s /\ Snake.width s' = Snake.width s /\
  Snake.path s' = Snake.path s /\ Snake.isBot s' = Snake.isBot s /\
  (Snake.dead s = true -> s' = s).

(** ... and to the world: the snakes are kept one by one, the hash is the
    same, and particles are only added, with life 1. *)
Definition collisions_keep (w w' : World) : Prop :=
  Forall2 snake_kept (snakes w) (snakes w') /\
  spatialHash w' = spatialHash w /\
  exists ps, particles w' = particles w ++ ps /\
             Forall (fun q => Particle.life q = 1) ps.

(** * Properties *)

(** ** Division and order *)

Lemma div_le_iff (a b c : R) : 0 < c -> (a / c <= b <-> a <= b * c).
Proof.
  intros Hc. split; intros H.
  - replace a with (a / c * c) by (field; lra). apply Rmult_le_compat_r; lra.
  - apply (Rmult_le_reg_r c); [lra |].
    replace (a / c * c) with a by (field; lra). exact H.
Qed.

Lemma le_div_iff (a b c : R) : 0 < c -> (b <= a / c <-> b * c <= a).
Proof.
  intros Hc. split; intros H.
  - replace a with (a / c * c) by (field; lra). apply Rmult_le_compat_r; lra.
  - apply (Rmult_le_reg_r c); [lra |].
    replace (a / c * c) with a by (field; lra). exact H.
Qed.

Lemma div_lt_iff (a b c : R) : 0 < c -> (a / c < b <-> a < b * c).
Proof.
  intros Hc. split; intros H.
  - replace a with (a / c * c) by (field; lra). apply Rmult_lt_compat_r; lra.
  - apply (Rmult_lt_reg_r c); [lra |].
    replace (a / c * c) with a by (field; lra). exact H.
Qed.

Lemma Rabs_le_bounds (a b : R) : Rabs a <= b -> - b <= a <= b.
Proof. unfold Rabs. destruct (Rcase_abs a); lra. Qed.

(** ** Vectors *)

Section VectorFacts.
Import Vector.

Lemma sum_squares_nonneg (a b : R) : 0 <= a * a + b * b.
Proof. nra. Qed.

Lemma mag_nonneg (v : Vector) : 0 <= mag v.
Proof. apply sqrt_pos. Qed.

Lemma mag_sqr (v : Vector) : mag v * mag v = x v * x v + y v * y v.
Proof. unfold mag. apply sqrt_sqrt, sum_squares_nonneg. Qed.

Lemma mag_zero_iff (v : Vector) : mag v = 0 <-> v = mk 0 0.
Proof.
  split.
  - intros H. pose proof (mag_sqr v) as Hs. rewrite H in Hs.
    destruct v as [a b]; simpl in *.
    assert (a = 0) by nra. assert (b = 0) by nra. subst. reflexivity.
  - intros ->. unfold mag; simpl.
    replace (0 * 0 + 0 * 0) with 0 by ring. apply sqrt_0.
Qed.

Lemma mag_gt_iff (v : Vector) (r : R) :
  0 <= r -> (mag v > r <-> x v * x v + y v * y v > r * r).
Proof.
  intros Hr. pose proof (mag_nonneg v) as Hm. pose proof (mag_sqr v) as Hs.
  rewrite <- Hs. split; intros H.
  - apply Rmult_le_0_lt_compat; lra.
  - destruct (Rlt_le_dec r (mag v)) as [L | L]; [lra |].
    assert (mag v * mag v <= r * r) by (apply Rmult_le_compat; lra). lra.
Qed.

Lemma dist_nonneg (a b : Vector) : 0 <= dist a b.
Proof. apply sqrt_pos. Qed.

Lemma dist_sqr (a b : Vector) :
  dist a b * dist a b = (x a - x b) ^ 2 + (y a - y b) ^ 2.
Proof.
  unfold dist. apply sqrt_sqrt. apply Rplus_le_le_0_compat; apply pow2_ge_0.
Qed.

Lemma dist_lt_iff (a b : Vector) (r : R) :
  0 <= r -> (dist a b < r <-> (x a - x b) ^ 2 + (y a - y b) ^ 2 < r * r).
Proof.
  intros Hr. pose proof (dist_nonneg a b) as Hd. pose proof (dist_sqr a b) as Hs.
  rewrite <- Hs. split; intros H.
  - apply Rmult_le_0_lt_compat; lra.
  - destruct (Rlt_le_dec (dist a b) r) as [L | L]; [lra |].
    assert (r * r <= dist a b * dist a b) by (apply Rmult_le_compat; lra). lra.
Qed.

Lemma leg_le_hypotenuse (a b d : R) :
  0 <= d -> d * d = a * a + b * b -> Rabs a <= d.
Proof.
  intros Hd Hs. assert (Hb : 0 <= b * b) by nra.
  apply Rabs_le. split.
  - destruct (Rle_lt_dec (- d) a) as [L | L]; [exact L |].
    assert (d * d < (- a) * (- a)) by (apply Rmult_le_0_lt_compat; lra). lra.
  - destruct (Rle_lt_dec a d) as [L | L]; [exact L |].
    assert (d * d < a * a) by (apply Rmult_le_0_lt_compat; lra). lra.
Qed.

Lemma abs_dx_le_dist (a b : Vector) : Rabs (x a - x b) <= dist a b.
Proof.
  apply (leg_le_hypotenuse _ (y a - y b)); [apply dist_nonneg |].
  rewrite dist_sqr. ring.
Qed.

Lemma abs_dy_le_dist (a b : Vector) : Rabs (y a - y b) <= dist a b.
Proof.
  apply (leg_le_hypotenuse _ (x a - x b)); [apply dist_nonneg |].
  rewrite dist_sqr. ring.
Qed.

Lemma mag_norm_unit (v : Vector) : mag v <> 0 -> mag (norm v) = 1.
Proof.
  intros Hm. unfold norm. destruct (decide (mag v = 0)) as [E | _]; [done |].
  unfold mag at 1; simpl.
  replace (x v / mag v * (x v / mag v) + y v / mag v * (y v / mag v))
    with ((x v * x v + y v * y v) / (mag v * mag v)) by (field; exact Hm).
  rewrite mag_sqr. rewrite Rdiv_diag.
  - apply sqrt_1.
  - rewrite <- mag_sqr. nra.
Qed.

(** C9.  [norm] never divides by zero: a vector of magnitude 0 (which is the
    zero vector) is normalised to the zero vector, and every other vector to
    a vector of magnitude exactly 1. *)
Theorem norm_zero_or_unit (v : Vector) :
  norm (mk 0 0) = mk 0 0 /\
  (mag v = 0 -> norm v = mk 0 0) /\
  (mag v <> 0 -> mag (norm v) = 1).
Proof.
  split; [| split].
  - unfold norm. destruct (decide (mag (mk 0 0) = 0)) as [_ | N]; [done |].
    exfalso. apply N. apply mag_zero_iff. reflexivity.
  - intros H. unfold norm. destruct (decide (mag v = 0)); done.
  - apply mag_norm_unit.
Qed.

End VectorFacts.

Lemma mag_3_4 : Vector.mag (Vector.mk 3 4) = 5.
Proof.
  unfold Vector.mag; simpl. replace (3 * 3 + 4 * 4) with (5 * 5) by lra.
  apply sqrt_square. lra.
Qed.

Lemma norm_zero_or_unit_witness :
  Vector.norm (Vector.mk 0 0) = Vector.mk 0 0 /\
  Vector.mag (Vector.norm (Vector.mk 3 4)) = 1.
Proof.
  split.
  - exact (proj1 (norm_zero_or_unit (Vector.mk 0 0))).
  - apply (proj2 (proj2 (norm_zero_or_unit (Vector.mk 3 4)))).
    rewrite mag_3_4. lra.
Defined.

(** ** The spatial hash *)

Section SpatialHashFacts.
Context {A : Type}.
Variable pos : A -> Vector.
Import SpatialHash.

Lemma cellSize_insert (h : SpatialHash.t A) (obj : A) :
  cellSize (insert pos h obj) = cellSize h.
Proof. reflexivity. Qed.

Lemma cellSize_insert_all (objs : list A) (h : SpatialHash.t A) :
  cellSize (insert_all pos h objs) = cellSize h.
Proof.
  unfold insert_all. revert h.
  induction objs as [| o objs IH]; intros h; simpl; [done |].
  rewrite IH. apply cellSize_insert.
Qed.

Lemma key_cellSize (h h' : SpatialHash.t A) (p : Vector) :
  cellSize h = cellSize h' -> key h p = key h' p.
Proof. intros E. unfold key. by rewrite E. Qed.

Lemma cell_at_insert (h : SpatialHash.t A) (obj : A) (k : Z * Z) :
  cell_at (insert pos h obj) k =
  if decide (key h (pos obj) = k) then cell_at h k ++ [obj] else cell_at h k.
Proof.
  unfold cell_at, insert; simpl.
  destruct (decide (key h (pos obj) = k)) as [-> | N].
  - by rewrite lookup_insert_eq.
  - by rewrite lookup_insert_ne.
Qed.

(** What a cell holds after a sequence of insertions. *)
Lemma elem_of_cell_insert_all (objs : list A) (h : SpatialHash.t A)
  (k : Z * Z) (a : A) :
  a ∈ cell_at (insert_all pos h objs) k <->
  a ∈ cell_at h k \/ (a ∈ objs /\ key h (pos a) = k).
Proof.
  unfold insert_all. revert h. induction objs as [| o objs IH]; intros h; simpl.
  - split; [by left | intros [? | [H _]]; [done | by apply elem_of_nil in H]].
  - rewrite IH. rewrite cell_at_insert.
    rewrite (key_cellSize (insert pos h o) h) by apply cellSize_insert.
    rewrite elem_of_cons.
    destruct (decide (key h (pos o) = k)) as [E | N].
    + rewrite elem_of_app, list_elem_of_singleton. split.
      * intros [[? | ->] | [? ?]]; auto.
      * intros [? | [[-> | ?] ?]]; auto.
    + split.
      * intros [? | [? ?]]; auto.
      * intros [? | [[-> | ?] ?]]; auto. done.
Qed.

Lemma cell_at_new (c : R) (k : Z * Z) : cell_at (new c : SpatialHash.t A) k = [].
Proof. unfold cell_at, new; simpl. by rewrite lookup_empty. Qed.

Lemma elem_of_range (s e v : Z) : v ∈ range s e <-> (s <= v <= e)%Z.
Proof. unfold range. rewrite elem_of_seqZ. lia. Qed.

(** What [retrieve] returns: the content of the cells of the range. *)
Lemma elem_of_retrieve (h : SpatialHash.t A) (rect : Rect) (a : A) :
  a ∈ retrieve h rect <->
  exists k, in_cell_range h rect k /\ a ∈ cell_at h k.
Proof.
  unfold retrieve. rewrite list_elem_of_In, in_flat_map. split.
  - intros (cx & Hx & Hin). apply in_flat_map in Hin as (cy & Hy & Hin).
    apply list_elem_of_In, elem_of_range in Hx, Hy.
    exists (cx, cy). split; [split; simpl; lia |].
    by apply list_elem_of_In.
  - intros ([cx cy] & [Hx Hy] & Hin); simpl in *.
    exists cx. split; [apply list_elem_of_In, elem_of_range; lia |].
    apply in_flat_map. exists cy.
    split; [apply list_elem_of_In, elem_of_range; lia |].
    by apply list_elem_of_In in Hin.
Qed.

(** The exact content of a query on a freshly filled hash. *)
Lemma retrieve_insert_all (c : R) (objs : list A) (rect : Rect) (a : A) :
  let h := insert_all pos (new c) objs in
  a ∈ retrieve h rect <-> a ∈ objs /\ in_cell_range h rect (key h (pos a)).
Proof.
  intros h. rewrite elem_of_retrieve. subst h. split.
  - intros (k & Hk & Hin). apply elem_of_cell_insert_all in Hin.
    destruct Hin as [Hin | [Hin Hkey]].
    + rewrite cell_at_new in Hin. by apply elem_of_nil in Hin.
    + split; [done |].
      rewrite (key_cellSize _ (new c)) by apply cellSize_insert_all.
      by rewrite Hkey.
  - intros [Hin Hk]. eexists. split; [exact Hk |].
    apply elem_of_cell_insert_all. right. split; [done |].
    apply key_cellSize. symmetry. apply cellSize_insert_all.
Qed.

(** A cell inside the rectangle is in the range that [retrieve] visits. *)
Lemma cell_inside_in_range (h : SpatialHash.t A) (k : Z * Z) (rect : Rect) :
  0 < cellSize h -> cell_inside h k rect -> in_cell_range h rect k.
Proof.
  intros Hc (Hx1 & Hx2 & Hy1 & Hy2). unfold in_cell_range, Math_floor.
  assert (Hdiv : forall a z, a <= IZR z * cellSize h -> (Zfloor (a / cellSize h) <= z)%Z).
  { intros a z Ha. apply le_IZR.
    apply Rle_trans with (a / cellSize h); [apply Zfloor_bound |].
    apply div_le_iff; lra. }
  assert (Hdiv' : forall a z, (IZR z + 1) * cellSize h <= a ->
                              (z <= Zfloor (a / cellSize h))%Z).
  { intros a z Ha. apply Zfloor_lub. apply le_div_iff; [lra |].
    assert (IZR z * cellSize h <= (IZR z + 1) * cellSize h) by lra. lra. }
  repeat split; auto.
Qed.

(** C8.  Grid query completeness.  After inserting agents into an empty hash
    of positive cell size: a query rectangle that contains the whole cell of
    an inserted agent returns that agent, and a query whose range of cells
    holds the cell of no inserted agent returns the empty list. *)
Theorem grid_query_complete (c : R) (objs : list A) (rect : Rect) :
  0 < c -> 0 <= rect_w rect -> 0 <= rect_h rect ->
  let h := insert_all pos (new c) objs in
  (forall a, a ∈ objs -> cell_inside h (key h (pos a)) rect ->
             a ∈ retrieve h rect) /\
  ((forall a, a ∈ objs -> ~ in_cell_range h rect (key h (pos a))) ->
   retrieve h rect = []).
Proof.
  intros Hc _ _ h. split.
  - intros a Hin Hcell. apply retrieve_insert_all. split; [done |].
    apply cell_inside_in_range; [| done].
    subst h. rewrite cellSize_insert_all. exact Hc.
  - intros Hdis. destruct (retrieve h rect) as [| a l] eqn:E; [done |].
    assert (Ha : a ∈ retrieve h rect) by (rewrite E; apply elem_of_cons; auto).
    apply retrieve_insert_all in Ha as [Hin Hr]. by apply Hdis in Hr.
Qed.

End SpatialHashFacts.

(** [Math.floor] of a concrete quotient. *)
Ltac floor_is z :=
  unfold Math_floor; apply (Zfloor_eq z); simpl; lra.

Lemma grid_query_complete_witness :
  let pos := fun _ : nat => Vector.mk 1500 2500 in
  let h := SpatialHash.insert_all pos (SpatialHash.new 1000) [0%nat] in
  0%nat ∈ SpatialHash.retrieve h (mkRect 1000 2000 1000 1000) /\
  SpatialHash.retrieve h (mkRect 5000 5000 10 10) = [].
Proof.
  intros pos h.
  assert (Hk : SpatialHash.key h (pos 0%nat) = (1, 2)%Z).
  { unfold SpatialHash.key, pos, h; simpl. f_equal; [floor_is 1%Z | floor_is 2%Z]. }
  split.
  - apply (proj1 (grid_query_complete pos 1000 [0%nat] (mkRect 1000 2000 1000 1000)
                    ltac:(lra) ltac:(simpl; lra) ltac:(simpl; lra))).
    + apply elem_of_cons. by left.
    + fold h. rewrite Hk. unfold cell_inside, h; simpl. lra.
  - apply (proj2 (grid_query_complete pos 1000 [0%nat] (mkRect 5000 5000 10 10)
                    ltac:(lra) ltac:(simpl; lra) ltac:(simpl; lra))).
    intros a Ha. apply list_elem_of_singleton in Ha as ->.
    fold h. rewrite Hk. unfold in_cell_range, h; simpl.
    assert (E : Math_floor (5000 / 1000) = 5%Z) by floor_is 5%Z.
    rewrite E. lia.
Defined.

(** ** The width law *)

Lemma ln_10_pos : 0 < ln 10.
Proof. rewrite <- ln_1. apply ln_increasing; lra. Qed.

Lemma log10_10 : log10 10 = 1.
Proof. unfold log10. apply Rdiv_diag. pose proof ln_10_pos. lra. Qed.

Lemma log10_100 : log10 100 = 2.
Proof.
  unfold log10. replace 100 with (10 * 10) by lra.
  rewrite ln_mult by lra. pose proof ln_10_pos. field. lra.
Qed.

Lemma log10_le (a b : R) : 0 < a -> a <= b -> log10 a <= log10 b.
Proof.
  intros Ha [Hlt | ->]; [| lra].
  unfold log10. pose proof ln_10_pos as H10.
  pose proof (ln_increasing a b Ha Hlt) as Hln.
  apply Rmult_le_compat_r; [| lra].
  apply Rlt_le, Rinv_0_lt_compat, H10.
Qed.

Lemma width_law_mono (a b : R) : a <= b -> width_law a <= width_law b.
Proof.
  intros Hab. unfold width_law.
  assert (Hlog : log10 (Rmax 10 a) <= log10 (Rmax 10 b)).
  { apply log10_le.
    - pose proof (Rmax_l 10 a). lra.
    - apply Rle_max_compat_l, Hab. }
  apply Rle_min_compat_l. lra.
Qed.

(** Every width that the law gives lies between 40 and 500. *)
Lemma width_law_bounds (a : R) : 40 <= width_law a <= 500.
Proof.
  unfold width_law. split; [| apply Rmin_l].
  assert (1 <= log10 (Rmax 10 a)).
  { rewrite <- log10_10. apply log10_le; [lra | apply Rmax_l]. }
  apply Rmin_glb; lra.
Qed.

Lemma log10_1000000 : log10 1000000 = 6.
Proof.
  unfold log10. replace 1000000 with (10 ^ 6) by lra.
  rewrite ln_pow by lra. pose proof ln_10_pos.
  replace (INR 6) with 6 by (simpl; lra). field. lra.
Qed.

Lemma width_law_1000000 : width_law 1000000 = 165.
Proof.
  unfold width_law. rewrite Rmax_right by lra. rewrite log10_1000000.
  rewrite Rmin_right; lra.
Qed.

Lemma width_law_100 : width_law 100 = 65.
Proof.
  unfold width_law. rewrite Rmax_right by lra. rewrite log10_100.
  rewrite Rmin_right; lra.
Qed.

(** C5.  The target width of a snake is
    [min(500, 15 + log10(max(10, score)) * 25)]; it is 65 at score 100; it
    never decreases when the score grows; and it is the value that [update]
    stores as the smoothing target. *)
Theorem target_width_law (s s' : Snake) (dt : R) :
  calculateWidth s = Rmin 500 (15 + log10 (Rmax 10 (Snake.score s)) * 25) /\
  (Snake.score s = 100 -> calculateWidth s = 65) /\
  (Snake.score s <= Snake.score s' -> calculateWidth s <= calculateWidth s') /\
  Snake.targetWidth (smooth_growth s dt) = calculateWidth s.
Proof.
  repeat split.
  - unfold calculateWidth. intros ->. apply width_law_100.
  - apply width_law_mono.
Qed.

Lemma target_width_law_witness :
  calculateWidth (sample_snake false (Vector.mk 0 0) 100) = 65 /\
  calculateWidth (sample_snake false (Vector.mk 0 0) 100)
  <= calculateWidth (sample_snake true (Vector.mk 0 0) 5000).
Proof.
  split.
  - apply (target_width_law (sample_snake false (Vector.mk 0 0) 100)
                            (sample_snake false (Vector.mk 0 0) 100) 0).
    reflexivity.
  - apply (target_width_law (sample_snake false (Vector.mk 0 0) 100)
                            (sample_snake true (Vector.mk 0 0) 5000) 0).
    simpl. lra.
Defined.

(** ** The kinematics of [Snake.update] *)

Ltac snake_fields :=
  cbn [Snake.isBot Snake.id Snake.pos Snake.angle Snake.targetAngle
       Snake.score Snake.width Snake.targetWidth Snake.path Snake.color
       Snake.dead Snake.multiplier Snake.multiplierTimer
       Snake.changeDirTimer Snake.wantBoost Snake.boostCooldown
       Snake.set_pos Snake.set_angle Snake.set_targetAngle Snake.set_score
       Snake.set_width Snake.set_targetWidth Snake.set_path Snake.set_dead
       Snake.set_multiplier Snake.set_multiplierTimer
       Snake.set_changeDirTimer Snake.set_wantBoost Snake.set_boostCooldown
       fst snd] in *.

Ltac unfold_M :=
  unfold mbind, M_bind, mret, M_ret, get_world, modify, push_food,
    push_particle, Math_random in *.

(** What the first two steps leave alone. *)
Lemma decay_multiplier_frame (s : Snake) (dt : R) :
  let s' := decay_multiplier s dt in
  Snake.isBot s' = Snake.isBot s /\ Snake.pos s' = Snake.pos s /\
  Snake.angle s' = Snake.angle s /\ Snake.targetAngle s' = Snake.targetAngle s /\
  Snake.score s' = Snake.score s /\ Snake.width s' = Snake.width s /\
  Snake.targetWidth s' = Snake.targetWidth s /\ Snake.path s' = Snake.path s /\
  Snake.color s' = Snake.color s /\ Snake.dead s' = Snake.dead s /\
  Snake.wantBoost s' = Snake.wantBoost s.
Proof.
  unfold decay_multiplier. repeat case_decide; simpl; repeat split.
Qed.

Lemma turn_frame (s : Snake) (dt : R) :
  let s' := turn s dt in
  Snake.isBot s' = Snake.isBot s /\ Snake.pos s' = Snake.pos s /\
  Snake.targetAngle s' = Snake.targetAngle s /\
  Snake.score s' = Snake.score s /\ Snake.width s' = Snake.width s /\
  Snake.targetWidth s' = Snake.targetWidth s /\ Snake.path s' = Snake.path s /\
  Snake.color s' = Snake.color s /\ Snake.dead s' = Snake.dead s /\
  Snake.wantBoost s' = Snake.wantBoost s.
Proof.
  unfold turn. case_decide; simpl; repeat split.
Qed.

(** The snake and the speed that [speed_and_boost] returns. *)
Lemma speed_and_boost_fst (s : Snake) (dt : R) (w : World) :
  fst (speed_and_boost s dt w) =
  if boosting s w && bool_decide (Snake.score s > 50)
  then (Snake.set_score s (Snake.score s - dt * 25), CONFIG.boostSpeed)
  else (s, cruise_speed s).
Proof.
  unfold speed_and_boost. unfold_M.
  destruct (boosting s w && bool_decide (Snake.score s > 50)); [| reflexivity].
  simpl. case_decide; [| reflexivity].
  destruct (last (Snake.path s)) as [tail |]; [| reflexivity].
  destruct (new_Food _ _ _ _) as [f w']. reflexivity.
Qed.

(** Without a boost the globals are not touched. *)
Lemma speed_and_boost_idle (s : Snake) (dt : R) (w : World) :
  boosting s w && bool_decide (Snake.score s > 50) = false ->
  speed_and_boost s dt w = ((s, cruise_speed s), w).
Proof.
  intros H. unfold speed_and_boost. unfold_M. by rewrite H.
Qed.

Lemma kinematics_unfold (s : Snake) (dt : R) (w : World) :
  kinematics s dt w =
  (move (fst (fst (speed_and_boost (turn (decay_multiplier s dt) dt) dt w)))
        (snd (fst (speed_and_boost (turn (decay_multiplier s dt) dt) dt w))) dt,
   snd (speed_and_boost (turn (decay_multiplier s dt) dt) dt w)).
Proof.
  unfold kinematics. unfold_M.
  destruct (speed_and_boost _ _ _) as [[s2 sp] w1]. reflexivity.
Qed.

Lemma cruise_speed_range (s : Snake) : 0 <= cruise_speed s <= 450.
Proof.
  unfold cruise_speed, CONFIG.baseSpeed.
  destruct (Snake.isBot s && bool_decide (Snake.width s > 100)); lra.
Qed.

(** The state after the translation: which fields it shares with the state
    before, where the score went, and where the head is. *)
Lemma kinematics_spec (s : Snake) (dt : R) (w : World) :
  let m := fst (kinematics s dt w) in
  Snake.isBot m = Snake.isBot s /\ Snake.width m = Snake.width s /\
  Snake.targetWidth m = Snake.targetWidth s /\ Snake.path m = Snake.path s /\
  Snake.color m = Snake.color s /\ Snake.dead m = Snake.dead s /\
  Snake.targetAngle m = Snake.targetAngle s /\
  Snake.wantBoost m = Snake.wantBoost s /\
  (exists speed,
     Snake.pos m =
       Vector.add (Snake.pos s)
         (Vector.mult (Vector.mk (cos (Snake.angle m)) (sin (Snake.angle m)))
                      (speed * dt)) /\
     if boosting s w && bool_decide (Snake.score s > 50)
     then Snake.score m = Snake.score s - dt * 25 /\ speed = CONFIG.boostSpeed
     else Snake.score m = Snake.score s /\ speed = cruise_speed s).
Proof.
  intros m. subst m. rewrite kinematics_unfold. simpl.
  pose proof (decay_multiplier_frame s dt) as D. simpl in D.
  pose proof (turn_frame (decay_multiplier s dt) dt) as T. simpl in T.
  destruct D as (D1 & D2 & D3 & D4 & D5 & D6 & D7 & D8 & D9 & D10 & D11).
  destruct T as (T1 & T2 & T3 & T4 & T5 & T6 & T7 & T8 & T9 & T10).
  set (s1 := turn (decay_multiplier s dt) dt) in *.
  pose proof (speed_and_boost_fst s1 dt w) as F.
  assert (B : boosting s1 w = boosting s w).
  { unfold boosting. by rewrite T1, D1, T10, D11. }
  assert (C : cruise_speed s1 = cruise_speed s).
  { unfold cruise_speed. by rewrite T1, D1, T5, D6. }
  rewrite B, T4, D5 in F.
  destruct (boosting s w && bool_decide (Snake.score s > 50));
    rewrite F; simpl; rewrite ?T1, ?T2, ?T3, ?T4, ?T5, ?T6, ?T7, ?T8, ?T9, ?T10;
    rewrite ?D1, ?D2, ?D4, ?D5, ?D6, ?D7, ?D8, ?D9, ?D10, ?D11;
    repeat split; eexists; (split; [reflexivity |]); split; auto.
Qed.

(** ** Effects on the globals *)

Lemma effects_only_refl (w : World) : effects_only w w.
Proof.
  repeat split; exists []; by rewrite app_nil_r.
Qed.

Lemma effects_only_trans (w1 w2 w3 : World) :
  effects_only w1 w2 -> effects_only w2 w3 -> effects_only w1 w3.
Proof.
  intros (A1 & A2 & A3 & A4 & A5 & A6 & [f1 A7] & [p1 A8])
         (B1 & B2 & B3 & B4 & B5 & B6 & [f2 B7] & [p2 B8]).
  repeat split; try congruence.
  - exists (f1 ++ f2). by rewrite B7, A7, app_assoc.
  - exists (p1 ++ p2). by rewrite B8, A8, app_assoc.
Qed.

Lemma effects_only_random_pos (w : World) (n : nat) :
  effects_only w (set_random_pos w n).
Proof.
  repeat split; exists []; simpl; by rewrite app_nil_r.
Qed.

Lemma effects_only_push_food (w : World) (l : list Food) (f : Food) :
  l = foods w -> effects_only w (set_foods w (l ++ [f])).
Proof.
  intros ->.
  repeat split; simpl; [by exists [f] | exists []; by rewrite app_nil_r].
Qed.

Lemma effects_only_push_particle (w : World) (l : list Particle)
  (p : Particle) :
  l = particles w -> effects_only w (set_particles w (l ++ [p])).
Proof.
  intros ->.
  repeat split; simpl; [exists []; by rewrite app_nil_r | by exists [p]].
Qed.

(** Building a food item only draws random numbers. *)
Lemma coord_or_random_world (a : option R) (w : World) :
  exists n, snd (coord_or_random a w) = set_random_pos w n.
Proof.
  unfold coord_or_random. unfold_M.
  destruct a as [v |]; [case_decide |]; simpl; eauto.
  exists (random_pos w). by destruct w.
Qed.

Lemma new_Food_world (a b : option R) (v : R) (w : World) :
  exists n, snd (new_Food a b v w) = set_random_pos w n.
Proof.
  unfold new_Food. unfold_M.
  destruct (coord_or_random_world a w) as [n1 H1].
  destruct (coord_or_random a w) as [px w1]; simpl in H1; subst w1.
  destruct (coord_or_random_world b (set_random_pos w n1)) as [n2 H2].
  destruct (coord_or_random b _) as [py w2]; simpl in H2; subst w2.
  simpl. eauto.
Qed.

Lemma new_Food_effects (a b : option R) (v : R) (w : World) :
  effects_only w (snd (new_Food a b v w)).
Proof.
  destruct (new_Food_world a b v w) as [n ->]. apply effects_only_random_pos.
Qed.

Lemma spawnParticles_effects (p : Vector) (n c : nat) (w : World) :
  effects_only w (snd (spawnParticles p n c w)) /\
  foods (snd (spawnParticles p n c w)) = foods w /\
  length (particles (snd (spawnParticles p n c w)))
  = (length (particles w) + n)%nat.
Proof.
  revert w. induction n as [| n IH]; intros w; simpl.
  - split; [apply effects_only_refl | split; [done | lia]].
  - unfold_M. simpl.
    match goal with |- context [spawnParticles p n c ?w0] =>
      destruct (IH w0) as (E & F & L); set (w1 := w0) in * end.
    split; [| split].
    + eapply effects_only_trans; [| exact E]. subst w1.
      eapply effects_only_trans; [apply effects_only_random_pos |].
      eapply effects_only_trans; [apply effects_only_random_pos |].
      by apply effects_only_push_particle.
    + rewrite F. reflexivity.
    + rewrite L. subst w1; simpl. rewrite length_app; simpl. lia.
Qed.

Lemma dropFood_loop_effects (s : Snake) (pts : list Vector) (w : World) :
  effects_only w (snd (dropFood_loop s pts w)) /\
  particles (snd (dropFood_loop s pts w)) = particles w.
Proof.
  revert w. induction pts as [| p pts IH]; intros w; simpl.
  - split; [apply effects_only_refl | done].
  - unfold_M. simpl.
    match goal with |- context [new_Food ?a ?b ?v ?w0] =>
      destruct (new_Food_world a b v w0) as [n HF];
      destruct (new_Food a b v w0) as [f w1] end.
    simpl in HF. subst w1.
    match goal with |- context [dropFood_loop s pts ?w0] =>
      destruct (IH w0) as (E & P) end.
    split.
    + eapply effects_only_trans; [| exact E].
      eapply effects_only_trans; [apply (effects_only_random_pos w n) |].
      by apply effects_only_push_food.
    + rewrite P. reflexivity.
Qed.

(** The death effects: fifty particles, some food, nothing else. *)
Lemma die_spec (s : Snake) (w : World) :
  fst (die s w) = Snake.set_dead s true /\
  effects_only w (snd (die s w)) /\
  length (particles (snd (die s w))) = (length (particles w) + 50)%nat.
Proof.
  unfold die, dropFood. unfold_M.
  pose proof (spawnParticles_effects (Snake.pos (Snake.set_dead s true)) 50
                (Snake.color (Snake.set_dead s true)) w) as (E & _ & L).
  destruct (spawnParticles _ _ _ w) as [[] w1]; simpl in E, L.
  match goal with |- context [dropFood_loop ?a ?b w1] =>
    pose proof (dropFood_loop_effects a b w1) as (E2 & P2);
    destruct (dropFood_loop a b w1) as [[] w2] end.
  simpl in *. split; [done |]. split.
  - eapply effects_only_trans; eauto.
  - by rewrite P2.
Qed.

(** ** Death at the boundary *)

(** In one tick of at most 0.05 s the head moves by at most 45 along each
    axis, whatever the heading. *)
Lemma kinematics_displacement (s : Snake) (dt : R) (w : World) :
  0 <= dt <= 0.05 ->
  let m := fst (kinematics s dt w) in
  Rabs (Vector.x (Snake.pos m) - Vector.x (Snake.pos s)) <= 45 /\
  Rabs (Vector.y (Snake.pos m) - Vector.y (Snake.pos s)) <= 45.
Proof.
  intros Hdt m.
  destruct (kinematics_spec s dt w) as (_ & _ & _ & _ & _ & _ & _ & _ & sp & Hp & Hs).
  fold m in Hp, Hs. rewrite Hp. simpl.
  assert (Hsp : 0 <= sp <= 900).
  { pose proof (cruise_speed_range s).
    destruct (boosting s w && bool_decide (Snake.score s > 50));
      destruct Hs as [_ ->]; unfold CONFIG.boostSpeed; lra. }
  pose proof (COS_bound (Snake.angle m)) as [C1 C2].
  pose proof (SIN_bound (Snake.angle m)) as [S1 S2].
  assert (Hd : 0 <= sp * dt <= 45) by nra.
  split; apply Rabs_le; split; nra.
Qed.

(** Beyond the boundary [update] is [die] applied to the translated snake. *)
Lemma Snake_update_beyond (s : Snake) (dt : R) (w : World) :
  Snake.dead s = false ->
  Vector.mag (Snake.pos (fst (kinematics s dt w))) > CONFIG.mapSize ->
  Snake_update s dt w = die (fst (kinematics s dt w)) (snd (kinematics s dt w)).
Proof.
  intros Hlive Hout. unfold Snake_update. rewrite Hlive. unfold_M.
  destruct (kinematics s dt w) as [m w1]. cbn [fst snd] in *.
  destruct (decide (Vector.mag (Snake.pos m) > CONFIG.mapSize)); [done | lra].
Qed.

(** C1.  Boundary death.  For a live snake and any [dt]: when the head, once
    translated, is farther from the origin than [CONFIG.mapSize], [update]
    returns the translated snake with [dead] set and nothing else changed
    (the position is the translated one; path, width and target width are
    those before the tick), after the burst of 50 particles and the food
    drop. *)
Theorem boundary_death (s moved : Snake) (dt : R) (w w1 : World) :
  Snake.dead s = false ->
  kinematics s dt w = (moved, w1) ->
  Vector.mag (Snake.pos moved) > CONFIG.mapSize ->
  let s' := fst (Snake_update s dt w) in
  let w' := snd (Snake_update s dt w) in
  s' = Snake.set_dead moved true /\
  Snake.dead s' = true /\
  Snake.pos s' = Snake.pos moved /\
  Snake.path s' = Snake.path s /\
  Snake.width s' = Snake.width s /\
  Snake.targetWidth s' = Snake.targetWidth s /\
  w' = snd ((spawnParticles (Snake.pos moved) 50 (Snake.color moved);;
             dropFood (Snake.set_dead moved true)) w1) /\
  length (particles w') = (length (particles w1) + 50)%nat.
Proof.
  intros Hlive Hk Hout s' w'.
  pose proof (kinematics_spec s dt w) as K. rewrite Hk in K. simpl in K.
  destruct K as (_ & Kw & Ktw & Kp & _).
  pose proof (die_spec moved w1) as (D1 & _ & D3).
  assert (E : Snake_update s dt w = die moved w1).
  { rewrite Snake_update_beyond; rewrite ?Hk; auto. }
  subst s' w'. rewrite E, D1.
  split; [reflexivity |]. split; [reflexivity |]. split; [reflexivity |].
  split; [exact Kp |]. split; [exact Kw |]. split; [exact Ktw |].
  split; [| exact D3].
  unfold die. unfold_M.
  destruct (spawnParticles _ _ _ w1) as [[] w2].
  destruct (dropFood _ w2) as [[] w3]. reflexivity.
Qed.

(** A snake that is 100 beyond the boundary on the x axis stays beyond it
    after the translation of a tick. *)
Lemma beyond_boundary_after_tick (w : World) :
  Vector.mag (Snake.pos (fst (kinematics
     (sample_snake false (Vector.mk 100100 0) 100) 0.05 w))) > CONFIG.mapSize.
Proof.
  pose proof (kinematics_displacement
                (sample_snake false (Vector.mk 100100 0) 100) 0.05 w
                ltac:(lra)) as [Hx _].
  cbv zeta in Hx. apply Rabs_le_bounds in Hx.
  change (Vector.x (Snake.pos (sample_snake false (Vector.mk 100100 0) 100)))
    with 100100 in Hx.
  apply mag_gt_iff; unfold CONFIG.mapSize; [lra |].
  set (m := fst (kinematics _ _ _)) in *.
  assert (100055 <= Vector.x (Snake.pos m)) by lra.
  assert (0 <= Vector.y (Snake.pos m) * Vector.y (Snake.pos m)) by nra.
  nra.
Qed.

Lemma boundary_death_witness :
  let s := sample_snake false (Vector.mk 100100 0) 100 in
  let w := sample_world [s] 0.5 in
  Snake.dead (fst (Snake_update s 0.05 w)) = true /\
  Snake.path (fst (Snake_update s 0.05 w)) = Snake.path s.
Proof.
  intros s w.
  pose proof (boundary_death s (fst (kinematics s 0.05 w)) 0.05 w
                (snd (kinematics s 0.05 w)) eq_refl
                (surjective_pairing _) (beyond_boundary_after_tick w)) as H.
  cbv zeta in H. destruct H as (_ & Hd & _ & Hp & _). split; assumption.
Defined.

(** ** The score across an update *)

Lemma push_head_frame (s : Snake) :
  Snake.score (push_head s) = Snake.score s /\
  Snake.width (push_head s) = Snake.width s /\
  Snake.pos (push_head s) = Snake.pos s /\
  Snake.dead (push_head s) = Snake.dead s.
Proof. repeat split. Qed.

Lemma manage_path_frame (s : Snake) :
  Snake.score (manage_path s) = Snake.score s /\
  Snake.width (manage_path s) = Snake.width s /\
  Snake.pos (manage_path s) = Snake.pos s /\
  Snake.dead (manage_path s) = Snake.dead s.
Proof.
  unfold manage_path.
  destruct (head (Snake.path s)); repeat case_decide; repeat split.
Qed.

Lemma smooth_growth_frame (s : Snake) (dt : R) :
  Snake.score (smooth_growth s dt) = Snake.score s /\
  Snake.path (smooth_growth s dt) = Snake.path s /\
  Snake.pos (smooth_growth s dt) = Snake.pos s /\
  Snake.dead (smooth_growth s dt) = Snake.dead s.
Proof. repeat split. Qed.

(** The score after [Snake.update]: the boost cost is the only change. *)
Lemma Snake_update_score (s : Snake) (dt : R) (w : World) :
  Snake.score (fst (Snake_update s dt w)) =
  if negb (Snake.dead s) && (boosting s w && bool_decide (Snake.score s > 50))
  then Snake.score s - dt * 25 else Snake.score s.
Proof.
  unfold Snake_update. destruct (Snake.dead s); [reflexivity |].
  unfold_M. simpl negb. rewrite andb_true_l.
  pose proof (kinematics_spec s dt w) as K.
  destruct (kinematics s dt w) as [m w1]. cbv zeta in K. simpl fst in K.
  destruct K as (_ & _ & _ & _ & _ & _ & _ & _ & sp & _ & Hs).
  assert (Hm : Snake.score m =
               if boosting s w && bool_decide (Snake.score s > 50)
               then Snake.score s - dt * 25 else Snake.score s).
  { destruct (boosting s w && bool_decide (Snake.score s > 50)); tauto. }
  rewrite <- Hm. case_decide.
  - destruct (die_spec m w1) as (D & _). rewrite D. reflexivity.
  - cbn [fst]. destruct (smooth_growth_frame (manage_path m) dt) as (-> & _).
    apply manage_path_frame.
Qed.

(** At or below the floor of 50 a boost request changes nothing: the speed
    is the one of a snake that does not boost and no global is touched. *)
Lemma boost_refused (s : Snake) (dt : R) (w : World) :
  Snake.score s <= 50 -> speed_and_boost s dt w = ((s, cruise_speed s), w).
Proof.
  intros H. apply speed_and_boost_idle.
  rewrite bool_decide_eq_false_2 by lra. apply andb_false_r.
Qed.

Lemma wander_score (s : Snake) (dt : R) (w : World) :
  Snake.score (fst (wander s dt w)) = Snake.score s /\
  Snake.dead (fst (wander s dt w)) = Snake.dead s /\
  Snake.path (fst (wander s dt w)) = Snake.path s /\
  Snake.pos (fst (wander s dt w)) = Snake.pos s /\
  effects_only w (snd (wander s dt w)).
Proof.
  unfold wander. unfold_M.
  repeat (case_decide; cbn [fst snd]);
    repeat match goal with
           | |- context [bool_decide ?P] => destruct (bool_decide P)
           | |- context [if Snake.wantBoost ?x then _ else _] =>
               destruct (Snake.wantBoost x) eqn:?
           end; cbn [fst snd];
    repeat split;
    repeat first [ apply effects_only_refl
                 | eapply effects_only_trans;
                   [apply effects_only_random_pos |] ];
    try (eexists; symmetry; apply app_nil_r).
Qed.

Lemma Bot_scan_score (this : nat) (s : Snake) (dt : R) (w : World) :
  Snake.score (fst (Bot_scan this s dt w)) = Snake.score s /\
  Snake.dead (fst (Bot_scan this s dt w)) = Snake.dead s /\
  Snake.path (fst (Bot_scan this s dt w)) = Snake.path s /\
  Snake.pos (fst (Bot_scan this s dt w)) = Snake.pos s /\
  effects_only w (snd (Bot_scan this s dt w)).
Proof.
  unfold Bot_scan. unfold_M.
  destruct (bounds_danger s);
    [repeat split; apply effects_only_refl |].
  destruct (snake_danger this s w);
    [repeat split; apply effects_only_refl |].
  apply wander_score.
Qed.

Lemma Bot_update_score (this : nat) (s : Snake) (dt : R) (w : World) :
  Snake.score (fst (Bot_update this s dt w)) = Snake.score s \/
  (50 < Snake.score s /\
   Snake.score (fst (Bot_update this s dt w)) = Snake.score s - dt * 25).
Proof.
  unfold Bot_update. destruct (Snake.dead s) eqn:Hd; [by left |].
  unfold_M.
  assert (H : forall s1 w1, Snake.score s1 = Snake.score s ->
            Snake.score (fst (Snake_update s1 dt w1)) = Snake.score s \/
            (50 < Snake.score s /\
             Snake.score (fst (Snake_update s1 dt w1)) = Snake.score s - dt * 25)).
  { intros s1 w1 E. rewrite Snake_update_score, E.
    destruct (negb (Snake.dead s1)); cbn [andb]; [| by left].
    destruct (boosting s1 w1); cbn [andb]; [| by left].
    case_bool_decide; [right; split; [lra | done] | by left]. }
  destruct (shouldScan s w).
  - pose proof (Bot_scan_score this s dt w) as (E & _).
    destruct (Bot_scan this s dt w) as [s1 w1]. by apply H.
  - by apply H.
Qed.

(** C3.  Score non-negativity.  From a score of at least 0 and a tick of at
    most 0.05 s, the score after [update] (of a snake or of a bot) is at
    least 0.  The only change of the score in an update is the boost cost
    [25 * dt], taken only from a live, boosting snake whose score is above
    50; at or below 50 the boost is refused and the snake keeps the speed it
    has without boost, which is [CONFIG.baseSpeed] (times 0.9 for a bot
    wider than 100).  The time step that [gameLoop] hands over is in the
    range assumed when time does not run backwards. *)
Theorem score_never_negative (s : Snake) (this : nat) (dt : R) (w : World) :
  0 <= Snake.score s -> 0 <= dt <= 0.05 ->
  0 <= Snake.score (fst (Snake_update s dt w)) /\
  0 <= Snake.score (fst (Bot_update this s dt w)) /\
  Snake.score (fst (Snake_update s dt w)) =
    (if negb (Snake.dead s) && (boosting s w && bool_decide (Snake.score s > 50))
     then Snake.score s - dt * 25 else Snake.score s) /\
  (Snake.score s <= 50 ->
   speed_and_boost s dt w = ((s, cruise_speed s), w) /\
   Snake.score (fst (Snake_update s dt w)) = Snake.score s /\
   Snake.score (fst (Bot_update this s dt w)) = Snake.score s) /\
  (Snake.isBot s && bool_decide (Snake.width s > 100) = false ->
   cruise_speed s = CONFIG.baseSpeed) /\
  (forall timestamp lastTime, lastTime <= timestamp ->
     0 <= gameLoop_dt timestamp lastTime <= 0.05).
Proof.
  intros Hs Hdt. pose proof (Snake_update_score s dt w) as E.
  pose proof (Bot_update_score this s dt w) as B.
  repeat split;
    try (unfold gameLoop_dt;
         first [ apply Rmin_r
               | apply Rmin_glb; [apply le_div_iff; lra | lra] ]).
  - rewrite E.
    destruct (negb (Snake.dead s)); cbn [andb]; [| lra].
    destruct (boosting s w); cbn [andb]; [| lra].
    case_bool_decide; lra.
  - destruct B as [-> | [H ->]]; lra.
  - exact E.
  - by apply boost_refused.
  - rewrite E. rewrite (bool_decide_eq_false_2 (Snake.score s > 50)) by lra.
    by rewrite andb_false_r, andb_false_r.
  - destruct B as [-> | [H' _]]; [done | lra].
  - intros H. unfold cruise_speed. by rewrite H.
Qed.

Lemma score_never_negative_witness :
  let s := sample_snake false (Vector.mk 0 0) 100 in
  0 <= Snake.score (fst (Snake_update s 0.05 (sample_world [s] 0.5))) /\
  0 <= Snake.score (fst (Bot_update 0 s 0.05 (sample_world [s] 0.5))).
Proof.
  intros s.
  pose proof (score_never_negative s 0%nat 0.05 (sample_world [s] 0.5)) as H.
  assert (H0 : 0 <= Snake.score s) by (unfold s, sample_snake; cbn; lra).
  assert (H1 : 0 <= 0.05 <= 0.05) by lra.
  destruct (H H0 H1) as (A & B & _). split; assumption.
Defined.

(** ** The bound on the path *)

Lemma INR_to_nat_ge (z : Z) : IZR z <= INR (Z.to_nat z).
Proof.
  rewrite INR_IZR_INZ. apply IZR_le. lia.
Qed.

(** The pre-fill stops by its own test after [n] points as soon as [n]
    spacings cover what is left of [startLen]. *)
Lemma prefill_length (fuel : nat) (pos dir : Vector) (startLen spacing : R) :
  forall (i : R) (n : nat),
    startLen - i <= INR n * spacing ->
    (length (prefill fuel pos dir startLen spacing i) <= n)%nat.
Proof.
  induction fuel as [| fuel IH]; intros i n Hn; simpl; [lia |].
  case_decide as Hi; simpl; [| lia].
  destruct n as [| n]; [simpl in Hn; lra |].
  apply le_n_S, IH. rewrite S_INR in Hn. lra.
Qed.

(** More fuel than [n] changes nothing: the loop has ended by then. *)
Lemma prefill_fuel_irrelevant (fuel : nat) (pos dir : Vector)
  (startLen spacing : R) :
  forall (i : R) (extra : nat),
    startLen - i <= INR fuel * spacing ->
    prefill (fuel + extra) pos dir startLen spacing i
    = prefill fuel pos dir startLen spacing i.
Proof.
  induction fuel as [| fuel IH]; intros i extra Hn.
  - simpl in Hn. destruct extra; simpl; [done |].
    case_decide; [lra | done].
  - simpl. case_decide; [| done]. f_equal. apply IH.
    rewrite S_INR in Hn. lra.
Qed.

Lemma prefill_fuel_covers (startLen spacing : R) :
  0 < spacing -> startLen - 0 <= INR (prefill_fuel startLen spacing) * spacing.
Proof.
  intros Hs. unfold prefill_fuel.
  pose proof (INR_to_nat_ge (Zceil (startLen / spacing))) as H1.
  pose proof (Zceil_bound (startLen / spacing)) as [_ H2].
  assert (H3 : startLen / spacing <= INR (Z.to_nat (Zceil (startLen / spacing))))
    by lra.
  apply div_le_iff in H3; lra.
Qed.

(** The fuel of the constructor is enough for every score. *)
Lemma prefill_fuel_enough (pos dir : Vector) (score : R) (extra : nat) :
  let startLen := length_law score in
  let spacing := width_law score / 2 in
  prefill (prefill_fuel startLen spacing + extra) pos dir startLen spacing 0
  = prefill (prefill_fuel startLen spacing) pos dir startLen spacing 0.
Proof.
  intros startLen spacing. apply prefill_fuel_irrelevant.
  apply prefill_fuel_covers. subst spacing.
  pose proof (width_law_bounds score). lra.
Qed.

(** The fields of a new snake, in terms of the random numbers drawn. *)
Lemma new_Snake_fields (isBot : bool) (startScore : R) (w : World) :
  let r k := random_stream w (random_pos w + k)%nat in
  let s := fst (new_Snake isBot startScore w) in
  Snake.pos s = Vector.mk ((r 1%nat - 0.5) * CONFIG.mapSize * 1.5)
                          ((r 2%nat - 0.5) * CONFIG.mapSize * 1.5) /\
  Snake.angle s = r 3%nat * PI * 2 /\
  Snake.targetAngle s = Snake.angle s /\
  Snake.score s = startScore /\
  Snake.width s = width_law startScore /\
  Snake.dead s = false /\
  Snake.isBot s = isBot /\
  Snake.path s =
    prefill (prefill_fuel (length_law startScore) (width_law startScore / 2))
      (Snake.pos s)
      (Vector.mult (Vector.mk (cos (Snake.angle s)) (sin (Snake.angle s))) (-1))
      (length_law startScore) (width_law startScore / 2) 0.
Proof.
  unfold new_Snake. unfold_M. cbn [fst snd random_stream random_pos set_random_pos
    Snake.pos Snake.angle Snake.targetAngle Snake.score Snake.width Snake.dead
    Snake.isBot Snake.path].
  replace (random_pos w + 1)%nat with (S (random_pos w)) by lia.
  replace (random_pos w + 2)%nat with (S (S (random_pos w))) by lia.
  replace (random_pos w + 3)%nat with (S (S (S (random_pos w)))) by lia.
  repeat split.
Qed.

Lemma new_Snake_path_length (isBot : bool) (startScore : R) (w : World) :
  (length (Snake.path (fst (new_Snake isBot startScore w))) <= 400)%nat.
Proof.
  destruct (new_Snake_fields isBot startScore w)
    as (_ & _ & _ & _ & _ & _ & _ & ->).
  apply prefill_length.
  pose proof (width_law_bounds startScore) as [Hw _].
  assert (length_law startScore <= 8000) by apply Rmin_l.
  replace (INR 400) with 400 by (simpl; lra). lra.
Qed.

Lemma copy_id (v : Vector) : Vector.copy v = v.
Proof. by destruct v. Qed.

(** Pushing the head keeps the newest point and cuts the list at the cap. *)
Lemma push_head_spec (s : Snake) :
  Snake.path (push_head s)
  = take CONFIG.maxPathPoints (Snake.pos s :: Snake.path s) /\
  head (Snake.path (push_head s)) = Some (Snake.pos s) /\
  (length (Snake.path (push_head s)) <= CONFIG.maxPathPoints)%nat.
Proof.
  assert (E : Snake.path (push_head s)
              = take CONFIG.maxPathPoints (Snake.pos s :: Snake.path s)).
  { unfold push_head. rewrite copy_id. cbn [Snake.path Snake.set_path].
    case_decide as H; [done |]. symmetry. apply take_ge. lia. }
  rewrite E. split; [done |]. split; [done |].
  rewrite length_take. lia.
Qed.

Lemma removelast_prefix {A : Type} (l : list A) : removelast l `prefix_of` l.
Proof.
  destruct (decide (l = [])) as [-> | N]; [done |].
  destruct (exists_last N) as (l' & a & ->).
  rewrite removelast_last. by exists [a].
Qed.

Lemma length_removelast_le {A : Type} (l : list A) :
  (length (removelast l) <= length l)%nat.
Proof. apply prefix_length, removelast_prefix. Qed.

(** Path and length management: the path is cut from its old end only, and
    stays within the cap. *)
Lemma manage_path_spec (s : Snake) :
  (Snake.path (manage_path s) `prefix_of` Snake.path s \/
   Snake.path (manage_path s) `prefix_of` (Snake.pos s :: Snake.path s)) /\
  ((length (Snake.path s) <= CONFIG.maxPathPoints)%nat ->
   (length (Snake.path (manage_path s)) <= CONFIG.maxPathPoints)%nat).
Proof.
  pose proof (push_head_spec s) as (P1 & _ & P3).
  assert (Pp : Snake.path (push_head s) `prefix_of` (Snake.pos s :: Snake.path s))
    by (rewrite P1; apply prefix_take).
  unfold manage_path.
  set (s1 := match head (Snake.path s) with
             | Some lastPoint =>
                 if decide (Vector.dist (Snake.pos s) lastPoint > getPathSpacing s)
                 then push_head s else s
             | None => push_head s
             end).
  assert (H1 : Snake.path s1 = Snake.path s \/
               Snake.path s1 = Snake.path (push_head s)).
  { subst s1. destruct (head (Snake.path s)); [case_decide |]; auto. }
  assert (H2 : (Snake.path s1 `prefix_of` Snake.path s \/
                Snake.path s1 `prefix_of` (Snake.pos s :: Snake.path s)) /\
               ((length (Snake.path s) <= CONFIG.maxPathPoints)%nat ->
                (length (Snake.path s1) <= CONFIG.maxPathPoints)%nat)).
  { destruct H1 as [-> | ->]; split; auto. }
  clearbody s1. destruct H2 as [H2 H3].
  case_decide; cbn [Snake.path Snake.set_path]; [| by split].
  split.
  - destruct H2 as [H2 | H2]; [left | right];
      (etrans; [apply removelast_prefix | exact H2]).
  - intros Hlen. etrans; [apply length_removelast_le | by apply H3].
Qed.

(** When the head is pushed in front of a path that is not empty, the new
    point is still the first one after the length management. *)
Lemma manage_path_keeps_newest (s : Snake) (p0 : Vector) (rest : list Vector) :
  Snake.path s = p0 :: rest ->
  Vector.dist (Snake.pos s) p0 > getPathSpacing s ->
  head (Snake.path (manage_path s)) = Some (Snake.pos s).
Proof.
  intros Hp Hd. unfold manage_path. rewrite Hp. cbn [head].
  destruct (decide (Vector.dist (Snake.pos s) p0 > getPathSpacing s)); [| done].
  destruct (push_head_spec s) as (E & _). rewrite Hp in E.
  change CONFIG.maxPathPoints with (S (S 398)) in E. cbn [take] in E.
  case_decide; cbn [Snake.path Snake.set_path]; rewrite E; reflexivity.
Qed.

Lemma Snake_update_path (s : Snake) (dt : R) (w : World) :
  let s' := fst (Snake_update s dt w) in
  (Snake.path s' `prefix_of` Snake.path s \/
   Snake.path s' `prefix_of` (Snake.pos s' :: Snake.path s)) /\
  ((length (Snake.path s) <= CONFIG.maxPathPoints)%nat ->
   (length (Snake.path s') <= CONFIG.maxPathPoints)%nat).
Proof.
  unfold Snake_update. destruct (Snake.dead s); [by split; [left |] |].
  unfold_M.
  pose proof (kinematics_spec s dt w) as K.
  destruct (kinematics s dt w) as [m w1]. cbv zeta in K. simpl fst in K.
  destruct K as (_ & _ & _ & Kp & _).
  case_decide.
  - destruct (die_spec m w1) as (D & _). cbv zeta. rewrite D.
    cbn [Snake.path Snake.set_dead]. rewrite Kp. by split; [left |].
  - cbv zeta. cbn [fst].
    destruct (smooth_growth_frame (manage_path m) dt) as (_ & -> & -> & _).
    destruct (manage_path_frame m) as (_ & _ & -> & _).
    rewrite <- Kp. apply manage_path_spec.
Qed.

Lemma Bot_update_path (this : nat) (s : Snake) (dt : R) (w : World) :
  (length (Snake.path s) <= CONFIG.maxPathPoints)%nat ->
  (length (Snake.path (fst (Bot_update this s dt w))) <= CONFIG.maxPathPoints)%nat.
Proof.
  intros H. unfold Bot_update. destruct (Snake.dead s); [done |].
  unfold_M. destruct (shouldScan s w).
  - pose proof (Bot_scan_score this s dt w) as (_ & _ & E & _).
    destruct (Bot_scan this s dt w) as [s1 w1]. cbn [fst] in E.
    apply Snake_update_path. by rewrite E.
  - by apply Snake_update_path.
Qed.

Lemma food_loop_path (s : Snake) (fs : list Food) :
  Snake.path (fst (food_loop s fs)) = Snake.path s.
Proof.
  induction fs as [| f fs IH]; simpl; [done |].
  destruct (food_loop s fs) as [s1 r]. cbn [fst] in IH.
  by destruct (food_hit s1 f).
Qed.

Lemma powerup_loop_path (s : Snake) (ps : list PowerUp) :
  Snake.path (fst (powerup_loop s ps)) = Snake.path s.
Proof.
  induction ps as [| p ps IH]; simpl; [done |].
  destruct (powerup_loop s ps) as [s1 r]. cbn [fst] in IH.
  by destruct (powerup_hit s1 p).
Qed.

(** C4.  Path bound.  Every state that a snake object can reach has at most
    [CONFIG.maxPathPoints] = 400 path points.  The constructor's pre-fill
    makes at most 400 points (for a starting score of at least 100, and in
    fact for every score); an update that pushes the head cuts the list
    [newest :: older points] at 400, so that the newest point stays first;
    whatever an update removes, it removes from the old end; and the point
    pushed in front of a non-empty path is still first when the update
    ends. *)
Theorem path_bound :
  (forall s, reachable s ->
     (length (Snake.path s) <= CONFIG.maxPathPoints)%nat) /\
  (forall isBot startScore w, 100 <= startScore ->
     (length (Snake.path (fst (new_Snake isBot startScore w))) <= 400)%nat) /\
  (forall s,
     Snake.path (push_head s)
       = take CONFIG.maxPathPoints (Snake.pos s :: Snake.path s) /\
     head (Snake.path (push_head s)) = Some (Snake.pos s) /\
     (length (Snake.path (push_head s)) <= CONFIG.maxPathPoints)%nat) /\
  (forall s dt w,
     let s' := fst (Snake_update s dt w) in
     Snake.path s' `prefix_of` Snake.path s \/
     Snake.path s' `prefix_of` (Snake.pos s' :: Snake.path s)) /\
  (forall s p0 rest,
     Snake.path s = p0 :: rest ->
     Vector.dist (Snake.pos s) p0 > getPathSpacing s ->
     head (Snake.path (manage_path s)) = Some (Snake.pos s)).
Proof.
  split; [| split; [| split; [| split]]]; [| | | | apply manage_path_keeps_newest].
  - intros s Hr. induction Hr.
    + apply new_Snake_path_length.
    + by apply Snake_update_path.
    + by apply Bot_update_path.
    + exact IHHr.
    + by rewrite food_loop_path.
    + by rewrite powerup_loop_path.
    + exact IHHr.
  - intros isBot startScore w _. apply new_Snake_path_length.
  - apply push_head_spec.
  - intros s dt w. apply Snake_update_path.
Qed.

Lemma path_bound_witness :
  let w := sample_world [] 0.5 in
  let s := fst (new_Snake false 100 w) in
  (length (Snake.path s) <= 400)%nat /\
  (length (Snake.path (fst (Snake_update s 0.05 w))) <= 400)%nat.
Proof.
  intros w s. split.
  - apply (proj1 (proj2 path_bound) false 100 w). lra.
  - apply (proj1 path_bound). apply reach_update. apply reach_new.
Defined.

(** ** Spawning outside the map *)

(** A live snake deep in the corner of the spawn square is dead after one
    update, whatever the tick, the heading and the globals. *)
Lemma far_corner_dies (s : Snake) (dt : R) (w : World) :
  Snake.dead s = false ->
  Vector.x (Snake.pos s) <= -74000 -> Vector.y (Snake.pos s) <= -74000 ->
  0 <= dt <= 0.05 ->
  Snake.dead (fst (Snake_update s dt w)) = true.
Proof.
  intros Hlive Hx Hy Hdt.
  rewrite Snake_update_beyond; [by destruct (die_spec (fst (kinematics s dt w))
                                   (snd (kinematics s dt w))) as (-> & _) | done |].
  destruct (kinematics_displacement s dt w Hdt) as [Dx Dy].
  apply Rabs_le_bounds in Dx, Dy.
  set (m := fst (kinematics s dt w)) in *.
  apply mag_gt_iff; unfold CONFIG.mapSize; [lra |].
  assert (Hx' : Vector.x (Snake.pos m) <= -73955) by lra.
  assert (Hy' : Vector.y (Snake.pos m) <= -73955) by lra.
  assert (73955 * 73955 <= Vector.x (Snake.pos m) * Vector.x (Snake.pos m)) by nra.
  assert (73955 * 73955 <= Vector.y (Snake.pos m) * Vector.y (Snake.pos m)) by nra.
  lra.
Qed.

Lemma far_corner_bot_dies (this : nat) (s : Snake) (dt : R) (w : World) :
  Snake.dead s = false ->
  Vector.x (Snake.pos s) <= -74000 -> Vector.y (Snake.pos s) <= -74000 ->
  0 <= dt <= 0.05 ->
  Snake.dead (fst (Bot_update this s dt w)) = true.
Proof.
  intros Hlive Hx Hy Hdt. unfold Bot_update. rewrite Hlive. unfold_M.
  destruct (shouldScan s w); [| by apply far_corner_dies].
  pose proof (Bot_scan_score this s dt w) as (_ & Hd & _ & Hp & _).
  destruct (Bot_scan this s dt w) as [s1 w1]. cbn [fst] in *.
  apply far_corner_dies; rewrite ?Hd, ?Hp; auto.
Qed.

(** C10.  The constructor takes the spawn position from the square of
    half-side [0.75 * CONFIG.mapSize] (every point of it can be drawn), whose
    corners are farther than [CONFIG.mapSize] from the origin; and for some
    draw the new snake is outside the map and is dead after its first
    update, whatever the tick and the inputs. *)
Theorem spawn_outside_map :
  (forall isBot startScore w, random_in_range w ->
     let p := Snake.pos (fst (new_Snake isBot startScore w)) in
     - (0.75 * CONFIG.mapSize) <= Vector.x p < 0.75 * CONFIG.mapSize /\
     - (0.75 * CONFIG.mapSize) <= Vector.y p < 0.75 * CONFIG.mapSize) /\
  (forall isBot startScore a b,
     - (0.75 * CONFIG.mapSize) <= a < 0.75 * CONFIG.mapSize ->
     - (0.75 * CONFIG.mapSize) <= b < 0.75 * CONFIG.mapSize ->
     exists w, random_in_range w /\
               Snake.pos (fst (new_Snake isBot startScore w)) = Vector.mk a b) /\
  (forall a b, Rabs a = 0.75 * CONFIG.mapSize -> Rabs b = 0.75 * CONFIG.mapSize ->
     Vector.mag (Vector.mk a b) > CONFIG.mapSize) /\
  (forall isBot startScore, exists w,
     random_in_range w /\
     let s := fst (new_Snake isBot startScore w) in
     Snake.dead s = false /\
     Vector.mag (Snake.pos s) > CONFIG.mapSize /\
     forall dt w' this, 0 <= dt <= 0.05 ->
       Snake.dead (fst (Snake_update s dt w')) = true /\
       Snake.dead (fst (Bot_update this s dt w')) = true).
Proof.
  split; [| split; [| split]].
  - intros isBot startScore w Hr p. subst p.
    destruct (new_Snake_fields isBot startScore w) as (-> & _).
    unfold CONFIG.mapSize; cbn [Vector.x Vector.y].
    pose proof (Hr (random_pos w + 1)%nat). pose proof (Hr (random_pos w + 2)%nat).
    lra.
  - intros isBot startScore a b Ha Hb. unfold CONFIG.mapSize in *.
    exists (mkWorld [] [] [] [] (SpatialHash.new 1000) false 0
              (fun n => if (n =? 1)%nat then a / 150000 + 0.5
                        else if (n =? 2)%nat then b / 150000 + 0.5 else 0)
              0).
    split.
    + intros n. cbn [random_stream].
      destruct (n =? 1)%nat; [lra |]. destruct (n =? 2)%nat; lra.
    + destruct (new_Snake_fields isBot startScore
                  (mkWorld [] [] [] [] (SpatialHash.new 1000) false 0
                     (fun n => if (n =? 1)%nat then a / 150000 + 0.5
                               else if (n =? 2)%nat then b / 150000 + 0.5 else 0)
                     0)) as (-> & _).
      cbn [random_stream random_pos Nat.add Nat.eqb]. unfold CONFIG.mapSize.
      f_equal; lra.
  - intros a b Ha Hb. apply mag_gt_iff; unfold CONFIG.mapSize in *; [lra |].
    cbn [Vector.x Vector.y].
    assert (a * a = 75000 * 75000).
    { unfold Rabs in Ha. destruct (Rcase_abs a); nra. }
    assert (b * b = 75000 * 75000).
    { unfold Rabs in Hb. destruct (Rcase_abs b); nra. }
    lra.
  - intros isBot startScore. exists (sample_world [] 0).
    split; [intros n; cbn [random_stream sample_world]; lra |].
    destruct (new_Snake_fields isBot startScore (sample_world [] 0))
      as (Hp & _ & _ & _ & _ & Hd & _).
    cbn [random_stream random_pos sample_world] in Hp.
    cbv zeta. set (s := fst (new_Snake isBot startScore (sample_world [] 0))) in *.
    assert (Hx : Vector.x (Snake.pos s) = -75000)
      by (rewrite Hp; unfold CONFIG.mapSize; cbn [Vector.x]; lra).
    assert (Hy : Vector.y (Snake.pos s) = -75000)
      by (rewrite Hp; unfold CONFIG.mapSize; cbn [Vector.y]; lra).
    split; [exact Hd |]. split.
    + apply mag_gt_iff; unfold CONFIG.mapSize; [lra |]. rewrite Hx, Hy. lra.
    + intros dt w' this Hdt. split.
      * apply far_corner_dies; auto; lra.
      * apply far_corner_bot_dies; auto; lra.
Qed.

Lemma spawn_outside_map_witness :
  Vector.mag (Vector.mk 75000 (-75000)) > CONFIG.mapSize.
Proof.
  apply (proj1 (proj2 (proj2 spawn_outside_map)) 75000 (-75000)).
  - rewrite Rabs_right; unfold CONFIG.mapSize; lra.
  - rewrite Rabs_left; unfold CONFIG.mapSize; lra.
Defined.

(** ** The width stays between 40 and 500 *)

Lemma smooth_growth_width (s : Snake) (dt : R) :
  0 <= dt <= 0.05 -> 40 <= Snake.width s <= 500 ->
  40 <= Snake.width (smooth_growth s dt) <= 500.
Proof.
  intros Hdt Hw. unfold smooth_growth, calculateWidth. snake_fields.
  pose proof (width_law_bounds (Snake.score s)) as Ht.
  set (t := width_law (Snake.score s)) in *. set (x := Snake.width s) in *.
  replace (x + (t - x) * dt * 2) with ((1 - 2 * dt) * x + 2 * dt * t) by ring.
  assert (0 <= 1 - 2 * dt) by lra. assert (0 <= 2 * dt) by lra.
  split; nra.
Qed.

(** The constructor gives a width in the range and [update], on a tick of
    at most 0.05 s, keeps it there: in particular the width of a snake is
    never negative. *)
Lemma width_in_range :
  (forall isBot startScore w,
     40 <= Snake.width (fst (new_Snake isBot startScore w)) <= 500) /\
  (forall s dt w,
     0 <= dt <= 0.05 -> 40 <= Snake.width s <= 500 ->
     40 <= Snake.width (fst (Snake_update s dt w)) <= 500).
Proof.
  split.
  - intros isBot startScore w.
    destruct (new_Snake_fields isBot startScore w) as (_ & _ & _ & _ & -> & _).
    apply width_law_bounds.
  - intros s dt w Hdt Hw. unfold Snake_update.
    destruct (Snake.dead s); [done |]. unfold_M.
    pose proof (kinematics_spec s dt w) as K.
    destruct (kinematics s dt w) as [m w1]. cbv zeta in K. simpl fst in K.
    destruct K as (_ & Kw & _). case_decide.
    + destruct (die_spec m w1) as (D & _). rewrite D.
      cbn [Snake.width Snake.set_dead]. by rewrite Kw.
    + cbn [fst]. apply smooth_growth_width; [done |].
      destruct (manage_path_frame m) as (_ & -> & _). by rewrite Kw.
Qed.

(** ** Food pickup *)

(** The tests of the food loop read the head and the width, not the score. *)
Lemma food_hit_set_score (s : Snake) (v : R) (f : Food) :
  food_hit (Snake.set_score s v) f = food_hit s f.
Proof. reflexivity. Qed.

(** The circular test implies the two bounding-box tests. *)
Lemma circle_test_hits (s : Snake) (f : Food) :
  0 <= Snake.width s ->
  Vector.dist (Snake.pos s) (Food.pos f) < Snake.width s / 2 + Food.radius f ->
  food_hit s f = true.
Proof.
  intros Hw Hd. unfold food_hit.
  pose proof (abs_dx_le_dist (Snake.pos s) (Food.pos f)).
  pose proof (abs_dy_le_dist (Snake.pos s) (Food.pos f)).
  case_decide; [lra |]. case_decide; [lra |].
  by apply bool_decide_eq_true_2.
Qed.

(** The food loop: the items that pass the tests are removed, the others
    stay in order, and the score grows by the gain of each removed item. *)
Lemma food_loop_spec (s : Snake) (fs : list Food) :
  food_loop s fs =
  (Snake.set_score s (Snake.score s + gained s fs),
   filter (fun g => food_hit s g = false) fs).
Proof.
  induction fs as [| f fs IH]; simpl.
  - replace (Snake.score s + 0) with (Snake.score s) by lra. by destruct s.
  - rewrite IH. rewrite food_hit_set_score.
    destruct (food_hit s f) eqn:Hf.
    + rewrite filter_cons_False by (rewrite Hf; done).
      unfold grow, Snake.set_score.
      cbn [Snake.isBot Snake.id Snake.pos Snake.angle Snake.targetAngle
           Snake.score Snake.width Snake.targetWidth Snake.path Snake.color
           Snake.dead Snake.multiplier Snake.multiplierTimer
           Snake.changeDirTimer Snake.wantBoost Snake.boostCooldown].
      f_equal. f_equal. lra.
    + by rewrite filter_cons_True by done.
Qed.

Lemma gained_no_hit (s : Snake) (fs : list Food) :
  (forall g, g ∈ fs -> food_hit s g = false) -> gained s fs = 0.
Proof.
  induction fs as [| f fs IH]; intros H; simpl; [done |].
  rewrite (H f) by (apply elem_of_cons; auto).
  apply IH. intros g Hg. apply H, elem_of_cons. auto.
Qed.

Lemma gained_app (s : Snake) (l1 l2 : list Food) :
  gained s (l1 ++ l2) = gained s l1 + gained s l2.
Proof.
  induction l1 as [| f l1 IH]; simpl; [lra |].
  destruct (food_hit s f); rewrite IH; lra.
Qed.

Lemma filter_no_hit (s : Snake) (fs : list Food) :
  (forall g, g ∈ fs -> food_hit s g = false) ->
  filter (fun g => food_hit s g = false) fs = fs.
Proof.
  induction fs as [| f fs IH]; intros H; [done |].
  rewrite filter_cons_True by (apply H, elem_of_cons; auto).
  f_equal. apply IH. intros g Hg. apply H, elem_of_cons. auto.
Qed.

Lemma powerup_loop_score (s : Snake) (ps : list PowerUp) :
  Snake.score (fst (powerup_loop s ps)) = Snake.score s.
Proof.
  induction ps as [| p ps IH]; simpl; [done |].
  destruct (powerup_loop s ps) as [s1 r]. cbn [fst] in IH.
  by destruct (powerup_hit s1 p).
Qed.

(** C6.  Food pickup.  When the circular test passes for a snake [s] (of
    non-negative width) and a food item [f], the item is picked up: [grow]
    adds exactly [value * multiplier * 10] to the score (50 for value 1 and
    multiplier 5), and the loop over the food removes that item and, when no
    other item is in reach, no other.  In general the loop removes exactly
    the items that pass the tests and adds the gain of each, for the snake
    object in the store too. *)
Theorem food_pickup (s : Snake) (f : Food) :
  0 <= Snake.width s ->
  Vector.dist (Snake.pos s) (Food.pos f) < Snake.width s / 2 + Food.radius f ->
  food_hit s f = true /\
  food_loop s [f] = (grow s (Food.value f), []) /\
  Snake.score (grow s (Food.value f))
    = Snake.score s + Food.value f * Snake.multiplier s * 10 /\
  (Food.value f = 1 -> Snake.multiplier s = 5 ->
   Snake.score (grow s (Food.value f)) = Snake.score s + 50) /\
  (forall pre post,
     (forall g, g ∈ pre ++ post -> food_hit s g = false) ->
     food_loop s (pre ++ f :: post) = (grow s (Food.value f), pre ++ post)) /\
  (forall fs,
     food_loop s fs =
     (Snake.set_score s (Snake.score s + gained s fs),
      filter (fun g => food_hit s g = false) fs)) /\
  (forall w i,
     snakes w !! i = Some s -> Snake.dead s = false ->
     let w' := snd (pickups_at i w) in
     foods w' = filter (fun g => food_hit s g = false) (foods w) /\
     Snake.score <$> snakes w' !! i = Some (Snake.score s + gained s (foods w))).
Proof.
  intros Hw Hd. pose proof (circle_test_hits s f Hw Hd) as Hit.
  assert (Hone : forall pre post,
     (forall g, g ∈ pre ++ post -> food_hit s g = false) ->
     food_loop s (pre ++ f :: post) = (grow s (Food.value f), pre ++ post)).
  { intros pre post Hno. rewrite food_loop_spec.
    rewrite gained_app. simpl. rewrite Hit.
    rewrite !gained_no_hit
      by (intros g Hg; apply Hno, elem_of_app; auto).
    rewrite filter_app, filter_cons_False by (rewrite Hit; done).
    rewrite !filter_no_hit
      by (intros g Hg; apply Hno, elem_of_app; auto).
    unfold grow. f_equal. f_equal. lra. }
  split; [exact Hit |]. split.
  { apply (Hone [] []). intros g Hg. by apply elem_of_nil in Hg. }
  split; [reflexivity |]. split.
  { intros Hv Hm. unfold grow. cbn [Snake.score Snake.set_score].
    rewrite Hv, Hm. lra. }
  split; [exact Hone |]. split; [apply food_loop_spec |].
  intros w i Hi Hlive w'. subst w'. unfold pickups_at. unfold_M.
  rewrite Hi, Hlive. rewrite food_loop_spec.
  pose proof (powerup_loop_score
                (Snake.set_score s (Snake.score s + gained s (foods w)))
                (powerups w)) as Hp.
  destruct (powerup_loop _ (powerups w)) as [s2 ps]. cbn [fst snd] in *.
  split; [reflexivity |].
  cbn [snakes set_powerups set_foods set_snakes].
  rewrite list_lookup_insert_eq by (by eapply lookup_lt_Some).
  simpl. by rewrite Hp.
Qed.

Lemma food_pickup_witness :
  let s := Snake.set_multiplier (sample_snake false (Vector.mk 0 0) 100) 5 in
  let f := Food.mk (Vector.mk 10 0) 1 18 0 0 0 in
  food_loop s [f] = (grow s 1, []) /\
  Snake.score (grow s 1) = Snake.score s + 50.
Proof.
  intros s f.
  assert (Hw : Snake.width s = 65) by apply width_law_100.
  assert (H0 : 0 <= Snake.width s) by (rewrite Hw; lra).
  assert (Hd : Vector.dist (Snake.pos s) (Food.pos f)
               < Snake.width s / 2 + Food.radius f).
  { apply dist_lt_iff; rewrite Hw; cbn; lra. }
  destruct (food_pickup s f H0 Hd) as (_ & Hl & _ & H50 & _).
  split; [exact Hl | by apply H50].
Defined.

(** ** Snake against snake *)

Lemma head_hits_points_iff (s1 s2 : Snake) (pts : list Vector) :
  head_hits_points s1 s2 pts = true <->
  exists p, p ∈ pts /\ Vector.dist (Snake.pos s1) p < minDist s1 s2.
Proof.
  induction pts as [| q pts IH]; simpl.
  - split; [done | intros (p & Hp & _); by apply elem_of_nil in Hp].
  - case_decide as Hq.
    + split; [intros _ | done]. exists q. split; [apply elem_of_cons; auto | done].
    + rewrite IH. split.
      * intros (p & Hp & Hd). exists p. split; [apply elem_of_cons; auto | done].
      * intros (p & Hp & Hd). apply elem_of_cons in Hp as [-> | Hp]; [done |].
        by exists p.
Qed.

(** The death effects leave the store of snakes alone. *)
Lemma death_effects (p : Vector) (c : nat) (s : Snake) (w : World) :
  effects_only w (snd ((spawnParticles p 50 c;; dropFood s) w)).
Proof.
  unfold dropFood. unfold_M.
  pose proof (spawnParticles_effects p 50 c w) as (E & _).
  destruct (spawnParticles p 50 c w) as [[] w1]. cbn [snd] in *.
  match goal with |- context [dropFood_loop ?a ?b w1] =>
    pose proof (dropFood_loop_effects a b w1) as (E2 & _) end.
  eapply effects_only_trans; eauto.
Qed.

(** The branch taken on a hit: what it does to the store. *)
Lemma hit_branch_snakes (i : nat) (s1 : Snake) (w : World) :
  snakes (snd ((modify (fun w => set_snakes w (<[i := Snake.set_dead s1 true]> (snakes w)));;
                spawnParticles (Snake.pos (Snake.set_dead s1 true)) 50
                               (Snake.color (Snake.set_dead s1 true));;
                dropFood (Snake.set_dead s1 true)) w))
  = <[i := Snake.set_dead s1 true]> (snakes w).
Proof.
  pose proof (death_effects (Snake.pos (Snake.set_dead s1 true))
                (Snake.color (Snake.set_dead s1 true)) (Snake.set_dead s1 true)
                (set_snakes w (<[i := Snake.set_dead s1 true]> (snakes w))))
    as (E & _).
  exact E.
Qed.

(** One step of the loop over the neighbours. *)
Lemma scan_nearby_cons (i j : nat) (rest : list nat) (w : World) :
  scan_nearby i (j :: rest) w =
  match snakes w !! i, snakes w !! j with
  | Some s1, Some s2 =>
      if bool_decide (i = j) || Snake.dead s2 then scan_nearby i rest w
      else if head_hits_body s1 s2 then
        (modify (fun w => set_snakes w (<[i := Snake.set_dead s1 true]> (snakes w)));;
         spawnParticles (Snake.pos (Snake.set_dead s1 true)) 50
                        (Snake.color (Snake.set_dead s1 true));;
         dropFood (Snake.set_dead s1 true)) w
      else scan_nearby i rest w
  | _, _ => scan_nearby i rest w
  end.
Proof.
  cbn [scan_nearby]. unfold mbind at 1, M_bind at 1, get_world at 1.
  destruct (snakes w !! i) as [s1 |]; [| done].
  destruct (snakes w !! j) as [s2 |]; [| done].
  destruct (bool_decide (i = j) || Snake.dead s2); [done |].
  by destruct (head_hits_body s1 s2).
Qed.

(** Whatever the neighbours, a scan for the snake at [i] either leaves the
    store as it is or marks that snake, and only that one, dead. *)
Lemma scan_nearby_snakes (i : nat) (nearby : list nat) (w : World) :
  snakes (snd (scan_nearby i nearby w)) = snakes w \/
  exists s1, snakes w !! i = Some s1 /\
             snakes (snd (scan_nearby i nearby w))
             = <[i := Snake.set_dead s1 true]> (snakes w).
Proof.
  induction nearby as [| j rest IH]; [by left |].
  rewrite scan_nearby_cons.
  destruct (snakes w !! i) as [s1 |] eqn:Hi; [| exact IH].
  destruct (snakes w !! j) as [s2 |] eqn:Hj; [| exact IH].
  destruct (bool_decide (i = j) || Snake.dead s2); [exact IH |].
  destruct (head_hits_body s1 s2); [| exact IH].
  right. exists s1. split; [done |]. apply hit_branch_snakes.
Qed.

(** The first neighbour that is hit ends the scan. *)
Lemma scan_nearby_hit (i j : nat) (s1 s2 : Snake) (w : World)
  (pre rest : list nat) :
  snakes w !! i = Some s1 -> snakes w !! j = Some s2 -> i <> j ->
  Snake.dead s2 = false -> head_hits_body s1 s2 = true ->
  snakes (snd (scan_nearby i (pre ++ j :: rest) w))
    = <[i := Snake.set_dead s1 true]> (snakes w) /\
  scan_nearby i (pre ++ j :: rest) w = scan_nearby i (pre ++ [j]) w.
Proof.
  intros Hi Hj Hij Hlive Hhit.
  induction pre as [| k pre IH].
  - cbn [app]. rewrite !scan_nearby_cons.
    rewrite Hi, Hj, Hlive, Hhit.
    rewrite bool_decide_eq_false_2 by done. cbn [orb].
    split; [apply hit_branch_snakes | reflexivity].
  - cbn [app]. rewrite !scan_nearby_cons.
    rewrite Hi.
    destruct (snakes w !! k) as [sk |] eqn:Hk; [| exact IH].
    destruct (bool_decide (i = k) || Snake.dead sk); [exact IH |].
    destruct (head_hits_body s1 sk); [| exact IH].
    split; [apply hit_branch_snakes | reflexivity].
Qed.

Lemma sample_path_head (step : nat) (p : Vector) (rest : list Vector) :
  p ∈ sample_path step (p :: rest).
Proof. unfold sample_path. cbn. apply elem_of_cons. by left. Qed.

(** A scan in which no live neighbour is hit does nothing. *)
Lemma scan_nearby_miss (i : nat) (s1 : Snake) (nearby : list nat) (w : World) :
  snakes w !! i = Some s1 ->
  (forall k sk, k ∈ nearby -> k <> i -> snakes w !! k = Some sk ->
     Snake.dead sk = false -> head_hits_body s1 sk = false) ->
  scan_nearby i nearby w = (tt, w).
Proof.
  intros Hi. induction nearby as [| k rest IH]; intros Hmiss; [done |].
  assert (Hrest : scan_nearby i rest w = (tt, w)).
  { apply IH. intros k' sk Hk'. apply Hmiss. apply elem_of_cons. by right. }
  rewrite scan_nearby_cons, Hi.
  destruct (snakes w !! k) as [sk |] eqn:Hk; [| exact Hrest].
  destruct (bool_decide (i = k)) eqn:Hik; [exact Hrest |].
  apply bool_decide_eq_false in Hik.
  destruct (Snake.dead sk) eqn:Hd; [exact Hrest |]. cbn [orb].
  rewrite (Hmiss k sk); [exact Hrest | apply elem_of_cons; by left | | |];
    congruence.
Qed.

(** The check for a live [s1] is the scan of what the hash returns around
    its head. *)
Lemma collide_at_live (i : nat) (s1 : Snake) (w : World) :
  snakes w !! i = Some s1 -> Snake.dead s1 = false ->
  collide_at i w =
  scan_nearby i
    (SpatialHash.retrieve (spatialHash w)
       (mkRect (Vector.x (Snake.pos s1) - 100)
               (Vector.y (Snake.pos s1) - 100) 200 200)) w.
Proof. intros Hi Hl. unfold collide_at. unfold_M. by rewrite Hi, Hl. Qed.

(** What the hash of a world of two snakes returns after it is rebuilt. *)
Lemma rebuilt_pair_retrieve (a b : Snake) (rect : Rect) (k : nat) :
  Snake.dead b = false ->
  let w := rebuild_hash (sample_world [a; b] 0.5) in
  k ∈ SpatialHash.retrieve (spatialHash w) rect <->
  (k = 0%nat /\
   in_cell_range (SpatialHash.new (A := nat) 1000) rect
     (SpatialHash.key (SpatialHash.new (A := nat) 1000) (Snake.pos a))) \/
  (k = 1%nat /\
   in_cell_range (SpatialHash.new (A := nat) 1000) rect
     (SpatialHash.key (SpatialHash.new (A := nat) 1000) (Snake.pos b))).
Proof.
  intros Hb w.
  assert (Eh : spatialHash w
               = SpatialHash.insert_all (pos_at (sample_world [a; b] 0.5))
                   (SpatialHash.new 1000) [0%nat; 1%nat]).
  { unfold w, rebuild_hash. cbn [spatialHash set_spatialHash]. f_equal.
    cbn [sample_world snakes length seq].
    rewrite filter_cons_True by (by left).
    rewrite filter_cons_True by (right; cbn; by rewrite Hb).
    done. }
  rewrite Eh, retrieve_insert_all.
  unfold in_cell_range, SpatialHash.key. rewrite cellSize_insert_all.
  split.
  - intros [Hk Hr]. apply elem_of_cons in Hk as [-> | Hk]; [by left |].
    apply elem_of_cons in Hk as [-> | Hk]; [by right |].
    by apply elem_of_nil in Hk.
  - intros [[-> Hr] | [-> Hr]]; (split; [| exact Hr]).
    + apply elem_of_cons. by left.
    + apply elem_of_cons. right. apply elem_of_cons. by left.
Qed.

(** C2.  Collision asymmetry.  Let [s1] (at index [i]) and [s2] (at [j]) be
    two live snakes such that a sampled point of the path of [s2] is closer
    to the head of [s1] than [s1.width * 0.35 + s2.width / 2].  When the
    scan of the neighbours of [s1] reaches [s2], [s1] is marked dead and is
    the only snake of the store that changes: [s2], and so its [dead] flag,
    is as before; and the neighbours after [s2] are not scanned (the outcome
    is that of the scan that ends with [s2]).  The same holds for the body
    of the collision pass for [s1] when the hash returns [s2] for the square
    around the head of [s1].  A snake that the hash does not return is not
    tested: when no live snake returned by the hash has a sampled point that
    close, the check for [s1] changes nothing, whatever the path of [s2].
    In no case does the scan for [s1] change another snake. *)
Theorem collision_asymmetry (w : World) (i j : nat) (s1 s2 : Snake) (p : Vector) :
  snakes w !! i = Some s1 -> snakes w !! j = Some s2 -> i <> j ->
  Snake.dead s1 = false -> Snake.dead s2 = false ->
  p ∈ sample_path (Z.to_nat (Z.max 2 (Math_floor (Snake.width s2 / 5))))
                  (Snake.path s2) ->
  Vector.dist (Snake.pos s1) p < Snake.width s1 * 0.35 + Snake.width s2 / 2 ->
  (forall pre rest,
     let w' := snd (scan_nearby i (pre ++ j :: rest) w) in
     snakes w' !! i = Some (Snake.set_dead s1 true) /\
     snakes w' !! j = Some s2 /\
     (forall k, k <> i -> snakes w' !! k = snakes w !! k) /\
     scan_nearby i (pre ++ j :: rest) w = scan_nearby i (pre ++ [j]) w) /\
  (j ∈ SpatialHash.retrieve (spatialHash w)
         (mkRect (Vector.x (Snake.pos s1) - 100)
                 (Vector.y (Snake.pos s1) - 100) 200 200) ->
   let w' := snd (collide_at i w) in
   snakes w' !! i = Some (Snake.set_dead s1 true) /\
   snakes w' !! j = Some s2 /\
   (forall k, k <> i -> snakes w' !! k = snakes w !! k)) /\
  ((forall k sk q,
      k ∈ SpatialHash.retrieve (spatialHash w)
            (mkRect (Vector.x (Snake.pos s1) - 100)
                    (Vector.y (Snake.pos s1) - 100) 200 200) ->
      k <> i -> snakes w !! k = Some sk -> Snake.dead sk = false ->
      q ∈ sample_path (Z.to_nat (Z.max 2 (Math_floor (Snake.width sk / 5))))
                      (Snake.path sk) ->
      ~ Vector.dist (Snake.pos s1) q
        < Snake.width s1 * 0.35 + Snake.width sk / 2) ->
   collide_at i w = (tt, w)) /\
  (forall nearby k, k <> i ->
     snakes (snd (scan_nearby i nearby w)) !! k = snakes w !! k).
Proof.
  intros Hi Hj Hij Hl1 Hl2 Hp Hd.
  assert (Hhit : head_hits_body s1 s2 = true).
  { unfold head_hits_body. apply head_hits_points_iff. by exists p. }
  assert (Hscan : forall pre rest,
     let w' := snd (scan_nearby i (pre ++ j :: rest) w) in
     snakes w' !! i = Some (Snake.set_dead s1 true) /\
     snakes w' !! j = Some s2 /\
     (forall k, k <> i -> snakes w' !! k = snakes w !! k) /\
     scan_nearby i (pre ++ j :: rest) w = scan_nearby i (pre ++ [j]) w).
  { intros pre rest w'. subst w'.
    destruct (scan_nearby_hit i j s1 s2 w pre rest Hi Hj Hij Hl2 Hhit) as [E1 E2].
    rewrite E1. split; [| split; [| split]].
    - apply list_lookup_insert_eq. by eapply lookup_lt_Some.
    - rewrite list_lookup_insert_ne by done. exact Hj.
    - intros k Hk. by rewrite list_lookup_insert_ne.
    - exact E2. }
  split; [exact Hscan |]. split; [| split].
  - intros Hin w'. subst w'. rewrite (collide_at_live i s1 w Hi Hl1).
    apply list_elem_of_split in Hin as (pre & rest & ->).
    destruct (Hscan pre rest) as (A & B & C & _). auto.
  - intros Hmiss. rewrite (collide_at_live i s1 w Hi Hl1).
    apply (scan_nearby_miss i s1); [exact Hi |].
    intros k sk Hk Hne Hsk Hlive.
    destruct (head_hits_body s1 sk) eqn:E; [| done]. exfalso.
    unfold head_hits_body in E. apply head_hits_points_iff in E as (q & Hq & Hlt).
    exact (Hmiss k sk q Hk Hne Hsk Hlive Hq Hlt).
  - intros nearby k Hk.
    destruct (scan_nearby_snakes i nearby w) as [-> | (s & _ & ->)]; [done |].
    by rewrite list_lookup_insert_ne.
Qed.

(** Facts of the two examples. *)
Lemma near_example_found :
  1%nat ∈ SpatialHash.retrieve (spatialHash near_example_world)
            (mkRect (Vector.x (Snake.pos near_example_head) - 100)
                    (Vector.y (Snake.pos near_example_head) - 100) 200 200).
Proof.
  apply rebuilt_pair_retrieve; [reflexivity |]. right. split; [done |].
  unfold in_cell_range, SpatialHash.key.
  cbn [SpatialHash.cellSize SpatialHash.new rect_x rect_y rect_w rect_h fst snd
       near_example_head near_example_body sample_snake Snake.pos
       Vector.x Vector.y].
  assert (E1 : Math_floor (10 / 1000) = 0%Z) by floor_is 0%Z.
  assert (E2 : Math_floor (0 / 1000) = 0%Z) by floor_is 0%Z.
  assert (E3 : Math_floor ((0 - 100) / 1000) = (-1)%Z) by floor_is (-1)%Z.
  assert (E4 : Math_floor ((0 - 100 + 200) / 1000) = 0%Z) by floor_is 0%Z.
  rewrite E1, E2, E3, E4. lia.
Qed.

Lemma far_example_not_found (k : nat) :
  k ∈ SpatialHash.retrieve (spatialHash far_example_world)
        (mkRect (Vector.x (Snake.pos far_example_head) - 100)
                (Vector.y (Snake.pos far_example_head) - 100) 200 200) ->
  k = 0%nat.
Proof.
  intros Hk. apply rebuilt_pair_retrieve in Hk; [| reflexivity].
  destruct Hk as [[-> _] | [_ Hr]]; [done |]. exfalso.
  unfold in_cell_range, SpatialHash.key in Hr.
  cbn [SpatialHash.cellSize SpatialHash.new rect_x rect_y rect_w rect_h fst snd
       far_example_head far_example_body sample_snake Snake.pos
       Vector.x Vector.y] in Hr.
  assert (E1 : Math_floor (1012 / 1000) = 1%Z) by floor_is 1%Z.
  assert (E2 : Math_floor ((899 - 100 + 200) / 1000) = 0%Z) by floor_is 0%Z.
  rewrite E1, E2 in Hr. lia.
Qed.

Lemma far_example_close :
  Vector.dist (Snake.pos far_example_head) (Snake.pos far_example_body)
  < Snake.width far_example_head * 0.35 + Snake.width far_example_body / 2.
Proof.
  assert (W1 : Snake.width far_example_head = 165) by apply width_law_1000000.
  assert (W2 : Snake.width far_example_body = 165) by apply width_law_1000000.
  rewrite W1, W2. apply dist_lt_iff; [lra |]. cbn. lra.
Qed.

(** C2 as stated fails.  The two snakes of the example are alive, and the
    head of the second, which is the first sampled point of its path, is
    113.4 from the head of the first: closer than the head radius plus the
    body radius, 140.25.  But the head of the second is in the next cell of
    the hash, which the square around the first head does not touch, so the
    check for the first snake never looks at the second: it changes nothing,
    and the first snake is not marked dead. *)
Lemma collision_outside_query_counterexample :
  let s1 := far_example_head in
  let s2 := far_example_body in
  let w := far_example_world in
  snakes w !! 0%nat = Some s1 /\ snakes w !! 1%nat = Some s2 /\
  Snake.dead s1 = false /\ Snake.dead s2 = false /\
  Snake.pos s2 ∈ sample_path (Z.to_nat (Z.max 2 (Math_floor (Snake.width s2 / 5))))
                             (Snake.path s2) /\
  Vector.dist (Snake.pos s1) (Snake.pos s2)
    < Snake.width s1 * 0.35 + Snake.width s2 / 2 /\
  collide_at 0 w = (tt, w) /\
  snakes (snd (collide_at 0 w)) !! 0%nat <> Some (Snake.set_dead s1 true).
Proof.
  intros s1 s2 w.
  assert (Hc : collide_at 0 w = (tt, w)).
  { rewrite (collide_at_live 0 s1 w eq_refl eq_refl).
    apply (scan_nearby_miss 0 s1); [reflexivity |].
    intros k sk Hk Hne. apply far_example_not_found in Hk. done. }
  split; [reflexivity |]. split; [reflexivity |].
  split; [reflexivity |]. split; [reflexivity |].
  split; [apply sample_path_head |]. split; [exact far_example_close |].
  split; [exact Hc |]. rewrite Hc. cbn. intros E. inversion E.
Qed.

Lemma collision_asymmetry_witness :
  let s1 := near_example_head in
  let s2 := near_example_body in
  let w' := snd (collide_at 0 near_example_world) in
  snakes w' !! 0%nat = Some (Snake.set_dead s1 true) /\
  snakes w' !! 1%nat = Some s2.
Proof.
  intros s1 s2.
  assert (Hw1 : Snake.width s1 = 65) by apply width_law_100.
  assert (Hw2 : Snake.width s2 = 65) by apply width_law_100.
  assert (Hd : Vector.dist (Snake.pos s1) (Vector.mk 10 0)
               < Snake.width s1 * 0.35 + Snake.width s2 / 2).
  { apply dist_lt_iff; rewrite Hw1, Hw2; cbn; lra. }
  destruct (collision_asymmetry near_example_world 0 1 s1 s2
              (Vector.mk 10 0) eq_refl eq_refl ltac:(lia) eq_refl eq_refl
              (sample_path_head _ _ _) Hd) as (_ & H & _).
  destruct (H near_example_found) as (A & B & _). split; assumption.
Defined.

(** ** The collision scan of a bot *)

Lemma probe_points_iff (s other : Snake) (cp : Vector) (pts : list Vector) :
  probe_points s other cp pts = true <->
  exists p, p ∈ pts /\ Vector.dist cp p < Snake.width s + Snake.width other.
Proof.
  induction pts as [| q pts IH]; simpl.
  - split; [done | intros (p & Hp & _); by apply elem_of_nil in Hp].
  - case_decide as Hq.
    + split; [intros _ | done]. exists q. split; [apply elem_of_cons; auto | done].
    + rewrite IH. split.
      * intros (p & Hp & Hd). exists p. split; [apply elem_of_cons; auto | done].
      * intros (p & Hp & Hd). apply elem_of_cons in Hp as [-> | Hp]; [done |].
        by exists p.
Qed.

Lemma probe_nearby_iff (this : nat) (s : Snake) (cp : Vector)
  (store : list Snake) (nearby : list nat) :
  probe_nearby this s cp store nearby = true <->
  exists j other, j ∈ nearby /\ j <> this /\ store !! j = Some other /\
                  Snake.dead other = false /\ probe_other s other cp = true.
Proof.
  induction nearby as [| k rest IH]; simpl.
  - split; [done | intros (j & o & Hj & _); by apply elem_of_nil in Hj].
  - assert (Hrest : (exists j other, j ∈ rest /\ j <> this /\
                       store !! j = Some other /\ Snake.dead other = false /\
                       probe_other s other cp = true) ->
                    exists j other, j ∈ k :: rest /\ j <> this /\
                       store !! j = Some other /\ Snake.dead other = false /\
                       probe_other s other cp = true).
    { intros (j & o & Hj & H). exists j, o. split; [apply elem_of_cons; auto | done]. }
    destruct (store !! k) as [other |] eqn:Hk.
    + destruct (bool_decide (k = this)) eqn:Hthis; cbn [orb].
      * apply bool_decide_eq_true_1 in Hthis. rewrite IH.
        split; [exact Hrest |].
        intros (j & o & Hj & Hne & H). apply elem_of_cons in Hj as [-> | Hj];
          [done | by exists j, o].
      * apply bool_decide_eq_false_1 in Hthis.
        destruct (Snake.dead other) eqn:Hdead.
        -- rewrite IH. split; [exact Hrest |].
           intros (j & o & Hj & Hne & Hs & Hd & Hp).
           apply elem_of_cons in Hj as [-> | Hj]; [congruence | by exists j, o].
        -- destruct (probe_other s other cp) eqn:Hprobe.
           ++ split; [intros _ | done]. exists k, other.
              split; [apply elem_of_cons; auto | done].
           ++ rewrite IH. split; [exact Hrest |].
              intros (j & o & Hj & Hne & Hs & Hd & Hp).
              apply elem_of_cons in Hj as [-> | Hj]; [congruence | by exists j, o].
    + rewrite IH. split; [exact Hrest |].
      intros (j & o & Hj & Hne & Hs & H).
      apply elem_of_cons in Hj as [-> | Hj]; [congruence | by exists j, o].
Qed.

(** When the scan flags a snake: some neighbour that is another, live snake
    has a sampled point closer to the probe than the sum of the two widths. *)
Lemma snake_danger_iff (this : nat) (s : Snake) (w : World) :
  snake_danger this s w = true <->
  exists j other p,
    j ∈ SpatialHash.retrieve (spatialHash w) (scan_rect s) /\
    j <> this /\ snakes w !! j = Some other /\ Snake.dead other = false /\
    p ∈ sample_path (Nat.max 5 (length (Snake.path other) / 10))
                    (Snake.path other) /\
    Vector.dist (checkPos s) p < Snake.width s + Snake.width other.
Proof.
  unfold snake_danger. rewrite probe_nearby_iff. unfold probe_other, scan_rect.
  split.
  - intros (j & o & Hj & Hne & Hs & Hd & Hp).
    apply probe_points_iff in Hp as (p & Hp & Hlt). by exists j, o, p.
  - intros (j & o & p & Hj & Hne & Hs & Hd & Hp & Hlt). exists j, o.
    repeat (split; [done |]). apply probe_points_iff. by exists p.
Qed.

(** What the scan does when a snake is flagged and when none is. *)
Lemma Bot_scan_cases (this : nat) (s : Snake) (dt : R) (w : World) :
  bounds_danger s = false ->
  Bot_scan this s dt w =
  if snake_danger this s w
  then (Snake.set_wantBoost
          (Snake.set_targetAngle s (Snake.targetAngle s + PI / 2)) true, w)
  else wander s dt w.
Proof.
  intros Hb. unfold Bot_scan. unfold_M. rewrite Hb.
  by destruct (snake_danger this s w).
Qed.

(** [Snake.update] never writes the desired heading. *)
Lemma Snake_update_targetAngle (s : Snake) (dt : R) (w : World) :
  Snake.targetAngle (fst (Snake_update s dt w)) = Snake.targetAngle s.
Proof.
  unfold Snake_update. destruct (Snake.dead s); [done |]. unfold_M.
  pose proof (kinematics_spec s dt w) as K.
  destruct (kinematics s dt w) as [m w1]. cbv zeta in K. simpl fst in K.
  destruct K as (_ & _ & _ & _ & _ & _ & Kt & _). rewrite <- Kt.
  case_decide.
  - destruct (die_spec m w1) as (D & _). by rewrite D.
  - cbn [fst]. unfold smooth_growth, manage_path.
    destruct (head (Snake.path m)); repeat case_decide; reflexivity.
Qed.

(** Wandering nudges the desired heading by less than 1 radian. *)
Lemma wander_targetAngle (s : Snake) (dt : R) (w : World) :
  random_in_range w ->
  -1 <= Snake.targetAngle (fst (wander s dt w)) - Snake.targetAngle s < 1.
Proof.
  intros Hr. pose proof (Hr (random_pos w)) as H0.
  unfold wander. unfold_M.
  repeat (case_decide; snake_fields);
    repeat match goal with
           | |- context [bool_decide ?P] => destruct (bool_decide P)
           | |- context [if Snake.wantBoost ?x then _ else _] =>
               destruct (Snake.wantBoost x) eqn:?
           end; snake_fields; cbn [random_stream random_pos set_random_pos]; lra.
Qed.

(** C7 (amended).  On a scan tick of a live bot with no boundary danger, the
    bot flags danger, adds [PI / 2] to its desired heading (once) and asks
    for a boost exactly when, among the snakes that the hash returns for the
    square of half-side [lookDist] around the head of the bot, there is
    another, live snake with some sampled point of its path (every
    [max(5, floor(length / 10))]-th point from the newest) closer to the
    probe point than the sum of the widths of the two snakes.  Without
    danger the bot wanders, which moves the desired heading by less than 1
    radian, hence never by [PI / 2]. *)
Theorem bot_collision_scan (this : nat) (s : Snake) (dt : R) (w : World) :
  Snake.dead s = false -> shouldScan s w = true -> bounds_danger s = false ->
  let danger := snake_danger this s w in
  (danger = true <->
   exists j other p,
     j ∈ SpatialHash.retrieve (spatialHash w) (scan_rect s) /\
     j <> this /\ snakes w !! j = Some other /\ Snake.dead other = false /\
     p ∈ sample_path (Nat.max 5 (length (Snake.path other) / 10))
                     (Snake.path other) /\
     Vector.dist (checkPos s) p < Snake.width s + Snake.width other) /\
  (danger = true ->
   Bot_scan this s dt w =
     (Snake.set_wantBoost
        (Snake.set_targetAngle s (Snake.targetAngle s + PI / 2)) true, w) /\
   Snake.targetAngle (fst (Bot_update this s dt w))
     = Snake.targetAngle s + PI / 2) /\
  (danger = false ->
   Bot_scan this s dt w = wander s dt w /\
   (random_in_range w ->
    Snake.targetAngle (fst (Bot_update this s dt w))
      <> Snake.targetAngle s + PI / 2)).
Proof.
  intros Hlive Hscan Hb danger. subst danger.
  pose proof (Bot_scan_cases this s dt w Hb) as Hc.
  assert (Hu : Snake.targetAngle (fst (Bot_update this s dt w))
               = Snake.targetAngle (fst (Bot_scan this s dt w))).
  { unfold Bot_update. rewrite Hlive. unfold_M. rewrite Hscan.
    destruct (Bot_scan this s dt w) as [s1 w1]. apply Snake_update_targetAngle. }
  split; [apply snake_danger_iff |]. split.
  - intros Hd. rewrite Hd in Hc. split; [exact Hc |]. by rewrite Hu, Hc.
  - intros Hd. rewrite Hd in Hc. split; [exact Hc |].
    intros Hr. rewrite Hu, Hc.
    pose proof (wander_targetAngle s dt w Hr). pose proof PI2_1. lra.
Qed.

(** Facts of the example. *)
Lemma scan_example_checkPos : checkPos scan_example_bot = Vector.mk 460 0.
Proof.
  unfold checkPos, lookDist, scan_example_bot, sample_snake. snake_fields.
  rewrite cos_0, sin_0, width_law_100. unfold Vector.add, Vector.mult; simpl.
  f_equal; lra.
Qed.

Lemma scan_example_hash :
  spatialHash scan_example_world
  = SpatialHash.insert_all
      (pos_at (sample_world [scan_example_other; scan_example_bot] 0.5))
      (SpatialHash.new 1000) [0%nat; 1%nat].
Proof. reflexivity. Qed.

Lemma scan_example_rect :
  scan_rect scan_example_bot = mkRect (-460) (-460) 920 920.
Proof.
  unfold scan_rect, lookDist, scan_example_bot, sample_snake. snake_fields.
  rewrite width_law_100. cbn [Vector.x Vector.y]. f_equal; lra.
Qed.

Lemma scan_example_other_found :
  0%nat ∈ SpatialHash.retrieve (spatialHash scan_example_world)
            (scan_rect scan_example_bot).
Proof.
  rewrite scan_example_hash, scan_example_rect.
  apply retrieve_insert_all. split; [apply elem_of_cons; auto |].
  unfold in_cell_range, SpatialHash.key.
  rewrite cellSize_insert_all.
  cbn [SpatialHash.cellSize SpatialHash.new rect_x rect_y rect_w rect_h fst snd].
  change (pos_at (sample_world [scan_example_other; scan_example_bot] 0.5) 0)
    with (Vector.mk 900 100).
  cbn [Vector.x Vector.y].
  assert (E1 : Math_floor (900 / 1000) = 0%Z) by floor_is 0%Z.
  assert (E2 : Math_floor (100 / 1000) = 0%Z) by floor_is 0%Z.
  assert (E3 : Math_floor (-460 / 1000) = (-1)%Z) by floor_is (-1)%Z.
  assert (E4 : Math_floor ((-460 + 920) / 1000) = 0%Z) by floor_is 0%Z.
  rewrite E1, E2, E3, E4. lia.
Qed.

Lemma scan_example_samples :
  sample_path (Nat.max 5 (length (Snake.path scan_example_other) / 10))
              (Snake.path scan_example_other)
  = [Vector.mk 900 100; Vector.mk 460 100].
Proof. reflexivity. Qed.

Lemma scan_example_widths :
  Snake.width scan_example_bot = 65 /\ Snake.width scan_example_other = 65.
Proof. split; apply width_law_100. Qed.

Lemma scan_example_no_bounds_danger : bounds_danger scan_example_bot = false.
Proof.
  apply bool_decide_eq_false_2. rewrite scan_example_checkPos.
  intros H. apply mag_gt_iff in H; unfold CONFIG.mapSize in *;
    cbn [Vector.x Vector.y] in *; lra.
Qed.

Lemma scan_example_danger :
  snake_danger 1 scan_example_bot scan_example_world = true.
Proof.
  destruct scan_example_widths as [Wb Wo].
  apply snake_danger_iff.
  exists 0%nat, scan_example_other, (Vector.mk 460 100).
  split; [apply scan_example_other_found |].
  split; [lia |]. split; [reflexivity |]. split; [reflexivity |].
  split.
  - rewrite scan_example_samples. apply elem_of_cons. right.
    apply elem_of_cons. by left.
  - rewrite scan_example_checkPos, Wb, Wo.
    apply dist_lt_iff; cbn [Vector.x Vector.y]; lra.
Qed.

(** C7 as stated fails.  In the example the bot is on a scan tick with no
    boundary danger, and no snake returned by the hash has a sampled point
    (the first or any other) closer to the probe point than the sum of the
    half-widths, 65: the two sampled points of the other snake are at
    distances of more than 450 and of 100.  Yet the bot flags danger and
    turns by [PI / 2], because 100 is less than the sum of the widths. *)
Lemma bot_scan_half_widths_counterexample :
  let s := scan_example_bot in
  let w := scan_example_world in
  Snake.dead s = false /\ shouldScan s w = true /\ bounds_danger s = false /\
  Bot_scan 1 s 0.05 w =
    (Snake.set_wantBoost
       (Snake.set_targetAngle s (Snake.targetAngle s + PI / 2)) true, w) /\
  (forall j other p,
     j ∈ SpatialHash.retrieve (spatialHash w) (scan_rect s) ->
     j <> 1%nat -> snakes w !! j = Some other ->
     p ∈ sample_path (Nat.max 5 (length (Snake.path other) / 10))
                     (Snake.path other) ->
     ~ Vector.dist (checkPos s) p < Snake.width s / 2 + Snake.width other / 2).
Proof.
  intros s w. destruct scan_example_widths as [Wb Wo].
  split; [reflexivity |]. split; [reflexivity |].
  split; [exact scan_example_no_bounds_danger |]. split.
  - rewrite Bot_scan_cases by exact scan_example_no_bounds_danger.
    unfold s, w. by rewrite scan_example_danger.
  - intros j other p Hj Hne Hs Hp.
    unfold w in Hj. rewrite scan_example_hash in Hj.
    apply retrieve_insert_all in Hj as [Hj _].
    assert (j = 0%nat) as ->.
    { apply elem_of_cons in Hj as [-> | Hj]; [done |].
      apply elem_of_cons in Hj as [-> | Hj]; [done |].
      by apply elem_of_nil in Hj. }
    assert (other = scan_example_other) as -> by (cbn in Hs; congruence).
    rewrite scan_example_samples in Hp. unfold s.
    rewrite scan_example_checkPos, Wb, Wo. intros Hlt.
    apply dist_lt_iff in Hlt; [| lra].
    apply elem_of_cons in Hp as [-> | Hp];
      [cbn [Vector.x Vector.y] in Hlt; lra |].
    apply elem_of_cons in Hp as [-> | Hp];
      [cbn [Vector.x Vector.y] in Hlt; lra |].
    by apply elem_of_nil in Hp.
Qed.

Lemma bot_collision_scan_witness :
  Snake.targetAngle (fst (Bot_update 1 scan_example_bot 0.05 scan_example_world))
  = Snake.targetAngle scan_example_bot + PI / 2.
Proof.
  destruct (bot_collision_scan 1 scan_example_bot 0.05 scan_example_world
              eq_refl eq_refl scan_example_no_bounds_danger) as (_ & Hd & _).
  apply Hd. exact scan_example_danger.
Defined.

(** ** The loops that run on fuel leave through their own tests *)

Lemma wrap_up_enough (fuel : nat) :
  forall diff, - PI - diff < INR fuel * (PI * 2) -> - PI < wrap_up fuel diff.
Proof.
  induction fuel as [| fuel IH]; intros diff H.
  - simpl in *. lra.
  - cbn [wrap_up]. case_decide; [| lra].
    apply IH. rewrite S_INR in H. lra.
Qed.

Lemma wrap_down_enough (fuel : nat) :
  forall diff, diff - PI <= INR fuel * (PI * 2) -> wrap_down fuel diff <= PI.
Proof.
  induction fuel as [| fuel IH]; intros diff H.
  - simpl in *. lra.
  - cbn [wrap_down]. case_decide; [| lra].
    apply IH. rewrite S_INR in H. lra.
Qed.

Lemma wrap_down_above (fuel : nat) :
  forall diff, - PI < diff -> - PI < wrap_down fuel diff.
Proof.
  induction fuel as [| fuel IH]; intros diff H; [done |].
  cbn [wrap_down]. case_decide; [| done]. apply IH. lra.
Qed.

(** The first loop ends with [diff > -PI]. *)
Lemma wrap_up_exits (diff : R) : - PI < wrap_up (wrap_up_fuel diff) diff.
Proof.
  apply wrap_up_enough. unfold wrap_up_fuel.
  pose proof PI_RGT_0 as Hpi.
  set (q := (- PI - diff) / (PI * 2)).
  pose proof (Zfloor_bound q) as [_ Hq].
  pose proof (INR_to_nat_ge (Zfloor q + 1)) as Hn. rewrite plus_IZR in Hn.
  assert (Hlt : q < INR (Z.to_nat (Zfloor q + 1))) by lra.
  apply div_lt_iff in Hlt; lra.
Qed.

(** The second loop ends with [diff <= PI]. *)
Lemma wrap_down_exits (diff : R) : wrap_down (wrap_down_fuel diff) diff <= PI.
Proof.
  apply wrap_down_enough. unfold wrap_down_fuel.
  pose proof PI_RGT_0 as Hpi.
  set (q := (diff - PI) / (PI * 2)).
  pose proof (Zceil_bound q) as [_ Hq].
  pose proof (INR_to_nat_ge (Zceil q)) as Hn.
  assert (Hle : q <= INR (Z.to_nat (Zceil q))) by lra.
  apply div_le_iff in Hle; lra.
Qed.

(** The difference of headings is brought into (-PI, PI]. *)
Lemma normalize_diff_range (diff : R) : - PI < normalize_diff diff <= PI.
Proof.
  unfold normalize_diff. split.
  - apply wrap_down_above, wrap_up_exits.
  - apply wrap_down_exits.
Qed.

(** With a stride of at least 1 the sampling loop has ended within
    [path.length] iterations. *)
Lemma sample_loop_fuel_enough (path : list Vector) (step : nat) :
  (1 <= step)%nat ->
  forall fuel i extra,
    (length path <= i + fuel)%nat ->
    sample_loop (fuel + extra) path step i = sample_loop fuel path step i.
Proof.
  intros Hstep. induction fuel as [| fuel IH]; intros i extra Hlen.
  - destruct extra; [done |]. cbn [Nat.add sample_loop].
    rewrite lookup_ge_None_2 by lia. done.
  - cbn [Nat.add sample_loop]. destruct (path !! i); [| done].
    f_equal. apply IH. lia.
Qed.

Lemma sample_path_fuel_enough (path : list Vector) (step extra : nat) :
  (1 <= step)%nat ->
  sample_loop (length path + extra) path step 0 = sample_path step path.
Proof.
  intros Hstep. unfold sample_path. apply sample_loop_fuel_enough; [done | lia].
Qed.

(** ** Examples *)

(** A stride of 2 over five points visits the first, third and fifth. *)
Example sample_path_stride_2 (a b c d e : Vector) :
  sample_path 2 [a; b; c; d; e] = [a; c; e].
Proof. reflexivity. Qed.

(** An agent at the origin heading along the x axis, at speed 450 for one
    second, has its head at (450, 0). *)
Example move_along_x :
  Snake.pos (move (sample_snake false (Vector.mk 0 0) 100) 450 1)
  = Vector.mk 450 0.
Proof.
  unfold move, sample_snake. snake_fields. rewrite cos_0, sin_0.
  unfold Vector.add, Vector.mult; cbn [Vector.x Vector.y]. f_equal; lra.
Qed.

(** With no turn to make the heading stays as it is. *)
Example normalize_diff_0 : normalize_diff 0 = 0.
Proof.
  pose proof PI_RGT_0.
  assert (U : forall fuel, wrap_up fuel 0 = 0).
  { intros [| fuel]; [done |]. cbn [wrap_up]. case_decide; [lra | done]. }
  assert (D : forall fuel, wrap_down fuel 0 = 0).
  { intros [| fuel]; [done |]. cbn [wrap_down]. case_decide; [lra | done]. }
  unfold normalize_diff. by rewrite U, D.
Qed.

(** A snake of score 100 is born with a path of seven points, 32.5 apart. *)
Example new_Snake_100_path (w : World) :
  length (Snake.path (fst (new_Snake false 100 w))) = 7%nat.
Proof.
  destruct (new_Snake_fields false 100 w) as (_ & _ & _ & _ & _ & _ & _ & ->).
  rewrite width_law_100.
  assert (L : length_law 100 = 210) by (unfold length_law; rewrite Rmin_right; lra).
  rewrite L.
  assert (F : prefill_fuel 210 (65 / 2) = 7%nat).
  { unfold prefill_fuel. replace (Zceil (210 / (65 / 2))) with 7%Z; [done |].
    symmetry. apply Zceil_eq. simpl. lra. }
  rewrite F. cbn [prefill].
  repeat (case_decide; [| lra]; cbn [length]). reflexivity.
Qed.

(** * Further properties of the code *)

(** ** Vector algebra *)

Lemma mag_mult (v : Vector) (n : R) :
  Vector.mag (Vector.mult v n) = Rabs n * Vector.mag v.
Proof.
  unfold Vector.mag, Vector.mult; cbn [Vector.x Vector.y].
  replace (Vector.x v * n * (Vector.x v * n) + Vector.y v * n * (Vector.y v * n))
    with (Rsqr n * (Vector.x v * Vector.x v + Vector.y v * Vector.y v))
    by (unfold Rsqr; ring).
  rewrite sqrt_mult; [| apply Rle_0_sqr | apply sum_squares_nonneg].
  by rewrite sqrt_Rsqr_abs.
Qed.

Lemma dist_mag_sub (a b : Vector) :
  Vector.dist a b = Vector.mag (Vector.sub a b).
Proof.
  unfold Vector.dist, Vector.mag, Vector.sub; cbn [Vector.x Vector.y].
  f_equal. ring.
Qed.

(** The triangle inequality for magnitudes. *)
Lemma mag_add_le (a b : Vector) :
  Vector.mag (Vector.add a b) <= Vector.mag a + Vector.mag b.
Proof.
  pose proof (mag_nonneg a) as Ha. pose proof (mag_nonneg b) as Hb.
  pose proof (mag_nonneg (Vector.add a b)) as Hab.
  pose proof (mag_sqr a) as Sa. pose proof (mag_sqr b) as Sb.
  pose proof (mag_sqr (Vector.add a b)) as Sab.
  set (ma := Vector.mag a) in *. set (mb := Vector.mag b) in *.
  set (mab := Vector.mag (Vector.add a b)) in *.
  clearbody ma mb mab.
  destruct a as [a1 a2], b as [b1 b2].
  unfold Vector.add in Sab; cbn [Vector.x Vector.y] in *.
  (* Cauchy-Schwarz: a.b <= |a| |b| *)
  assert (CS : a1 * b1 + a2 * b2 <= ma * mb).
  { destruct (Rle_lt_dec (a1 * b1 + a2 * b2) (ma * mb)) as [L | L]; [exact L |].
    exfalso.
    assert (0 <= ma * mb) by (apply Rmult_le_pos; lra).
    assert (H1 : (ma * mb) * (ma * mb) < (a1 * b1 + a2 * b2) * (a1 * b1 + a2 * b2))
      by (apply Rmult_le_0_lt_compat; lra).
    assert (H2 : (ma * mb) * (ma * mb)
                 = (a1 * a1 + a2 * a2) * (b1 * b1 + b2 * b2))
      by (rewrite <- Sa, <- Sb; ring).
    pose proof (Rle_0_sqr (a1 * b2 - a2 * b1)) as H3. unfold Rsqr in H3.
    assert (H5 : (a1 * a1 + a2 * a2) * (b1 * b1 + b2 * b2)
                 = (a1 * b1 + a2 * b2) * (a1 * b1 + a2 * b2)
                   + (a1 * b2 - a2 * b1) * (a1 * b2 - a2 * b1)) by ring.
    lra. }
  destruct (Rle_lt_dec mab (ma + mb)) as [L | L]; [exact L |]. exfalso.
  assert (H4 : (ma + mb) * (ma + mb) < mab * mab)
    by (apply Rmult_le_0_lt_compat; lra).
  assert (H6 : (ma + mb) * (ma + mb) = ma * ma + mb * mb + 2 * (ma * mb)) by ring.
  assert (H7 : (a1 + b1) * (a1 + b1) + (a2 + b2) * (a2 + b2)
               = (a1 * a1 + a2 * a2) + (b1 * b1 + b2 * b2)
                 + 2 * (a1 * b1 + a2 * b2)) by ring.
  lra.
Qed.

(** X1.  The vector operations fit together: [dist] is the magnitude of the
    difference and is symmetric, with [dist a a = 0]; adding and then
    subtracting a vector gives the first back; scaling by [n] scales the
    magnitude by [|n|]; and magnitudes and distances obey the triangle
    inequality. *)
Theorem vector_algebra (a b c : Vector) (n : R) :
  Vector.dist a b = Vector.mag (Vector.sub a b) /\
  Vector.dist a b = Vector.dist b a /\
  Vector.dist a a = 0 /\
  Vector.sub (Vector.add a b) b = a /\
  Vector.add (Vector.sub a b) b = a /\
  Vector.mag (Vector.mult a n) = Rabs n * Vector.mag a /\
  Vector.mag (Vector.add a b) <= Vector.mag a + Vector.mag b /\
  Vector.dist a c <= Vector.dist a b + Vector.dist b c.
Proof.
  split; [apply dist_mag_sub |]. split.
  { unfold Vector.dist. f_equal. ring. }
  split.
  { unfold Vector.dist.
    replace ((Vector.x a - Vector.x a) ^ 2 + (Vector.y a - Vector.y a) ^ 2)
      with 0 by ring. apply sqrt_0. }
  split.
  { destruct a, b. unfold Vector.sub, Vector.add; cbn. f_equal; ring. }
  split.
  { destruct a, b. unfold Vector.sub, Vector.add; cbn. f_equal; ring. }
  split; [apply mag_mult |]. split; [apply mag_add_le |].
  rewrite !dist_mag_sub.
  replace (Vector.sub a c) with (Vector.add (Vector.sub a b) (Vector.sub b c)).
  - apply mag_add_le.
  - destruct a, b, c. unfold Vector.sub, Vector.add; cbn. f_equal; ring.
Qed.

(** ** Food, power-ups and bots as they are made *)

(** The clamp of the constructors of [Food] and [PowerUp]. *)
Lemma clamp_in_map (p : Vector) :
  Vector.mag (if decide (Vector.mag p > CONFIG.mapSize)
              then Vector.mult (Vector.norm p) (CONFIG.mapSize - 50)
              else p) <= CONFIG.mapSize.
Proof.
  case_decide as H; [| lra].
  rewrite mag_mult, mag_norm_unit.
  - unfold CONFIG.mapSize. rewrite Rabs_right; lra.
  - unfold CONFIG.mapSize in H. pose proof (mag_nonneg p). lra.
Qed.

Lemma new_Food_fields (x y : option R) (value : R) (w : World) :
  let f := fst (new_Food x y value w) in
  Vector.mag (Food.pos f) <= CONFIG.mapSize /\
  Food.value f = value /\ Food.radius f = 15 + value * 3.
Proof.
  unfold new_Food. unfold_M.
  destruct (coord_or_random x w) as [px w1].
  destruct (coord_or_random y w1) as [py w2].
  cbn [fst Food.pos Food.value Food.radius].
  split; [apply clamp_in_map | done].
Qed.

(** X2.  A food item, wherever it is asked for, is made inside the map: its
    distance from the origin is at most [CONFIG.mapSize] (a point outside
    is pulled back to the circle of radius [mapSize - 50]); it has the value
    given and the radius [15 + 3 * value].  A coordinate of exactly 0 is
    treated like a missing one and replaced by a random coordinate. *)
Theorem food_within_map (x y : option R) (value : R) (w : World) :
  let f := fst (new_Food x y value w) in
  Vector.mag (Food.pos f) <= CONFIG.mapSize /\
  Food.value f = value /\ Food.radius f = 15 + value * 3 /\
  new_Food (Some 0) y value w = new_Food None y value w /\
  new_Food x (Some 0) value w = new_Food x None value w.
Proof.
  destruct (new_Food_fields x y value w) as (A & B & C).
  split; [exact A |]. split; [exact B |]. split; [exact C |].
  unfold new_Food, coord_or_random. unfold_M.
  split; destruct (decide (0 = 0)); done.
Qed.

(** X3.  A power-up is made inside the map, with radius 40 and a multiplier
    of 2, 5 or 10; when the random source returns the same number [r] at
    every call, the multiplier is 2 for [r < 0.6], 5 for [r < 0.9] and 10
    otherwise. *)
Theorem powerup_as_made (x y : option R) (w : World) :
  let p := fst (new_PowerUp x y w) in
  Vector.mag (PowerUp.pos p) <= CONFIG.mapSize /\
  PowerUp.radius p = 40 /\
  (PowerUp.multiplier p = 2 \/ PowerUp.multiplier p = 5 \/
   PowerUp.multiplier p = 10) /\
  (forall r, random_stream w = (fun _ => r) ->
     PowerUp.multiplier p =
       (if decide (r < 0.6) then 2 else if decide (r < 0.9) then 5 else 10)).
Proof.
  unfold new_PowerUp. unfold_M.
  destruct (coord_or_random_world x w) as [n1 H1].
  destruct (coord_or_random x w) as [px w1]. cbn [snd] in H1. subst w1.
  destruct (coord_or_random_world y (set_random_pos w n1)) as [n2 H2].
  destruct (coord_or_random y _) as [py w2]. cbn [snd] in H2. subst w2.
  cbn [fst PowerUp.pos PowerUp.radius PowerUp.multiplier random_stream
       random_pos set_random_pos].
  split; [apply clamp_in_map |]. split; [done |]. split.
  - repeat case_decide; auto.
  - intros r ->. reflexivity.
Qed.

Lemma new_Snake_world (isBot : bool) (startScore : R) (w : World) :
  snd (new_Snake isBot startScore w) = set_random_pos w (random_pos w + 7).
Proof.
  unfold new_Snake. unfold_M. cbn [snd random_pos set_random_pos].
  unfold set_random_pos; cbn. f_equal. lia.
Qed.

Lemma bot_start_score_spec (w : World) :
  (random_in_range w -> 100 <= fst (bot_start_score w) < 1000000) /\
  snd (bot_start_score w) = set_random_pos w (random_pos w + 2).
Proof.
  unfold bot_start_score. unfold_M. split.
  - intros Hr. pose proof (Hr (S (random_pos w))) as H1.
    repeat case_decide; cbn [fst random_stream random_pos set_random_pos]; lra.
  - repeat case_decide; cbn [snd]; unfold set_random_pos; cbn; f_equal; lia.
Qed.

Lemma new_Bot_unfold (w : World) :
  new_Bot w =
  new_Snake true (fst (bot_start_score w)) (set_random_pos w (random_pos w + 4)).
Proof.
  unfold new_Bot, getRandomName.
  unfold mbind at 1, M_bind at 1.
  destruct (bot_start_score_spec w) as [_ Hw].
  destruct (bot_start_score w) as [s w1]. cbn [fst snd] in *. subst w1.
  unfold_M. cbn [random_pos set_random_pos]. f_equal.
  unfold set_random_pos; cbn. f_equal. lia.
Qed.

(** X4.  A bot is made alive, as a bot, with a starting score of at least 100
    and below 1000000, hence a width between 65 and 165; its width is the
    one of its score, its path has at most 400 points, and making it draws
    eleven random numbers and changes no other global. *)
Theorem bot_as_made (w : World) :
  random_in_range w ->
  let b := fst (new_Bot w) in
  100 <= Snake.score b < 1000000 /\
  Snake.isBot b = true /\ Snake.dead b = false /\
  Snake.width b = width_law (Snake.score b) /\
  65 <= Snake.width b <= 165 /\
  Snake.targetAngle b = Snake.angle b /\
  (length (Snake.path b) <= CONFIG.maxPathPoints)%nat /\
  snd (new_Bot w) = set_random_pos w (random_pos w + 11).
Proof.
  intros Hr b. subst b. rewrite new_Bot_unfold.
  destruct (bot_start_score_spec w) as [Hs _]. specialize (Hs Hr).
  set (sc := fst (bot_start_score w)) in *.
  set (w1 := set_random_pos w (random_pos w + 4)).
  destruct (new_Snake_fields true sc w1) as (_ & _ & Ht & Hsc & Hw & Hd & Hb & _).
  cbv zeta in *. rewrite Hsc, Hw, Hd, Hb.
  split; [exact Hs |]. split; [done |]. split; [done |]. split; [done |].
  split.
  - split.
    + rewrite <- width_law_100. apply width_law_mono. lra.
    + apply Rle_trans with (width_law 1000000); [apply width_law_mono; lra |].
      unfold width_law. rewrite Rmax_right by lra. rewrite log10_1000000.
      rewrite Rmin_right; lra.
  - split; [exact Ht |]. split; [apply new_Snake_path_length |].
    rewrite new_Snake_world. unfold w1, set_random_pos; cbn. f_equal. lia.
Qed.

Lemma sample_world_in_range (store : list Snake) (r : R) :
  0 <= r < 1 -> random_in_range (sample_world store r).
Proof. intros H n. exact H. Qed.

Lemma bot_as_made_witness :
  100 <= Snake.score (fst (new_Bot (sample_world [] 0.5))) < 1000000.
Proof.
  apply (bot_as_made (sample_world [] 0.5)).
  apply sample_world_in_range. lra.
Defined.

(** ** The body that the constructor lays out *)

Lemma prefill_lookup (fuel : nat) (pos dir : Vector) (startLen spacing : R) :
  forall (i : R) (k : nat) (p : Vector),
    prefill fuel pos dir startLen spacing i !! k = Some p ->
    p = Vector.add pos (Vector.mult dir (i + INR k * spacing)) /\
    i + INR k * spacing < startLen.
Proof.
  induction fuel as [| fuel IH]; intros i k p H; [done |].
  cbn [prefill] in H. case_decide as Hi; [| done].
  destruct k as [| k].
  - cbn in H. inversion H; subst.
    replace (i + INR 0 * spacing) with i by (simpl; lra). done.
  - cbn [lookup list_lookup] in H. apply IH in H.
    rewrite S_INR.
    replace (i + (INR k + 1) * spacing) with (i + spacing + INR k * spacing) by ring.
    exact H.
Qed.

Lemma prefill_head (fuel : nat) (pos dir : Vector) (startLen spacing : R) :
  (1 <= fuel)%nat -> 0 < startLen ->
  head (prefill fuel pos dir startLen spacing 0) = Some pos.
Proof.
  intros Hf Hl. destruct fuel as [| fuel]; [lia |]. cbn [prefill].
  case_decide; [| lra]. cbn. f_equal.
  destruct pos as [a b], dir as [c d]. unfold Vector.add, Vector.mult; cbn.
  f_equal; ring.
Qed.

Lemma prefill_fuel_pos (startLen spacing : R) :
  0 < startLen -> 0 < spacing -> (1 <= prefill_fuel startLen spacing)%nat.
Proof.
  intros Hl Hs. unfold prefill_fuel.
  assert (0 < startLen / spacing) by (apply Rdiv_lt_0_compat; lra).
  pose proof (Zceil_bound (startLen / spacing)) as [_ Hc].
  assert (0 < IZR (Zceil (startLen / spacing))) by lra.
  apply lt_IZR in H0. lia.
Qed.

(** X5.  The body of a new snake trails straight behind its head: the path
    point of index [k] is the head moved back by [k] half-widths against
    the heading, all points lie within the target length behind the head,
    and for a starting score above -2000 the first point is the head. *)
Theorem new_snake_body (isBot : bool) (startScore : R) (w : World) :
  let s := fst (new_Snake isBot startScore w) in
  (forall k p, Snake.path s !! k = Some p ->
     p = Vector.mk
           (Vector.x (Snake.pos s)
            - cos (Snake.angle s) * (INR k * (Snake.width s / 2)))
           (Vector.y (Snake.pos s)
            - sin (Snake.angle s) * (INR k * (Snake.width s / 2))) /\
     INR k * (Snake.width s / 2) < length_law startScore) /\
  (-2000 < startScore -> head (Snake.path s) = Some (Snake.pos s)).
Proof.
  intros s. subst s.
  destruct (new_Snake_fields isBot startScore w)
    as (_ & _ & _ & _ & Hw & _ & _ & Hp).
  cbv zeta in *. rewrite Hp, Hw.
  pose proof (width_law_bounds startScore) as [Hw40 _].
  split.
  - intros k p Hk. apply prefill_lookup in Hk as [-> Hlt].
    split; [| lra].
    unfold Vector.add, Vector.mult; cbn [Vector.x Vector.y]. f_equal; ring.
  - intros Hs.
    assert (0 < length_law startScore).
    { unfold length_law. apply Rmin_glb_lt; lra. }
    apply prefill_head; [apply prefill_fuel_pos |]; lra.
Qed.

Lemma new_snake_body_witness :
  head (Snake.path (fst (new_Snake false 100 (sample_world [] 0.5))))
  = Some (Snake.pos (fst (new_Snake false 100 (sample_world [] 0.5)))).
Proof.
  apply (new_snake_body false 100 (sample_world [] 0.5)). lra.
Defined.

(** ** Sampling *)

Lemma sample_loop_lookup (path : list Vector) (step : nat) :
  forall fuel i k, (k < fuel)%nat ->
    sample_loop fuel path step i !! k = path !! (i + k * step)%nat.
Proof.
  induction fuel as [| fuel IH]; intros i k Hk; [lia |].
  cbn [sample_loop]. destruct (path !! i) as [p |] eqn:Hi.
  - destruct k as [| k].
    + cbn. by rewrite Nat.add_0_r.
    + cbn [lookup list_lookup]. rewrite IH by lia. f_equal. lia.
  - apply lookup_ge_None in Hi. cbn. symmetry. apply lookup_ge_None. lia.
Qed.

Lemma sample_loop_length (path : list Vector) (step : nat) :
  forall fuel i, (length (sample_loop fuel path step i) <= fuel)%nat.
Proof.
  induction fuel as [| fuel IH]; intros i; cbn [sample_loop]; [done |].
  destruct (path !! i); cbn [length]; [| lia]. specialize (IH (i + step)%nat). lia.
Qed.

Lemma sample_path_lookup (step : nat) (path : list Vector) (k : nat) :
  (1 <= step)%nat -> sample_path step path !! k = path !! (k * step)%nat.
Proof.
  intros Hs. unfold sample_path.
  destruct (decide (k < length path)%nat) as [Hk | Hk].
  - by rewrite sample_loop_lookup.
  - rewrite lookup_ge_None_2.
    + symmetry. apply lookup_ge_None. nia.
    + pose proof (sample_loop_length path step (length path) 0). lia.
Qed.

(** X6.  Sampling a path at a stride of at least 1 visits the points of
    index 0, [step], [2 * step], ...: the sample of index [k] is the path
    point of index [k * step]; there are [ceil(length / step)] samples; and
    the newest point of a path is always sampled. *)
Theorem sample_path_spec (step : nat) (path : list Vector) :
  (1 <= step)%nat ->
  (forall k, sample_path step path !! k = path !! (k * step)%nat) /\
  length (sample_path step path) = ((length path + step - 1) / step)%nat /\
  head (sample_path step path) = head path.
Proof.
  intros Hs.
  assert (Hl : forall k, sample_path step path !! k = path !! (k * step)%nat)
    by (intros k; by apply sample_path_lookup).
  split; [exact Hl |]. split.
  - set (n := ((length path + step - 1) / step)%nat).
    assert (Hn : forall k, (k < n)%nat <-> (k * step < length path)%nat).
    { intros k. subst n.
      pose proof (Nat.div_mod_eq (length path + step - 1) step) as E.
      pose proof (Nat.mod_upper_bound (length path + step - 1) step ltac:(lia)).
      set (q := ((length path + step - 1) / step)%nat) in *.
      set (r := ((length path + step - 1) mod step)%nat) in *. nia. }
    assert (Hk : forall k, (k < length (sample_path step path))%nat
                           <-> (k < n)%nat).
    { intros k. rewrite Hn, <- !lookup_lt_is_Some, Hl. done. }
    destruct (Nat.lt_trichotomy (length (sample_path step path)) n)
      as [L | [E | L]]; [| done |].
    + apply Hk in L. lia.
    + apply Hk in L. lia.
  - rewrite !head_lookup. rewrite Hl. done.
Qed.

Lemma sample_path_spec_witness :
  length (sample_path 5 (Snake.path scan_example_other)) = 2%nat.
Proof.
  rewrite (proj1 (proj2 (sample_path_spec 5 (Snake.path scan_example_other)
                           ltac:(lia)))).
  reflexivity.
Defined.

(** ** More on the spatial hash *)

Section SpatialHashMore.
Context {A : Type}.
Variable pos : A -> Vector.
Import SpatialHash.

(** A cell holds the inserted objects of its key, in the order of insertion,
    after what it held before. *)
Lemma cell_at_insert_all (objs : list A) (h : SpatialHash.t A) (k : Z * Z) :
  cell_at (insert_all pos h objs) k
  = cell_at h k ++ filter (fun a => key h (pos a) = k) objs.
Proof.
  unfold insert_all. revert h. induction objs as [| o objs IH]; intros h; simpl.
  - by rewrite app_nil_r.
  - rewrite IH, cell_at_insert.
    assert (E : forall a, key (insert pos h o) (pos a) = key h (pos a))
      by (intros a; apply key_cellSize, cellSize_insert).
    assert (F : filter (fun a => key (insert pos h o) (pos a) = k) objs
                = filter (fun a => key h (pos a) = k) objs)
      by (apply list_filter_iff; intros a; by rewrite E).
    rewrite F.
    destruct (decide (key h (pos o) = k)) as [Hk | Hk].
    + rewrite filter_cons_True by done. by rewrite <- app_assoc.
    + by rewrite filter_cons_False by done.
Qed.

Lemma flat_map_bind {B C : Type} (f : B -> list C) (l : list B) :
  flat_map f l = l ≫= f.
Proof. induction l as [| b l IH]; [done |]. simpl. by rewrite IH. Qed.

Lemma cells_and_NoDup (c : R) (objs : list A) (rect : Rect) :
  NoDup objs ->
  let h := insert_all pos (new c) objs in
  (forall k, cell_at h k = filter (fun a => key h (pos a) = k) objs) /\
  NoDup (retrieve h rect).
Proof.
  intros Hnd h.
  assert (Hc : forall k, cell_at h k
                         = filter (fun a => key h (pos a) = k) objs).
  { intros k. subst h. rewrite cell_at_insert_all, cell_at_new. cbn [app].
    assert (E : forall a, key (insert_all pos (new c) objs) (pos a)
                          = key (new c) (pos a))
      by (intros a; apply key_cellSize, cellSize_insert_all).
    apply list_filter_iff. intros a. by rewrite E. }
  split; [exact Hc |].
  unfold retrieve. fold (cell_at h).
  change (fun x => flat_map (fun y => match grid h !! (x, y) with
                                      | Some cell => cell | None => [] end)
                            ?l)
    with (fun x => flat_map (fun y => cell_at h (x, y)) l).
  rewrite flat_map_bind. apply NoDup_bind; [| | apply NoDup_seqZ].
  - intros x1 x2 a _ _ H1 H2.
    rewrite flat_map_bind in H1, H2.
    apply list_elem_of_bind in H1 as (y1 & H1 & _).
    apply list_elem_of_bind in H2 as (y2 & H2 & _).
    rewrite Hc in H1, H2.
    apply list_elem_of_filter in H1 as [H1 _].
    apply list_elem_of_filter in H2 as [H2 _]. congruence.
  - intros x _. rewrite flat_map_bind. apply NoDup_bind; [| | apply NoDup_seqZ].
    + intros y1 y2 a _ _ H1 H2. rewrite Hc in H1, H2.
      apply list_elem_of_filter in H1 as [H1 _].
      apply list_elem_of_filter in H2 as [H2 _]. congruence.
    + intros y _. rewrite Hc. by apply NoDup_filter.
Qed.

(** X7.  After a sequence of distinct objects is inserted into an empty hash,
    each cell holds the objects of its key in the order of insertion, and a
    query returns no object twice. *)
Theorem retrieve_no_duplicates (c : R) (objs : list A) (rect : Rect) :
  NoDup objs ->
  let h := insert_all pos (new c) objs in
  (forall k, cell_at h k = filter (fun a => key h (pos a) = k) objs) /\
  NoDup (retrieve h rect).
Proof. apply cells_and_NoDup. Qed.

End SpatialHashMore.

Lemma retrieve_no_duplicates_witness :
  NoDup (SpatialHash.retrieve
           (SpatialHash.insert_all (fun _ : nat => Vector.mk 1500 2500)
              (SpatialHash.new 1000) [0%nat; 1%nat])
           (mkRect 0 0 5000 5000)).
Proof.
  apply (retrieve_no_duplicates (fun _ : nat => Vector.mk 1500 2500) 1000
           [0%nat; 1%nat] (mkRect 0 0 5000 5000)).
  apply NoDup_cons. split; [| apply NoDup_singleton].
  intros H. apply list_elem_of_singleton in H. discriminate.
Defined.

(** ** The hash that a tick builds *)

Lemma elem_of_live (w : World) (j : nat) :
  j ∈ filter (fun i => i = 0%nat \/ (Snake.dead <$> snakes w !! i) = Some false)
             (seq 0 (length (snakes w))) <->
  exists s, snakes w !! j = Some s /\ (j = 0%nat \/ Snake.dead s = false).
Proof.
  rewrite list_elem_of_filter, elem_of_seq. split.
  - intros [Hp Hj]. destruct (lookup_lt_is_Some_2 (snakes w) j ltac:(lia)) as [s Hs].
    exists s. split; [done |]. rewrite Hs in Hp. cbn in Hp.
    destruct Hp as [? | Hp]; [by left | right; congruence].
  - intros (s & Hs & Hp). split.
    + rewrite Hs. cbn. destruct Hp as [? | ->]; auto.
    + apply lookup_lt_Some in Hs. lia.
Qed.

(** X8.  The hash that [update] rebuilds at the start of a tick holds the
    player and the bots that are alive at that moment, each once: a query
    returns exactly those of them whose cell (taken from the head position)
    is in the range of the query, and none twice; a dead bot is never
    returned.  With a positive cell size, the query that the collision pass
    makes around a head returns the owner of that head. *)
Theorem rebuild_hash_spec (w : World) (rect : Rect) :
  let h := spatialHash (rebuild_hash w) in
  snakes (rebuild_hash w) = snakes w /\
  SpatialHash.cellSize h = SpatialHash.cellSize (spatialHash w) /\
  (forall j,
     j ∈ SpatialHash.retrieve h rect <->
     exists s, snakes w !! j = Some s /\ (j = 0%nat \/ Snake.dead s = false) /\
               in_cell_range h rect (SpatialHash.key h (Snake.pos s))) /\
  NoDup (SpatialHash.retrieve h rect) /\
  (0 < SpatialHash.cellSize (spatialHash w) ->
   forall j s, snakes w !! j = Some s -> (j = 0%nat \/ Snake.dead s = false) ->
     j ∈ SpatialHash.retrieve h
           (mkRect (Vector.x (Snake.pos s) - 100)
                   (Vector.y (Snake.pos s) - 100) 200 200)).
Proof.
  intros h.
  set (live := filter (fun i => i = 0%nat \/
                                (Snake.dead <$> snakes w !! i) = Some false)
                      (seq 0 (length (snakes w)))).
  assert (Eh : h = SpatialHash.insert_all (pos_at w)
                     (SpatialHash.new (SpatialHash.cellSize (spatialHash w))) live)
    by reflexivity.
  assert (Ec : SpatialHash.cellSize h = SpatialHash.cellSize (spatialHash w))
    by (rewrite Eh, cellSize_insert_all; reflexivity).
  assert (Hiff : forall r j,
     j ∈ SpatialHash.retrieve h r <->
     exists s, snakes w !! j = Some s /\ (j = 0%nat \/ Snake.dead s = false) /\
               in_cell_range h r (SpatialHash.key h (Snake.pos s))).
  { intros r j. rewrite Eh, retrieve_insert_all, <- Eh.
    unfold live. rewrite elem_of_live. split.
    - intros [(s & Hs & Hp) Hr]. exists s.
      split; [exact Hs |]. split; [exact Hp |].
      unfold pos_at in Hr. by rewrite Hs in Hr.
    - intros (s & Hs & Hp & Hr). split; [by exists s |].
      unfold pos_at. by rewrite Hs. }
  split; [reflexivity |]. split; [exact Ec |]. split; [apply Hiff |]. split.
  - rewrite Eh. apply cells_and_NoDup. unfold live.
    apply NoDup_filter, NoDup_seq.
  - intros Hc j s Hs Hp. apply Hiff. exists s.
    split; [exact Hs |]. split; [exact Hp |].
    assert (Hinv : 0 <= / SpatialHash.cellSize (spatialHash w))
      by (apply Rlt_le, Rinv_0_lt_compat; lra).
    unfold in_cell_range, SpatialHash.key, Math_floor.
    cbn [fst snd rect_x rect_y rect_w rect_h]. rewrite Ec.
    split_and!; apply Zfloor_le; (apply Rmult_le_compat_r; [exact Hinv | lra]).
Qed.

Lemma rebuild_hash_spec_witness :
  1%nat ∈ SpatialHash.retrieve (spatialHash scan_example_world)
            (mkRect (0 - 100) (0 - 100) 200 200).
Proof.
  apply (rebuild_hash_spec
           (sample_world [scan_example_other; scan_example_bot] 0.5)
           (mkRect 0 0 0 0)) with (s := scan_example_bot).
  - cbn. lra.
  - reflexivity.
  - by right.
Defined.

(** ** Turning, moving and growing *)

Lemma wrap_up_shift (fuel : nat) :
  forall diff, exists n : nat, wrap_up fuel diff = diff + INR n * (PI * 2).
Proof.
  induction fuel as [| fuel IH]; intros diff.
  - exists 0%nat. simpl. lra.
  - cbn [wrap_up]. case_decide.
    + destruct (IH (diff + PI * 2)) as [n ->]. exists (S n). rewrite S_INR. lra.
    + exists 0%nat. simpl. lra.
Qed.

Lemma wrap_down_shift (fuel : nat) :
  forall diff, exists n : nat, wrap_down fuel diff = diff - INR n * (PI * 2).
Proof.
  induction fuel as [| fuel IH]; intros diff.
  - exists 0%nat. simpl. lra.
  - cbn [wrap_down]. case_decide.
    + destruct (IH (diff - PI * 2)) as [n ->]. exists (S n). rewrite S_INR. lra.
    + exists 0%nat. simpl. lra.
Qed.

Lemma wrap_up_id (fuel : nat) (diff : R) : - PI < diff -> wrap_up fuel diff = diff.
Proof. intros H. destruct fuel; cbn [wrap_up]; [done |]. case_decide; [lra | done]. Qed.

Lemma wrap_down_id (fuel : nat) (diff : R) : diff <= PI -> wrap_down fuel diff = diff.
Proof. intros H. destruct fuel; cbn [wrap_down]; [done |]. case_decide; [lra | done]. Qed.

Lemma normalize_diff_id (d : R) : - PI < d <= PI -> normalize_diff d = d.
Proof.
  intros [H1 H2]. unfold normalize_diff.
  rewrite (wrap_up_id _ d H1). by apply wrap_down_id.
Qed.

(** X9.  The two loops of the turning physics bring any difference of
    headings into the interval (-PI, PI] by adding a whole number of turns
    of [2 * PI], and leave a difference that is already there as it is. *)
Theorem normalize_diff_spec (diff : R) :
  - PI < normalize_diff diff <= PI /\
  (exists k : Z, normalize_diff diff = diff + IZR k * (PI * 2)) /\
  (- PI < diff <= PI -> normalize_diff diff = diff) /\
  normalize_diff (normalize_diff diff) = normalize_diff diff.
Proof.
  assert (Hr : forall d, - PI < normalize_diff d <= PI).
  { intros d. unfold normalize_diff. split.
    - apply wrap_down_above, wrap_up_exits.
    - apply wrap_down_exits. }
  pose proof normalize_diff_id as Hid.
  split; [apply Hr |]. split; [| split; [apply Hid | apply Hid, Hr]].
  unfold normalize_diff.
  destruct (wrap_up_shift (wrap_up_fuel diff) diff) as [n ->].
  destruct (wrap_down_shift (wrap_down_fuel (diff + INR n * (PI * 2)))
              (diff + INR n * (PI * 2))) as [m ->].
  exists (Z.of_nat n - Z.of_nat m)%Z.
  rewrite minus_IZR, <- !INR_IZR_INZ. ring.
Qed.

Lemma normalize_diff_spec_witness : normalize_diff 1 = 1.
Proof.
  apply (normalize_diff_spec 1). pose proof PI2_1. lra.
Defined.

(** X10.  A turn never overshoots.  With a width above -10 and [dt >= 0] the
    turn amount [a = turnSpeed * 30 / (width + 10) * dt] is not negative;
    when the normalized difference [d] to the desired heading is smaller
    than [a] in absolute value the heading becomes the desired one, and
    otherwise it moves by exactly [a] in the direction of [d], which leaves
    a difference of absolute value [|d| - a].  Nothing else changes. *)
Theorem turn_no_overshoot (s : Snake) (dt : R) :
  -10 < Snake.width s -> 0 <= dt ->
  let d := normalize_diff (Snake.targetAngle s - Snake.angle s) in
  let a := CONFIG.turnSpeed * (30 / (Snake.width s + 10)) * dt in
  0 <= a /\
  (Rabs d < a -> Snake.angle (turn s dt) = Snake.targetAngle s) /\
  (a <= Rabs d ->
   Snake.angle (turn s dt) = Snake.angle s + Math_sign d * a /\
   Rabs (d - (Snake.angle (turn s dt) - Snake.angle s)) = Rabs d - a) /\
  turn s dt = Snake.set_angle s (Snake.angle (turn s dt)).
Proof.
  intros Hw Hdt d a.
  assert (Ha : 0 <= a).
  { subst a. unfold CONFIG.turnSpeed.
    assert (0 < 30 / (Snake.width s + 10)) by (apply Rdiv_lt_0_compat; lra).
    apply Rmult_le_pos; [| lra]. apply Rmult_le_pos; lra. }
  split; [exact Ha |].
  unfold turn. fold d. fold a.
  split; [| split].
  - intros H. destruct (decide (Rabs d < a)); [done | lra].
  - intros H. destruct (decide (Rabs d < a)); [lra |].
    cbn [Snake.angle Snake.set_angle]. split; [done |].
    replace (d - (Snake.angle s + Math_sign d * a - Snake.angle s))
      with (d - Math_sign d * a) by ring.
    unfold Math_sign. unfold Rabs in *.
    repeat case_decide; repeat destruct (Rcase_abs _); lra.
  - by destruct (decide (Rabs d < a)).
Qed.

Lemma turn_no_overshoot_witness :
  Snake.angle (turn (Snake.set_targetAngle
                       (sample_snake false (Vector.mk 0 0) 100) 0.1) 1)
  = 0.1.
Proof.
  set (s := Snake.set_targetAngle (sample_snake false (Vector.mk 0 0) 100) 0.1).
  assert (Hw : Snake.width s = 65) by apply width_law_100.
  destruct (turn_no_overshoot s 1 ltac:(rewrite Hw; lra) ltac:(lra))
    as (_ & H & _).
  apply H. rewrite Hw. cbn [Snake.targetAngle Snake.angle s Snake.set_targetAngle
                            sample_snake].
  replace (0.1 - 0) with 0.1 by lra.
  pose proof PI2_1.
  rewrite normalize_diff_id by lra.
  unfold CONFIG.turnSpeed. rewrite Rabs_right; lra.
Defined.

Lemma cos2_sin2 (a : R) : cos a * cos a + sin a * sin a = 1.
Proof. pose proof (sin2_cos2 a) as H. unfold Rsqr in H. lra. Qed.

(** X11.  In one update the head moves by exactly [speed * dt] (for
    [dt >= 0]), where the speed is [CONFIG.boostSpeed] for a boosting
    snake of score above 50 and otherwise [CONFIG.baseSpeed], or nine tenths
    of it for a bot wider than 100. *)
Theorem head_moves_speed_dt (s : Snake) (dt : R) (w : World) :
  0 <= dt ->
  let m := fst (kinematics s dt w) in
  let speed := if boosting s w && bool_decide (Snake.score s > 50)
               then CONFIG.boostSpeed else cruise_speed s in
  Vector.dist (Snake.pos m) (Snake.pos s) = speed * dt /\
  (speed = 900 \/ speed = 450 \/ speed = 405).
Proof.
  intros Hdt m speed.
  destruct (kinematics_spec s dt w) as (_ & _ & _ & _ & _ & _ & _ & _ & sp & Hp & Hs).
  fold m in Hp, Hs.
  assert (Esp : sp = speed).
  { subst speed. destruct (boosting s w && bool_decide (Snake.score s > 50));
      by destruct Hs. }
  assert (Hrange : speed = 900 \/ speed = 450 \/ speed = 405).
  { subst speed. unfold CONFIG.boostSpeed, cruise_speed, CONFIG.baseSpeed.
    destruct (boosting s w && bool_decide (Snake.score s > 50)); [by left |].
    destruct (Snake.isBot s && bool_decide (Snake.width s > 100));
      right; [right | left]; lra. }
  split; [| exact Hrange].
  rewrite Hp, Esp. unfold Vector.dist, Vector.add, Vector.mult.
  cbn [Vector.x Vector.y].
  set (c := cos (Snake.angle m)). set (sn := sin (Snake.angle m)).
  pose proof (cos2_sin2 (Snake.angle m)) as Hcs. fold c sn in Hcs.
  replace ((Vector.x (Snake.pos s) + c * (speed * dt) - Vector.x (Snake.pos s)) ^ 2
           + (Vector.y (Snake.pos s) + sn * (speed * dt) - Vector.y (Snake.pos s)) ^ 2)
    with ((c * c + sn * sn) * ((speed * dt) * (speed * dt))) by ring.
  rewrite Hcs, Rmult_1_l. apply sqrt_square.
  apply Rmult_le_pos; [| exact Hdt]. destruct Hrange as [-> | [-> | ->]]; lra.
Qed.

Lemma head_moves_speed_dt_witness :
  let s := sample_snake false (Vector.mk 0 0) 100 in
  let w := sample_world [s] 0.5 in
  Vector.dist (Snake.pos (fst (kinematics s 0.05 w))) (Snake.pos s)
  = 450 * 0.05.
Proof.
  intros s w.
  exact (proj1 (head_moves_speed_dt s 0.05 w ltac:(lra))).
Defined.

(** X12.  Width smoothing never overshoots.  For [0 <= dt <= 0.5] the new
    width lies between the old width and the target width of the score, and
    the gap to the target is the old gap times [1 - 2 * dt]. *)
Theorem width_smoothing (s : Snake) (dt : R) :
  0 <= dt <= 0.5 ->
  let s' := smooth_growth s dt in
  let t := calculateWidth s in
  Snake.targetWidth s' = t /\
  t - Snake.width s' = (1 - 2 * dt) * (t - Snake.width s) /\
  Rmin (Snake.width s) t <= Snake.width s' <= Rmax (Snake.width s) t.
Proof.
  intros Hdt s' t. subst s'. unfold smooth_growth. fold t. snake_fields.
  split; [done |]. split; [ring |].
  set (x := Snake.width s).
  replace (x + (t - x) * dt * 2) with ((1 - 2 * dt) * x + 2 * dt * t) by ring.
  assert (0 <= 1 - 2 * dt) by lra. assert (0 <= 2 * dt) by lra.
  unfold Rmin, Rmax. destruct (Rle_dec x t); split; nra.
Qed.

Lemma width_smoothing_witness :
  let s := Snake.set_width (sample_snake false (Vector.mk 0 0) 100) 45 in
  Rmin 45 (calculateWidth s) <= Snake.width (smooth_growth s 0.05)
  <= Rmax 45 (calculateWidth s).
Proof.
  intros s.
  exact (proj2 (proj2 (width_smoothing s 0.05 ltac:(lra)))).
Defined.

(** X13.  The width of a snake is always between 40 and 500: the constructor
    gives such a width, and [update], of a snake or of a bot, on a tick of at
    most 0.05 s keeps it. *)
Theorem width_stays_in_range :
  (forall isBot startScore w,
     40 <= Snake.width (fst (new_Snake isBot startScore w)) <= 500) /\
  (forall s dt w,
     0 <= dt <= 0.05 -> 40 <= Snake.width s <= 500 ->
     40 <= Snake.width (fst (Snake_update s dt w)) <= 500) /\
  (forall this s dt w,
     0 <= dt <= 0.05 -> 40 <= Snake.width s <= 500 ->
     40 <= Snake.width (fst (Bot_update this s dt w)) <= 500).
Proof.
  destruct width_in_range as [Hn Hu].
  split; [exact Hn |]. split; [exact Hu |].
  intros this s dt w Hdt Hw. unfold Bot_update.
  destruct (Snake.dead s); [done |]. unfold_M.
  destruct (shouldScan s w); [| by apply Hu].
  assert (Hs : Snake.width (fst (Bot_scan this s dt w)) = Snake.width s).
  { unfold Bot_scan. unfold_M.
    destruct (bounds_danger s); [done |].
    destruct (snake_danger this s w); [done |].
    unfold wander. unfold_M.
    repeat (case_decide; snake_fields);
      repeat match goal with
             | |- context [bool_decide ?P] => destruct (bool_decide P)
             | |- context [if Snake.wantBoost ?x then _ else _] =>
                 destruct (Snake.wantBoost x) eqn:?
             end; snake_fields; reflexivity. }
  destruct (Bot_scan this s dt w) as [s1 w1]. cbn [fst] in Hs.
  apply Hu; [done | by rewrite Hs].
Qed.

Lemma width_stays_in_range_witness :
  let s := sample_snake true (Vector.mk 0 0) 100 in
  40 <= Snake.width (fst (Bot_update 0 s 0.05 (sample_world [s] 0.5))) <= 500.
Proof.
  intros s.
  apply (proj2 (proj2 width_stays_in_range)); [lra |].
  change (Snake.width s) with (width_law 100). apply width_law_bounds.
Defined.

(** ** The score multiplier *)

(** After the decay no later step of [update] touches the multiplier. *)
Lemma Snake_update_multiplier (s : Snake) (dt : R) (w : World) :
  Snake.dead s = false ->
  Snake.multiplier (fst (Snake_update s dt w))
    = Snake.multiplier (decay_multiplier s dt) /\
  Snake.multiplierTimer (fst (Snake_update s dt w))
    = Snake.multiplierTimer (decay_multiplier s dt).
Proof.
  intros Hlive. unfold Snake_update. rewrite Hlive. unfold_M.
  rewrite kinematics_unfold.
  set (s1 := turn (decay_multiplier s dt) dt).
  assert (H1 : Snake.multiplier s1 = Snake.multiplier (decay_multiplier s dt) /\
               Snake.multiplierTimer s1
               = Snake.multiplierTimer (decay_multiplier s dt)).
  { subst s1. unfold turn. by case_decide. }
  pose proof (speed_and_boost_fst s1 dt w) as F.
  destruct (speed_and_boost s1 dt w) as [[s2 sp] w1]. cbn [fst snd] in *.
  assert (H2 : Snake.multiplier s2 = Snake.multiplier s1 /\
               Snake.multiplierTimer s2 = Snake.multiplierTimer s1).
  { destruct (boosting s1 w && bool_decide (Snake.score s1 > 50));
      inversion F; subst; done. }
  destruct H1 as [<- <-], H2 as [<- <-].
  case_decide.
  - destruct (die_spec (move s2 sp dt) w1) as (-> & _). done.
  - cbn [fst]. unfold smooth_growth, manage_path.
    destruct (head (Snake.path (move s2 sp dt))); repeat case_decide; done.
Qed.

(** X14.  The multiplier of a live snake decays in [update] and nowhere else
    in it: while the multiplier is above 1 its timer goes down by [dt], and
    the multiplier is reset to 1 as soon as the timer is at or below 0; a
    multiplier of at most 1 and its timer are left alone.  Hence after an
    update a multiplier above 1 always has time left. *)
Theorem multiplier_decay (s : Snake) (dt : R) (w : World) :
  Snake.dead s = false ->
  let s' := fst (Snake_update s dt w) in
  (Snake.multiplier s > 1 ->
   Snake.multiplierTimer s' = Snake.multiplierTimer s - dt /\
   (Snake.multiplierTimer s - dt <= 0 -> Snake.multiplier s' = 1) /\
   (Snake.multiplierTimer s - dt > 0 ->
    Snake.multiplier s' = Snake.multiplier s)) /\
  (Snake.multiplier s <= 1 ->
   Snake.multiplier s' = Snake.multiplier s /\
   Snake.multiplierTimer s' = Snake.multiplierTimer s) /\
  (Snake.multiplier s' > 1 -> Snake.multiplierTimer s' > 0).
Proof.
  intros Hlive s'. subst s'.
  destruct (Snake_update_multiplier s dt w Hlive) as [-> ->].
  unfold decay_multiplier.
  destruct (decide (Snake.multiplier s > 1)) as [Hm | Hm]; snake_fields.
  - destruct (decide (Snake.multiplierTimer s - dt <= 0)); snake_fields;
      (split; [intros _; repeat split; intros; lra |]);
      (split; [intros; lra |]); intros; lra.
  - split; [intros; lra |]. split; [done |]. intros; lra.
Qed.

Lemma multiplier_decay_witness :
  let s := Snake.set_multiplierTimer
             (Snake.set_multiplier (sample_snake false (Vector.mk 0 0) 100) 5)
             0.03 in
  Snake.multiplier (fst (Snake_update s 0.05 (sample_world [s] 0.5))) = 1.
Proof.
  intros s.
  destruct (multiplier_decay s 0.05 (sample_world [s] 0.5) eq_refl)
    as (H & _).
  cbn [s Snake.multiplier Snake.multiplierTimer Snake.set_multiplier
       Snake.set_multiplierTimer] in H.
  apply H; lra.
Defined.

(** The power-up loop reads the head and the width, which it does not
    change. *)
Lemma powerup_loop_frame (s : Snake) (ps : list PowerUp) :
  let s' := fst (powerup_loop s ps) in
  Snake.pos s' = Snake.pos s /\ Snake.width s' = Snake.width s /\
  Snake.score s' = Snake.score s /\ Snake.dead s' = Snake.dead s /\
  Snake.path s' = Snake.path s.
Proof.
  induction ps as [| p ps IH]; simpl; [done |].
  destruct (powerup_loop s ps) as [s1 r]. cbn [fst] in *.
  destruct (powerup_hit s1 p); cbn [fst]; snake_fields; exact IH.
Qed.

Lemma powerup_hit_frame (s s' : Snake) (p : PowerUp) :
  Snake.pos s' = Snake.pos s -> Snake.width s' = Snake.width s ->
  powerup_hit s' p = powerup_hit s p.
Proof. intros Hp Hw. unfold powerup_hit. by rewrite Hp, Hw. Qed.

(** X15.  The power-up loop removes exactly the power-ups within reach of the
    head (distance below half the width plus the radius of the power-up) and
    keeps the others in order.  When none is in reach the snake is
    unchanged; otherwise its timer is set to 10 and its multiplier to the
    one of the first power-up in reach, in the order of the array.  The score
    is never changed. *)
Theorem powerup_pickup (s : Snake) (ps : list PowerUp) :
  snd (powerup_loop s ps) = filter (fun p => powerup_hit s p = false) ps /\
  Snake.score (fst (powerup_loop s ps)) = Snake.score s /\
  ((forall p, p ∈ ps -> powerup_hit s p = false) ->
   fst (powerup_loop s ps) = s) /\
  (forall pre p post,
     ps = pre ++ p :: post ->
     (forall q, q ∈ pre -> powerup_hit s q = false) ->
     powerup_hit s p = true ->
     Snake.multiplier (fst (powerup_loop s ps)) = PowerUp.multiplier p /\
     Snake.multiplierTimer (fst (powerup_loop s ps)) = 10).
Proof.
  assert (Hhit : forall l p, powerup_hit (fst (powerup_loop s l)) p
                             = powerup_hit s p).
  { intros l p. destruct (powerup_loop_frame s l) as (Hp & Hw & _).
    by apply powerup_hit_frame. }
  split; [| split; [apply powerup_loop_frame | split]].
  - induction ps as [| p ps IH]; simpl; [done |].
    pose proof (Hhit ps p) as Hh.
    destruct (powerup_loop s ps) as [s1 r]. cbn [fst snd] in *. subst r.
    rewrite Hh. destruct (powerup_hit s p) eqn:Hp; cbn [snd].
    + by rewrite filter_cons_False by (rewrite Hp; done).
    + by rewrite filter_cons_True by done.
  - induction ps as [| p ps IH]; intros Hno; simpl; [done |].
    specialize (IH (fun q Hq => Hno q (list_elem_of_further _ _ _ Hq))).
    destruct (powerup_loop s ps) as [s1 r]. cbn [fst] in IH. rewrite IH.
    by rewrite (Hno p) by (apply elem_of_cons; auto).
  - intros pre. revert ps. induction pre as [| q pre IH]; intros ps p post -> Hpre Hp.
    + cbn [app powerup_loop]. pose proof (Hhit post p) as Hh.
      destruct (powerup_loop s post) as [s1 r]. cbn [fst] in *.
      rewrite Hh, Hp. done.
    + cbn [app powerup_loop].
      pose proof (Hhit (pre ++ p :: post) q) as Hh.
      specialize (IH (pre ++ p :: post) p post eq_refl
                    (fun x Hx => Hpre x (list_elem_of_further _ _ _ Hx)) Hp).
      destruct (powerup_loop s (pre ++ p :: post)) as [s1 r]. cbn [fst] in *.
      rewrite Hh, (Hpre q) by (apply elem_of_cons; auto). exact IH.
Qed.

Lemma powerup_pickup_witness :
  let s := sample_snake false (Vector.mk 0 0) 100 in
  let p := PowerUp.mk (Vector.mk 10 0) 5 40 in
  Snake.multiplier (fst (powerup_loop s [p])) = 5 /\
  Snake.multiplierTimer (fst (powerup_loop s [p])) = 10.
Proof.
  intros s p.
  apply (proj2 (proj2 (proj2 (powerup_pickup s [p]))) [] p []).
  - reflexivity.
  - intros q Hq. by apply elem_of_nil in Hq.
  - apply bool_decide_eq_true_2.
    change (Snake.width s) with (width_law 100). rewrite width_law_100.
    apply dist_lt_iff; cbn; lra.
Defined.

(** ** Particles and dropped food *)

Lemma spawnParticles_spec (p : Vector) (c : nat) (n : nat) :
  forall w, exists ps,
    particles (snd (spawnParticles p n c w)) = particles w ++ ps /\
    length ps = n /\
    Forall (fun q => Particle.pos q = p /\ Particle.life q = 1 /\
                     Particle.color q = c) ps /\
    (random_in_range w ->
     Forall (fun q => -100 <= Vector.x (Particle.vel q) < 100 /\
                      -100 <= Vector.y (Particle.vel q) < 100) ps) /\
    foods (snd (spawnParticles p n c w)) = foods w /\
    snakes (snd (spawnParticles p n c w)) = snakes w /\
    powerups (snd (spawnParticles p n c w)) = powerups w /\
    random_pos (snd (spawnParticles p n c w)) = (random_pos w + 2 * n)%nat.
Proof.
  induction n as [| n IH]; intros w.
  - exists []. cbn. rewrite app_nil_r. repeat split; auto; lia.
  - simpl. unfold_M. simpl.
    match goal with |- context [spawnParticles p n c ?w0] =>
      destruct (IH w0) as (ps & Hp & Hl & Hf & Hv & Hfo & Hs & Hpu & Hr) end.
    eexists (_ :: ps). rewrite Hp, Hfo, Hs, Hpu, Hr.
    cbn [particles foods snakes powerups random_pos set_particles set_random_pos].
    split; [by rewrite <- app_assoc |]. split; [cbn; by rewrite Hl |].
    split.
    { constructor; [| exact Hf]. cbn. by rewrite copy_id. }
    split; [| repeat split; lia].
    intros Hrange. constructor; [| apply Hv; exact Hrange].
    cbn. pose proof (Hrange (random_pos w)). pose proof (Hrange (S (random_pos w))).
    lra.
Qed.

(** X16.  [spawnParticles(pos, count, color)] appends exactly [count]
    particles, all at [pos] with life 1 and the colour given, each velocity
    component in [-100, 100); it draws two random numbers per particle and
    leaves food, power-ups and snakes alone. *)
Theorem particle_burst (p : Vector) (count c : nat) (w : World) :
  let w' := snd (spawnParticles p count c w) in
  exists ps,
    particles w' = particles w ++ ps /\
    length ps = count /\
    Forall (fun q => Particle.pos q = p /\ Particle.life q = 1 /\
                     Particle.color q = c) ps /\
    (random_in_range w ->
     Forall (fun q => -100 <= Vector.x (Particle.vel q) < 100 /\
                      -100 <= Vector.y (Particle.vel q) < 100) ps) /\
    foods w' = foods w /\ snakes w' = snakes w /\ powerups w' = powerups w /\
    random_pos w' = (random_pos w + 2 * count)%nat.
Proof. apply spawnParticles_spec. Qed.

Lemma dropFood_loop_spec (s : Snake) (pts : list Vector) :
  forall w, exists fs,
    foods (snd (dropFood_loop s pts w)) = foods w ++ fs /\
    length fs = length pts /\
    Forall (fun f => Food.value f = IZR (Z.max 1 (Math_floor (Snake.width s / 5)))
                     /\ Vector.mag (Food.pos f) <= CONFIG.mapSize) fs /\
    particles (snd (dropFood_loop s pts w)) = particles w /\
    snakes (snd (dropFood_loop s pts w)) = snakes w /\
    powerups (snd (dropFood_loop s pts w)) = powerups w.
Proof.
  induction pts as [| p pts IH]; intros w.
  - exists []. cbn. by rewrite app_nil_r.
  - simpl. unfold_M. simpl.
    match goal with |- context [new_Food ?a ?b ?v ?w0] =>
      destruct (new_Food_world a b v w0) as [n HF];
      pose proof (new_Food_fields a b v w0) as (Hm & Hv & _);
      destruct (new_Food a b v w0) as [f w1] end.
    cbn [fst snd] in *. subst w1.
    match goal with |- context [dropFood_loop s pts ?w0] =>
      destruct (IH w0) as (fs & Hf & Hl & Hall & Hp & Hs & Hpu) end.
    exists (f :: fs). rewrite Hf, Hp, Hs, Hpu.
    cbn [foods particles snakes powerups set_foods set_random_pos].
    split; [by rewrite <- app_assoc |]. split; [cbn; by rewrite Hl |].
    split; [| done]. constructor; [| exact Hall]. done.
Qed.

(** X17.  [dropFood(snake)] appends one food item for each sampled point of
    the path (stride [max(1, floor(width / 10))]), each of value
    [max(1, floor(width / 5))], which is at least 1, and each inside the
    map; particles, power-ups and snakes are left alone. *)
Theorem food_drop (s : Snake) (w : World) :
  let w' := snd (dropFood s w) in
  let step := Z.to_nat (Z.max 1 (Math_floor (Snake.width s / 10))) in
  exists fs,
    foods w' = foods w ++ fs /\
    length fs = length (sample_path step (Snake.path s)) /\
    Forall (fun f => Food.value f = IZR (Z.max 1 (Math_floor (Snake.width s / 5)))
                     /\ 1 <= Food.value f
                     /\ Vector.mag (Food.pos f) <= CONFIG.mapSize) fs /\
    particles w' = particles w /\ snakes w' = snakes w /\
    powerups w' = powerups w.
Proof.
  intros w' step. subst w'. unfold dropFood. fold step.
  destruct (dropFood_loop_spec s (sample_path step (Snake.path s)) w)
    as (fs & Hf & Hl & Hall & Hp & Hs & Hpu).
  exists fs. repeat (split; [done |]). split; [| done].
  eapply Forall_impl; [exact Hall |]. intros f [Hv Hm].
  split; [done |]. split; [| done]. rewrite Hv. apply IZR_le. lia.
Qed.

(** The particle loop is one step of ageing followed by the removal of the
    particles whose life is used up. *)
Lemma particles_loop_aged (dt : R) (ps : list Particle) :
  particles_loop dt ps = filter (fun p => 0 < Particle.life p) (aged dt <$> ps).
Proof.
  induction ps as [| p ps IH]; [done |].
  cbn [particles_loop fmap list_fmap]. rewrite IH.
  fold (aged dt p). case_decide as H.
  - rewrite filter_cons_False by lra. done.
  - rewrite filter_cons_True by lra. done.
Qed.

(** X18.  The particle loop of [update] ages every particle by [dt] (it moves
    by [vel * dt] and loses [2 * dt] of life) and removes those whose life
    is used up, keeping the order, so that every particle left has a
    positive life.  The particles left are exactly the aged forms of those
    that had more than [2 * dt] of life: when all have that much the loop
    only ages them, and when none has, the array is emptied. *)
Theorem particles_age (dt : R) (ps : list Particle) :
  particles_loop dt ps = filter (fun p => 0 < Particle.life p) (aged dt <$> ps) /\
  Forall (fun p => 0 < Particle.life p) (particles_loop dt ps) /\
  (length (particles_loop dt ps) <= length ps)%nat /\
  particles_loop dt ps
    = aged dt <$> filter (fun p => dt * 2 < Particle.life p) ps /\
  (Forall (fun p => dt * 2 < Particle.life p) ps ->
   particles_loop dt ps = aged dt <$> ps) /\
  (Forall (fun p => Particle.life p <= dt * 2) ps -> particles_loop dt ps = []).
Proof.
  assert (E : particles_loop dt ps
              = aged dt <$> filter (fun p => dt * 2 < Particle.life p) ps).
  { rewrite particles_loop_aged. induction ps as [| p ps IH]; [done |].
    cbn [fmap list_fmap]. destruct (decide (dt * 2 < Particle.life p)) as [H | H].
    - rewrite filter_cons_True by (cbn [aged Particle.life]; lra).
      rewrite (filter_cons_True (fun p => dt * 2 < Particle.life p)) by done.
      cbn [fmap list_fmap]. by rewrite IH.
    - rewrite filter_cons_False by (cbn [aged Particle.life]; lra).
      rewrite (filter_cons_False (fun p => dt * 2 < Particle.life p)) by done.
      exact IH. }
  split; [apply particles_loop_aged |]. split; [| split; [| split; [| split]]].
  - rewrite particles_loop_aged. apply Forall_forall. intros p Hp.
    by apply list_elem_of_filter in Hp as [Hp _].
  - rewrite particles_loop_aged.
    etrans; [apply length_filter |]. by rewrite length_fmap.
  - exact E.
  - intros Hall. rewrite E. f_equal. clear E.
    induction Hall as [| p ps Hp Hall IH]; [done |].
    rewrite filter_cons_True by done. by rewrite IH.
  - intros Hall. rewrite E. clear E.
    induction Hall as [| p ps Hp Hall IH]; [done |].
    rewrite filter_cons_False by lra. exact IH.
Qed.

Lemma particles_age_witness :
  particles_loop 0.03125
    [Particle.mk (Vector.mk 0 0) (Vector.mk 100 0) 1 0;
     Particle.mk (Vector.mk 8 8) (Vector.mk 0 64) 0.0625 1]
  = [Particle.mk (Vector.mk 3.125 0) (Vector.mk 100 0) 0.9375 0].
Proof.
  rewrite (proj1 (proj2 (proj2 (proj2 (particles_age 0.03125
             [Particle.mk (Vector.mk 0 0) (Vector.mk 100 0) 1 0;
              Particle.mk (Vector.mk 8 8) (Vector.mk 0 64) 0.0625 1]))))).
  rewrite filter_cons_True by (cbn [Particle.life]; lra).
  rewrite filter_cons_False by (cbn [Particle.life]; lra).
  cbn [fmap list_fmap]. unfold aged, Vector.add, Vector.mult.
  cbn [Particle.pos Particle.vel Particle.life Particle.color Vector.x Vector.y].
  f_equal. f_equal; [f_equal; lra | lra].
Defined.

(** ** What an update does to the globals *)

Lemma speed_and_boost_world (s : Snake) (dt : R) (w : World) :
  let w' := snd (speed_and_boost s dt w) in
  effects_only w w' /\ particles w' = particles w /\
  (foods w' = foods w \/
   exists f, foods w' = foods w ++ [f] /\ Food.value f = 0.5 /\
             Vector.mag (Food.pos f) <= CONFIG.mapSize).
Proof.
  unfold speed_and_boost. unfold_M.
  destruct (boosting s w && bool_decide (Snake.score s > 50));
    [| split; [apply effects_only_refl | split; [done | by left]]].
  cbn [fst snd]. case_decide.
  - cbn [Snake.path Snake.set_score].
    destruct (last (Snake.path s)) as [tail |].
    + match goal with |- context [new_Food ?a ?b ?v ?w0] =>
        destruct (new_Food_world a b v w0) as [n HF];
        pose proof (new_Food_fields a b v w0) as (Hm & Hv & _);
        destruct (new_Food a b v w0) as [f w1] end.
      cbn [fst snd] in *. subst w1. split; [| split; [done |]].
      * eapply effects_only_trans; [apply (effects_only_random_pos w n) |].
        by apply effects_only_push_food.
      * right. exists f. done.
    + cbn [snd]. split; [apply effects_only_random_pos | split; [done | by left]].
  - cbn [snd]. split; [apply effects_only_random_pos | split; [done | by left]].
Qed.

Lemma Snake_update_world (s : Snake) (dt : R) (w : World) :
  let s' := fst (Snake_update s dt w) in
  let w' := snd (Snake_update s dt w) in
  effects_only w w' /\
  (Snake.dead s = true -> s' = s /\ w' = w) /\
  (Snake.dead s' = false ->
   particles w' = particles w /\
   (foods w' = foods w \/
    exists f, foods w' = foods w ++ [f] /\ Food.value f = 0.5 /\
              Vector.mag (Food.pos f) <= CONFIG.mapSize) /\
   (boosting s w && bool_decide (Snake.score s > 50) = false -> w' = w)).
Proof.
  intros s' w'. subst s' w'. unfold Snake_update.
  destruct (Snake.dead s) eqn:Hd.
  { split; [apply effects_only_refl |]. split; [done |]. intros _.
    split; [done |]. split; [by left | done]. }
  unfold_M. rewrite kinematics_unfold.
  set (s1 := turn (decay_multiplier s dt) dt).
  pose proof (speed_and_boost_world s1 dt w) as (E & P & F).
  pose proof (speed_and_boost_idle s1 dt w) as Idle.
  assert (B : boosting s1 w && bool_decide (Snake.score s1 > 50)
              = boosting s w && bool_decide (Snake.score s > 50)).
  { destruct (decay_multiplier_frame s dt) as (D1 & _ & _ & _ & D5 & _ & _ & _ & _ & _ & D11).
    destruct (turn_frame (decay_multiplier s dt) dt) as (T1 & _ & _ & T4 & _ & _ & _ & _ & _ & T10).
    cbv zeta in *. unfold boosting. fold s1 in T1, T4, T10.
    by rewrite T1, T4, T10, D1, D5, D11. }
  rewrite B in Idle.
  destruct (speed_and_boost s1 dt w) as [[s2 sp] w1]. cbn [fst snd] in *.
  case_decide.
  - destruct (die_spec (move s2 sp dt) w1) as (Ds & De & _).
    split; [eapply effects_only_trans; eauto |]. split; [done |].
    rewrite Ds. cbn. done.
  - cbn [fst snd]. split; [exact E |]. split; [done |]. intros _.
    split; [exact P |]. split; [exact F |].
    intros Hb. specialize (Idle Hb). by inversion Idle.
Qed.



(** ** The schedule of the bot scans *)

Lemma mod5_slot (n : nat) :
  ((5 - n mod 5) mod 5 < 5 /\ (n + (5 - n mod 5) mod 5) mod 5 = 0 /\
  forall k', k' < 5 -> (n + k') mod 5 = 0 -> k' = (5 - n mod 5) mod 5)%nat.
Proof.
  pose proof (Nat.mod_upper_bound n 5 ltac:(lia)) as U.
  assert (S : forall k, ((n + k) mod 5 = (n mod 5 + k) mod 5)%nat)
    by (intros k; symmetry; apply Nat.Div0.add_mod_idemp_l).
  set (r := (n mod 5)%nat) in *. clearbody r.
  do 5 (destruct r as [| r]; [
    split; [cbn; lia |]; split; [rewrite S; reflexivity |];
    intros k' Hk' H'; rewrite S in H';
    do 5 (destruct k' as [| k']; [first [reflexivity | discriminate H'] |]); lia |]).
  lia.
Qed.

Lemma mod5_same (a b : nat) :
  (forall g, ((g + a) mod 5 =? 0) = ((g + b) mod 5 =? 0))%nat
  <-> (a mod 5 = b mod 5)%nat.
Proof.
  split.
  - intros H. destruct (mod5_slot a) as (_ & Ha & _).
    specialize (H ((5 - a mod 5) mod 5)%nat).
    rewrite (Nat.add_comm _ a), Ha in H.
    change (0 =? 0)%nat with true in H. symmetry in H.
    apply Nat.eqb_eq in H. rewrite Nat.add_comm in H.
    destruct (mod5_slot b) as (Ub & _ & Hb).
    apply Hb in H; [| apply Nat.mod_upper_bound; lia].
    pose proof (Nat.mod_upper_bound a 5 ltac:(lia)).
    pose proof (Nat.mod_upper_bound b 5 ltac:(lia)).
    set (x := (a mod 5)%nat) in *. set (y := (b mod 5)%nat) in *.
    clearbody x y.
    do 5 (destruct x as [| x];
          [do 5 (destruct y as [| y];
                 [first [reflexivity | discriminate H] |]); lia |]).
    lia.
  - intros H g.
    rewrite <- (Nat.Div0.add_mod_idemp_r g a), <- (Nat.Div0.add_mod_idemp_r g b).
    rewrite H. reflexivity.
Qed.

(** X20.  A bot scans on exactly one frame in every five: among any five
    consecutive values of [frameCount] exactly one makes [shouldScan] true,
    and the schedule repeats with period 5.  Two bots scan on the same
    frames exactly when their ids are equal modulo 5. *)
Theorem scan_every_fifth_frame (s : Snake) (w : World) (f : nat) :
  (exists k, (k < 5)%nat /\
     shouldScan s (set_frameCount w (f + k)) = true /\
     forall k', (k' < 5)%nat ->
       shouldScan s (set_frameCount w (f + k')) = true -> k' = k) /\
  shouldScan s (set_frameCount w (f + 5)) = shouldScan s (set_frameCount w f) /\
  (forall s2,
     (forall g, shouldScan s (set_frameCount w g)
                = shouldScan s2 (set_frameCount w g)) <->
     (Snake.id s mod 5 = Snake.id s2 mod 5)%nat).
Proof.
  unfold shouldScan, set_frameCount; cbn [frameCount].
  split; [| split].
  - destruct (mod5_slot (f + Snake.id s)) as (Hk & H0 & Hu).
    exists ((5 - (f + Snake.id s) mod 5) mod 5)%nat.
    split; [exact Hk |]. split.
    + apply Nat.eqb_eq.
      set (k := ((5 - (f + Snake.id s) mod 5) mod 5)%nat) in *.
      replace (f + k + Snake.id s)%nat with (f + Snake.id s + k)%nat by lia.
      exact H0.
    + intros k' Hk' H'. apply Nat.eqb_eq in H'. apply Hu; [exact Hk' |].
      replace (f + Snake.id s + k')%nat with (f + k' + Snake.id s)%nat by lia.
      exact H'.
  - replace (f + 5 + Snake.id s)%nat with (f + Snake.id s + 1 * 5)%nat by lia.
    by rewrite Nat.Div0.mod_add.
  - intros s2. apply mod5_same.
Qed.

(** ** Steering away from the boundary *)

Lemma sqrt_one_plus_sq (a b : R) :
  a <> 0 -> sqrt (1 + (b / a)²) = sqrt (a * a + b * b) / Rabs a.
Proof.
  intros Ha. assert (Hab : 0 < Rabs a) by (by apply Rabs_pos_lt).
  assert (Hs : Rabs a * Rabs a = a * a).
  { unfold Rabs. destruct (Rcase_abs a); ring. }
  apply sqrt_lem_1.
  - unfold Rsqr. nra.
  - apply Rmult_le_pos; [apply sqrt_pos |]. apply Rlt_le, Rinv_0_lt_compat, Hab.
  - unfold Rdiv.
    replace (sqrt (a * a + b * b) * / Rabs a * (sqrt (a * a + b * b) * / Rabs a))
      with (sqrt (a * a + b * b) * sqrt (a * a + b * b) * / (Rabs a * Rabs a))
      by (field; lra).
    rewrite sqrt_sqrt by apply sum_squares_nonneg. rewrite Hs.
    unfold Rsqr. field. exact Ha.
Qed.

(** [Math.atan2(b, a)] is the angle of the direction [(a, b)]. *)
Lemma atan2_direction (a b : R) :
  a <> 0 \/ b <> 0 ->
  cos (Math_atan2 b a) = a / sqrt (a * a + b * b) /\
  sin (Math_atan2 b a) = b / sqrt (a * a + b * b).
Proof.
  intros Hne. set (r := sqrt (a * a + b * b)).
  assert (Hr : 0 < r).
  { apply sqrt_lt_R0. destruct Hne; nra. }
  unfold Math_atan2.
  destruct (decide (a > 0)) as [Hp | Hp].
  - rewrite cos_atan, sin_atan, sqrt_one_plus_sq by lra. fold r.
    rewrite Rabs_right by lra. split; field; lra.
  - destruct (decide (a < 0)) as [Hn | Hn].
    + assert (C : cos (atan (b / a)) = - a / r).
      { rewrite cos_atan, sqrt_one_plus_sq by lra. fold r.
        rewrite Rabs_left by lra. field; lra. }
      assert (S : sin (atan (b / a)) = - b / r).
      { rewrite sin_atan, sqrt_one_plus_sq by lra. fold r.
        rewrite Rabs_left by lra. field; lra. }
      destruct (decide (b < 0)).
      * rewrite cos_minus, sin_minus, cos_PI, sin_PI, C, S. split; field; lra.
      * rewrite neg_cos, neg_sin, C, S. split; field; lra.
    + assert (a = 0) as -> by lra.
      assert (Hr2 : r * r = b * b)
        by (unfold r; rewrite sqrt_sqrt by apply sum_squares_nonneg; ring).
      clearbody r.
      destruct (decide (b > 0)) as [Hb | Hb].
      * rewrite cos_PI2, sin_PI2. assert (E : r = b) by nra. rewrite E.
        split; field; lra.
      * destruct (decide (b < 0)) as [Hb' | Hb']; [| destruct Hne; lra].
        rewrite cos_neg, sin_neg, cos_PI2, sin_PI2.
        assert (E : r = - b) by nra. rewrite E. split; field; lra.
Qed.

Lemma atan2_range (a b : R) : - PI < Math_atan2 b a <= PI.
Proof.
  pose proof PI_RGT_0 as Hpi. pose proof (atan_bound (b / a)) as Hat.
  unfold Math_atan2.
  destruct (decide (a > 0)); [lra |].
  destruct (decide (a < 0)) as [Ha | Ha].
  - destruct (decide (b < 0)) as [Hb | Hb].
    + assert (Hq : 0 < b / a).
      { unfold Rdiv. replace (b * / a) with ((- b) * / (- a)) by (field; lra).
        apply Rmult_lt_0_compat; [lra |]. apply Rinv_0_lt_compat. lra. }
      pose proof (atan_increasing 0 (b / a) Hq) as Hinc.
      rewrite atan_0 in Hinc. lra.
    + assert (Hq : b / a <= 0).
      { unfold Rdiv. replace (b * / a) with (- (b * / (- a))) by (field; lra).
        assert (0 <= b * / - a); [| lra].
        apply Rmult_le_pos; [lra |]. apply Rlt_le, Rinv_0_lt_compat. lra. }
      assert (Hle : atan (b / a) <= 0).
      { destruct Hq as [Hq | Hq].
        - pose proof (atan_increasing (b / a) 0 Hq) as Hinc.
          rewrite atan_0 in Hinc. lra.
        - rewrite Hq, atan_0. lra. }
      lra.
  - repeat case_decide; lra.
Qed.

(** X21.  On a scan with boundary danger (the probe point more than
    [mapSize - 200] from the origin) the bot asks for a boost and sets its
    desired heading to the direction of the origin: the angle is in
    (-PI, PI] and, for a head that is not at the origin, going the distance
    of the head from the origin along it ends at the origin.  No random
    number is drawn and no global changes. *)
Theorem bot_turns_to_centre (this : nat) (s : Snake) (dt : R) (w : World) :
  bounds_danger s = true ->
  let s' := fst (Bot_scan this s dt w) in
  let t := Snake.targetAngle s' in
  snd (Bot_scan this s dt w) = w /\
  Snake.wantBoost s' = true /\
  - PI < t <= PI /\
  (Snake.pos s <> Vector.mk 0 0 ->
   Vector.add (Snake.pos s)
     (Vector.mult (Vector.mk (cos t) (sin t)) (Vector.mag (Snake.pos s)))
   = Vector.mk 0 0) /\
  s' = Snake.set_wantBoost (Snake.set_targetAngle s t) true.
Proof.
  intros Hb s' t. subst t s'. unfold Bot_scan. unfold_M. rewrite Hb.
  cbn [fst snd]. snake_fields. unfold Vector.sub; cbn [Vector.x Vector.y].
  split; [done |]. split; [done |]. split; [apply atan2_range |].
  split; [| done]. intros Hne.
  destruct (Snake.pos s) as [x y] eqn:Hp. cbn [Vector.x Vector.y].
  assert (Hxy : 0 - x <> 0 \/ 0 - y <> 0).
  { destruct (decide (x = 0)) as [-> | ?]; [| left; lra].
    destruct (decide (y = 0)) as [-> | ?]; [done | right; lra]. }
  destruct (atan2_direction (0 - x) (0 - y) Hxy) as [-> ->].
  unfold Vector.mag, Vector.add, Vector.mult; cbn [Vector.x Vector.y].
  replace ((0 - x) * (0 - x) + (0 - y) * (0 - y)) with (x * x + y * y) by ring.
  assert (0 < sqrt (x * x + y * y)).
  { apply sqrt_lt_R0. destruct Hxy; nra. }
  f_equal; field; lra.
Qed.

Lemma near_edge_danger :
  bounds_danger (sample_snake true (Vector.mk 99900 0) 100) = true.
Proof.
  apply bool_decide_eq_true_2.
  unfold checkPos, lookDist, sample_snake. snake_fields.
  rewrite cos_0, sin_0, width_law_100. unfold Vector.add, Vector.mult; simpl.
  apply mag_gt_iff; unfold CONFIG.mapSize; cbn [Vector.x Vector.y]; nra.
Qed.

Lemma bot_turns_to_centre_witness :
  Snake.wantBoost
    (fst (Bot_scan 0 (sample_snake true (Vector.mk 99900 0) 100) 0.05
            (sample_world [] 0.5))) = true.
Proof.
  apply (bot_turns_to_centre 0 (sample_snake true (Vector.mk 99900 0) 100) 0.05
           (sample_world [] 0.5) near_edge_danger).
Defined.

(** ** The collision pass as a whole *)

Lemma snake_kept_refl (s : Snake) : snake_kept s s.
Proof. by repeat split. Qed.

Lemma snake_kept_trans (a b c : Snake) :
  snake_kept a b -> snake_kept b c -> snake_kept a c.
Proof.
  intros (A1 & A2 & A3 & A4 & A5) (B1 & B2 & B3 & B4 & B5).
  repeat split; try congruence.
  intros Hd. specialize (A5 Hd). subst b. by apply B5.
Qed.

Lemma collisions_keep_refl (w : World) : collisions_keep w w.
Proof.
  split; [| split; [done |]].
  - apply Forall2_same_length_lookup. split; [done |].
    intros i a b Ha Hb. rewrite Ha in Hb. inversion Hb; subst.
    apply snake_kept_refl.
  - exists []. by rewrite app_nil_r.
Qed.

Lemma collisions_keep_trans (w1 w2 w3 : World) :
  collisions_keep w1 w2 -> collisions_keep w2 w3 -> collisions_keep w1 w3.
Proof.
  intros (A & Ah & pa & Ap & Al) (B & Bh & pb & Bp & Bl).
  split; [| split; [congruence |]].
  - apply Forall2_same_length_lookup.
    apply Forall2_same_length_lookup in A as [LA A].
    apply Forall2_same_length_lookup in B as [LB B].
    split; [congruence |]. intros i a c Ha Hc.
    destruct (lookup_lt_is_Some_2 (snakes w2) i) as [b Hb].
    { rewrite <- LA. by eapply lookup_lt_Some. }
    eapply snake_kept_trans; eauto.
  - exists (pa ++ pb). rewrite Bp, Ap, app_assoc. split; [done |].
    by apply Forall_app.
Qed.

(** Writing a kept snake back to its place keeps the store. *)
Lemma store_insert_kept (l : list Snake) (i : nat) (s s' : Snake) :
  l !! i = Some s -> snake_kept s s' -> Forall2 snake_kept l (<[i := s']> l).
Proof.
  intros Hi Hk. apply Forall2_same_length_lookup.
  split; [by rewrite length_insert |].
  intros j a b Ha Hb. destruct (decide (i = j)) as [-> | Hne].
  - rewrite list_lookup_insert_eq in Hb by (by eapply lookup_lt_Some).
    rewrite Hi in Ha. inversion Ha; inversion Hb; by subst.
  - rewrite list_lookup_insert_ne in Hb by done.
    rewrite Ha in Hb. inversion Hb; subst. apply snake_kept_refl.
Qed.

Lemma set_dead_kept (s : Snake) : snake_kept s (Snake.set_dead s true).
Proof.
  repeat split. intros Hd. destruct s; cbn in *. by subst.
Qed.

Lemma pickups_at_keep (i : nat) (w : World) :
  collisions_keep w (snd (pickups_at i w)).
Proof.
  unfold pickups_at. unfold_M.
  destruct (snakes w !! i) as [s |] eqn:Hi; [| apply collisions_keep_refl].
  destruct (Snake.dead s) eqn:Hd; [apply collisions_keep_refl |].
  rewrite food_loop_spec.
  pose proof (powerup_loop_frame
                (Snake.set_score s (Snake.score s + gained s (foods w)))
                (powerups w)) as (P1 & P2 & _ & P4 & P5).
  assert (P6 : Snake.isBot (fst (powerup_loop
                 (Snake.set_score s (Snake.score s + gained s (foods w)))
                 (powerups w))) = Snake.isBot s).
  { generalize (powerups w). intros ps.
    induction ps as [| p ps IH]; simpl; [done |].
    destruct (powerup_loop _ ps) as [s1 r]. cbn [fst] in *.
    by destruct (powerup_hit s1 p). }
  destruct (powerup_loop _ (powerups w)) as [s2 ps]. cbn [fst snd] in *.
  split; [| split; [done | exists []; by rewrite app_nil_r]].
  cbn [snakes set_powerups set_foods set_snakes].
  apply (store_insert_kept _ _ s); [done |].
  repeat split; try done. intros Hdead. congruence.
Qed.

(** The branch of a hit, in full. *)
Lemma hit_branch_keep (i : nat) (s1 : Snake) (w : World) :
  snakes w !! i = Some s1 ->
  collisions_keep w
    (snd ((modify (fun w => set_snakes w (<[i := Snake.set_dead s1 true]> (snakes w)));;
           spawnParticles (Snake.pos (Snake.set_dead s1 true)) 50
                          (Snake.color (Snake.set_dead s1 true));;
           dropFood (Snake.set_dead s1 true)) w)).
Proof.
  intros Hi. unfold dropFood. unfold_M.
  set (w0 := set_snakes w (<[i := Snake.set_dead s1 true]> (snakes w))).
  destruct (spawnParticles_spec (Snake.pos (Snake.set_dead s1 true))
              (Snake.color (Snake.set_dead s1 true)) 50 w0)
    as (ps & Hp & _ & Hall & _ & _ & Hs & _).
  pose proof (spawnParticles_effects (Snake.pos (Snake.set_dead s1 true)) 50
                (Snake.color (Snake.set_dead s1 true)) w0) as ((_ & _ & Hh & _) & _).
  destruct (spawnParticles _ _ _ w0) as [[] w1]. cbn [fst snd] in *.
  match goal with |- context [dropFood_loop ?a ?b w1] =>
    destruct (dropFood_loop_spec a b w1) as (fs & _ & _ & _ & Hp2 & Hs2 & _);
    pose proof (dropFood_loop_effects a b w1) as ((_ & _ & Hh2 & _) & _);
    destruct (dropFood_loop a b w1) as [[] w2] end.
  cbn [fst snd] in *.
  split; [| split].
  - rewrite Hs2, Hs. subst w0. cbn [snakes set_snakes].
    apply (store_insert_kept _ _ s1); [done | apply set_dead_kept].
  - rewrite Hh2, Hh. reflexivity.
  - exists ps. rewrite Hp2, Hp. split; [done |].
    eapply Forall_impl; [exact Hall |]. by intros q (_ & Hq & _).
Qed.

Lemma scan_nearby_keep (i : nat) (nearby : list nat) (w : World) :
  collisions_keep w (snd (scan_nearby i nearby w)).
Proof.
  induction nearby as [| j rest IH]; [apply collisions_keep_refl |].
  rewrite scan_nearby_cons.
  destruct (snakes w !! i) as [s1 |] eqn:Hi; [| exact IH].
  destruct (snakes w !! j) as [s2 |] eqn:Hj; [| exact IH].
  destruct (bool_decide (i = j) || Snake.dead s2); [exact IH |].
  destruct (head_hits_body s1 s2); [| exact IH].
  by apply hit_branch_keep.
Qed.

Lemma collide_at_keep (i : nat) (w : World) :
  collisions_keep w (snd (collide_at i w)).
Proof.
  unfold collide_at. unfold_M.
  destruct (snakes w !! i) as [s1 |]; [| apply collisions_keep_refl].
  destruct (Snake.dead s1); [apply collisions_keep_refl |].
  apply scan_nearby_keep.
Qed.

Lemma for_each_keep (body : nat -> M unit) (l : list nat) :
  (forall i w, collisions_keep w (snd (body i w))) ->
  forall w, collisions_keep w (snd (for_each l body w)).
Proof.
  intros Hb. induction l as [| i l IH]; intros w; [apply collisions_keep_refl |].
  cbn [for_each]. unfold_M.
  pose proof (Hb i w) as H1. destruct (body i w) as [[] w1]. cbn [snd] in *.
  eapply collisions_keep_trans; [exact H1 | apply IH].
Qed.

Lemma checkCollisions_keep (w : World) :
  collisions_keep w (snd (checkCollisions w)).
Proof.
  unfold checkCollisions. unfold_M.
  pose proof (for_each_keep pickups_at (seq 0 (length (snakes w)))
                pickups_at_keep w) as H1.
  destruct (for_each _ pickups_at w) as [[] w1]. cbn [snd] in *.
  eapply collisions_keep_trans; [exact H1 |].
  apply for_each_keep, collide_at_keep.
Qed.

(** X22.  The collision pass keeps the population: [checkCollisions] neither
    adds nor removes a snake (removal is left to the cleanup), leaves every
    head, width and path where they are, leaves a dead snake exactly as it
    was (so no snake comes back to life), does not touch the hash, and only
    adds particles, each with life 1. *)
Theorem collisions_keep_population (w : World) :
  let w' := snd (checkCollisions w) in
  length (snakes w') = length (snakes w) /\
  (forall i s, snakes w !! i = Some s ->
     exists s', snakes w' !! i = Some s' /\
       Snake.pos s' = Snake.pos s /\ Snake.width s' = Snake.width s /\
       Snake.path s' = Snake.path s /\
       (Snake.dead s = true -> s' = s)) /\
  spatialHash w' = spatialHash w /\
  exists ps, particles w' = particles w ++ ps /\
             Forall (fun q => Particle.life q = 1) ps.
Proof.
  intros w'. destruct (checkCollisions_keep w) as (F & Hh & Hp).
  fold w' in F, Hh, Hp.
  apply Forall2_same_length_lookup in F as [Hl F].
  split; [done |]. split; [| split; [exact Hh | exact Hp]].
  intros i s Hs.
  destruct (lookup_lt_is_Some_2 (snakes w') i) as [s' Hs'].
  { rewrite <- Hl. by eapply lookup_lt_Some. }
  exists s'. split; [done |].
  destruct (F i s s' Hs Hs') as (A & B & C & _ & E). done.
Qed.

(** ** One object's update inside the store *)

Lemma Bot_update_world (this : nat) (s : Snake) (dt : R) (w : World) :
  effects_only w (snd (Bot_update this s dt w)) /\
  (Snake.dead s = true -> Bot_update this s dt w = (s, w)).
Proof.
  unfold Bot_update. destruct (Snake.dead s) eqn:Hd.
  { split; [apply effects_only_refl | done]. }
  split; [| done]. unfold_M. destruct (shouldScan s w).
  - pose proof (Bot_scan_score this s dt w) as (_ & _ & _ & _ & E).
    destruct (Bot_scan this s dt w) as [s1 w1]. cbn [snd] in E.
    eapply effects_only_trans; [exact E |]. apply Snake_update_world.
  - apply Snake_update_world.
Qed.

Lemma set_snakes_same (w : World) (l : list Snake) :
  l = snakes w -> set_snakes w l = w.
Proof. intros ->. by destruct w. Qed.

Lemma update_at_spec (i : nat) (dt : R) (w : World) :
  let w' := snd (update_at i dt w) in
  (snakes w !! i = None -> w' = w) /\
  (forall s, snakes w !! i = Some s ->
     (exists s', snakes w' = <[i := s']> (snakes w)) /\
     (Snake.dead s = true -> w' = w)) /\
  spatialHash w' = spatialHash w.
Proof.
  unfold update_at. unfold_M.
  destruct (snakes w !! i) as [s |] eqn:Hi; [| done].
  split; [done |].
  assert (H : exists s' w1,
            (if Snake.isBot s then Bot_update i s dt else Snake_update s dt) w
            = (s', w1) /\ effects_only w w1 /\
            (Snake.dead s = true -> s' = s /\ w1 = w)).
  { destruct (Snake.isBot s).
    - destruct (Bot_update_world i s dt w) as [E D].
      destruct (Bot_update i s dt w) as [s' w1]. exists s', w1.
      split; [done |]. split; [done |]. intros Hd. specialize (D Hd).
      by inversion D.
    - destruct (Snake_update_world s dt w) as (E & D & _).
      destruct (Snake_update s dt w) as [s' w1]. exists s', w1.
      split; [done |]. split; [done |]. done. }
  destruct H as (s' & w1 & -> & (Es & _ & Eh & _) & D).
  cbn [fst snd snakes spatialHash set_snakes]. split; [| done].
  intros s0 Hs0. inversion Hs0; subst s0. rewrite Es. split; [by exists s' |].
  intros Hd. destruct (D Hd) as [-> ->].
  apply set_snakes_same. by apply list_insert_id.
Qed.

(** X23.  The update of the object at one index of the store touches no
    other snake: the store keeps its length and every other entry, and the
    hash is not changed.  For an index outside the store, and for a dead
    snake, nothing changes at all. *)
Theorem update_at_frame (i : nat) (dt : R) (w : World) :
  let w' := snd (update_at i dt w) in
  length (snakes w') = length (snakes w) /\
  (forall j, j <> i -> snakes w' !! j = snakes w !! j) /\
  spatialHash w' = spatialHash w /\
  (snakes w !! i = None -> w' = w) /\
  (forall s, snakes w !! i = Some s -> Snake.dead s = true -> w' = w).
Proof.
  intros w'. destruct (update_at_spec i dt w) as (Hn & Hs & Hh). fold w' in Hn, Hs, Hh.
  destruct (snakes w !! i) as [s |] eqn:Hi.
  - destruct (Hs s eq_refl) as [[s' E] D].
    split; [by rewrite E, length_insert |]. split.
    + intros j Hj. rewrite E. by apply list_lookup_insert_ne.
    + split; [done |]. split; [done |]. intros s0 Hs0 Hd.
      inversion Hs0; subst. by apply D.
  - rewrite (Hn eq_refl). done.
Qed.

(** ** A whole tick *)

Lemma for_each_update_at (dt : R) (l : list nat) :
  forall w, length (snakes (snd (for_each l (fun i => update_at i dt) w)))
            = length (snakes w).
Proof.
  induction l as [| i l IH]; intros w; [done |].
  cbn [for_each]. unfold_M.
  destruct (update_at_spec i dt w) as (Hn & Hs & _).
  destruct (update_at i dt w) as [[] w1]. cbn [snd] in *.
  rewrite IH. destruct (snakes w !! i) as [s |] eqn:Hi.
  - destruct (Hs s eq_refl) as [[s' ->] _]. apply length_insert.
  - by rewrite (Hn eq_refl).
Qed.

Lemma new_Bot_alive (w : World) :
  Snake.dead (fst (new_Bot w)) = false /\ Snake.isBot (fst (new_Bot w)) = true /\
  (length (Snake.path (fst (new_Bot w))) <= CONFIG.maxPathPoints)%nat /\
  exists n, snd (new_Bot w) = set_random_pos w n.
Proof.
  rewrite new_Bot_unfold.
  match goal with |- context [new_Snake true ?sc ?w0] =>
    destruct (new_Snake_fields true sc w0) as (_ & _ & _ & _ & _ & Hd & Hb & _);
    pose proof (new_Snake_path_length true sc w0) as Hl;
    pose proof (new_Snake_world true sc w0) as Hw end.
  cbv zeta in *. split; [done |]. split; [done |]. split; [done |].
  rewrite Hw. eexists. reflexivity.
Qed.

Lemma spawn_foods_spec (fuel : nat) :
  forall w, (CONFIG.foodCount - length (foods w) <= fuel)%nat ->
    let w' := snd (spawn_foods fuel w) in
    (CONFIG.foodCount <= length (foods w'))%nat /\
    snakes w' = snakes w /\ particles w' = particles w /\
    powerups w' = powerups w /\
    ((CONFIG.foodCount <= length (foods w))%nat -> foods w' = foods w).
Proof.
  induction fuel as [| fuel IH]; intros w Hf.
  - cbn. repeat split; auto. lia.
  - cbn [spawn_foods]. unfold_M. case_decide as Hlt.
    + destruct (new_Food_world None None 1 w) as [n Hw].
      destruct (new_Food None None 1 w) as [f w1]. cbn [snd] in Hw. subst w1.
      unfold modify. cbv beta iota.
      match goal with |- context [spawn_foods fuel ?w0] =>
        destruct (IH w0) as (A & B & C & D & _) end.
      { cbn [foods set_foods set_random_pos]. rewrite length_app. cbn [length]. lia. }
      cbv zeta. rewrite B, C, D. split; [exact A |].
      repeat split; auto. intros; lia.
    + cbn. repeat split; auto. lia.
Qed.

Lemma spawn_bots_spec (fuel : nat) :
  forall w, (1 <= length (snakes w))%nat ->
    (CONFIG.botCount - (length (snakes w) - 1) <= fuel)%nat ->
    let w' := snd (spawn_bots fuel w) in
    (exists bs, snakes w' = snakes w ++ bs /\
                Forall (fun b => Snake.dead b = false) bs) /\
    (CONFIG.botCount <= length (snakes w') - 1)%nat /\
    ((length (snakes w) - 1 <= CONFIG.botCount)%nat ->
     (length (snakes w') - 1 = CONFIG.botCount)%nat) /\
    foods w' = foods w /\ particles w' = particles w /\
    powerups w' = powerups w.
Proof.
  induction fuel as [| fuel IH]; intros w Hne Hf.
  - cbn. split; [exists []; by rewrite app_nil_r |]. repeat split; auto; lia.
  - cbn [spawn_bots]. unfold_M. case_decide as Hlt.
    + destruct (new_Bot_alive w) as (Hd & _ & _ & n & Hw).
      destruct (new_Bot w) as [b w1]. cbn [fst snd] in *. subst w1.
      unfold push_bot, modify. cbv beta iota.
      match goal with |- context [spawn_bots fuel ?w0] =>
        destruct (IH w0) as ((bs & A1 & A2) & B & C & D & E & F) end.
      { cbn [snakes set_snakes set_random_pos]. rewrite length_app. cbn [length]. lia. }
      { cbn [snakes set_snakes set_random_pos]. rewrite length_app. cbn [length]. lia. }
      cbv zeta. rewrite D, E, F.
      cbn [snakes set_snakes set_random_pos] in *. rewrite length_app in C.
      cbn [length] in C.
      split; [exists (b :: bs); rewrite A1, <- app_assoc; split; [done |];
              by constructor |].
      split; [exact B |]. split; [intros; apply C; lia | done].
    + cbn. split; [exists []; by rewrite app_nil_r |]. repeat split; auto; lia.
Qed.

Lemma spawn_powerup_frame (w : World) :
  let w' := snd (spawn_powerup w) in
  snakes w' = snakes w /\ foods w' = foods w /\ particles w' = particles w.
Proof.
  unfold spawn_powerup, new_PowerUp. unfold_M. cbn [fst snd].
  case_decide; [| done]. case_decide; [| done].
  cbn [powerups set_random_pos].
  destruct (coord_or_random_world None (set_random_pos w (S (random_pos w))))
    as [n1 H1].
  destruct (coord_or_random None _) as [px w1]. cbn [snd] in H1. subst w1.
  destruct (coord_or_random_world None
              (set_random_pos (set_random_pos w (S (random_pos w))) n1))
    as [n2 H2].
  destruct (coord_or_random None _) as [py w2]. cbn [snd] in H2. subst w2.
  done.
Qed.

Lemma cleanup_spec (w : World) :
  (1 <= length (snakes w))%nat ->
  (1 <= length (snakes (cleanup w)) <= length (snakes w))%nat /\
  (forall i b, (1 <= i)%nat -> snakes (cleanup w) !! i = Some b ->
               Snake.dead b = false) /\
  head (snakes (cleanup w)) = head (snakes w) /\
  foods (cleanup w) = foods w /\ particles (cleanup w) = particles w.
Proof.
  intros Hne. unfold cleanup. destruct (snakes w) as [| p bots] eqn:Hs;
    [cbn in Hne; lia |].
  cbn [snakes set_snakes length head].
  split; [pose proof (length_filter (fun b => Snake.dead b = false) bots); lia |].
  split; [| done]. intros i b Hi Hb. destruct i as [| i]; [lia |].
  cbn in Hb. apply list_elem_of_lookup_2 in Hb.
  by apply list_elem_of_filter in Hb as [Hb _].
Qed.

Lemma update_unfold (dt mx my cw ch : R) (w : World) :
  let w2 := player_input mx my cw ch (rebuild_hash w) in
  let w3 := snd (for_each (seq 0 (length (snakes w2))) (fun i => update_at i dt) w2) in
  let w4 := set_particles w3 (particles_loop dt (particles w3)) in
  let w6 := cleanup (snd (checkCollisions w4)) in
  let w7 := snd (spawn_foods CONFIG.foodCount w6) in
  let w8 := snd (spawn_bots CONFIG.botCount w7) in
  snd (update dt mx my cw ch w) = snd (spawn_powerup w8).
Proof.
  cbv zeta. unfold update, mbind, M_bind, modify, get_world.
  destruct (for_each _ _ _) as [[] w3]. cbn [snd].
  destruct (checkCollisions _) as [[] w5]. cbn [snd].
  destruct (spawn_foods _ _) as [[] w7]. cbn [snd].
  destruct (spawn_bots _ _) as [[] w8]. cbn [snd].
  reflexivity.
Qed.

Lemma player_input_length (mx my cw ch : R) (w : World) :
  length (snakes (player_input mx my cw ch w)) = length (snakes w).
Proof.
  unfold player_input. cbv zeta. case_decide; [| done].
  destruct (snakes w) as [| p bots] eqn:E; [by rewrite E | done].
Qed.

(** X24.  One tick keeps the population up: when the store holds the player,
    after [update] the player's slot is still there, every bot in the store
    is alive, there are at least [CONFIG.foodCount] foods and at least
    [CONFIG.botCount] bots (exactly that many when there were no more
    before), and every particle has life left. *)
Theorem tick_population (dt mx my cw ch : R) (w : World) :
  (1 <= length (snakes w))%nat ->
  let w' := snd (update dt mx my cw ch w) in
  (1 <= length (snakes w'))%nat /\
  (forall i b, (1 <= i)%nat -> snakes w' !! i = Some b -> Snake.dead b = false) /\
  (CONFIG.foodCount <= length (foods w'))%nat /\
  (CONFIG.botCount <= length (snakes w') - 1)%nat /\
  ((length (snakes w) - 1 <= CONFIG.botCount)%nat ->
   (length (snakes w') - 1 = CONFIG.botCount)%nat) /\
  Forall (fun q => 0 < Particle.life q) (particles w').
Proof.
  intros Hne w'. unfold w'. rewrite update_unfold. cbv zeta.
  set (w2 := player_input mx my cw ch (rebuild_hash w)).
  set (w3 := snd (for_each (seq 0 (length (snakes w2))) (fun i => update_at i dt) w2)).
  set (w4 := set_particles w3 (particles_loop dt (particles w3))).
  set (w5 := snd (checkCollisions w4)).
  set (w6 := cleanup w5).
  set (w7 := snd (spawn_foods CONFIG.foodCount w6)).
  set (w8 := snd (spawn_bots CONFIG.botCount w7)).
  assert (L2 : length (snakes w2) = length (snakes w))
    by (unfold w2; by rewrite player_input_length).
  assert (L3 : length (snakes w3) = length (snakes w2))
    by apply for_each_update_at.
  assert (P4 : Forall (fun q => 0 < Particle.life q) (particles w4)).
  { unfold w4. cbn [particles set_particles]. rewrite particles_loop_aged.
    apply Forall_forall. intros q Hq. by apply list_elem_of_filter in Hq as [Hq _]. }
  destruct (checkCollisions_keep w4) as (F5 & _ & ps & P5 & Hps). fold w5 in F5, P5.
  apply Forall2_length in F5. unfold w4 in F5 at 1. cbn [snakes set_particles] in F5.
  destruct (cleanup_spec w5) as (L6 & A6 & _ & _ & P6); [lia |]. fold w6 in L6, A6, P6.
  destruct (spawn_foods_spec CONFIG.foodCount w6) as (F7 & S7 & P7 & _); [lia |].
  fold w7 in F7, S7, P7.
  destruct (spawn_bots_spec CONFIG.botCount w7) as ((bs & S8 & A8) & B8 & C8 & F8 & P8 & _);
    [rewrite S7; lia | lia |]. fold w8 in S8, B8, C8, F8, P8.
  destruct (spawn_powerup_frame w8) as (S9 & F9 & P9). cbv zeta in S9, F9, P9.
  rewrite S9, F9, P9. split; [rewrite S8, length_app, S7; lia |].
  split.
  { intros i b Hi Hb. rewrite S8, S7 in Hb. apply lookup_app_Some in Hb as [Hb | [_ Hb]].
    - by apply (A6 i).
    - apply list_elem_of_lookup_2 in Hb. by apply (proj1 (Forall_forall _ _) A8). }
  split; [by rewrite F8 |]. split; [exact B8 |].
  split; [intros Hle; apply C8; rewrite S7; lia |].
  rewrite P8, P7, P6, P5. apply Forall_app. split; [exact P4 |].
  eapply Forall_impl; [exact Hps |]. intros q Hq. cbn in Hq. rewrite Hq. lra.
Qed.

Lemma tick_population_witness :
  let w := sample_world [sample_snake false (Vector.mk 0 0) 100] 0.5 in
  (1 <= length (snakes w))%nat /\
  (CONFIG.foodCount <= length (foods (snd (update 0.05 0 0 800 600 w))))%nat.
Proof.
  intros w. split; [cbn; lia |].
  destruct (tick_population 0.05 0 0 800 600 w) as (_ & _ & H & _);
    [cbn; lia | exact H].
Defined.

(** ** A new game *)

Lemma fill_bots_spec (n : nat) :
  forall w, let w' := snd (fill_bots n w) in
    (exists bs, snakes w' = snakes w ++ bs /\ length bs = n /\
       Forall (fun b => Snake.dead b = false /\ Snake.isBot b = true /\
                        (length (Snake.path b) <= CONFIG.maxPathPoints)%nat) bs) /\
    foods w' = foods w /\ powerups w' = powerups w /\
    particles w' = particles w /\ spatialHash w' = spatialHash w.
Proof.
  induction n as [| n IH]; intros w.
  - cbn. split; [exists []; by rewrite app_nil_r |]. done.
  - cbn [fill_bots]. unfold mbind, M_bind.
    destruct (new_Bot_alive w) as (Hd & Hb & Hl & k & Hw).
    destruct (new_Bot w) as [b w1]. cbn [fst snd] in *. subst w1.
    unfold push_bot, modify. cbv beta iota zeta.
    match goal with |- context [fill_bots n ?w0] =>
      destruct (IH w0) as ((bs & A1 & A2 & A3) & B & C & D & E) end.
    rewrite B, C, D, E.
    split; [| done]. exists (b :: bs). rewrite A1.
    cbn [snakes set_snakes set_random_pos]. rewrite <- app_assoc.
    split; [done |]. split; [cbn [length]; lia |]. by constructor.
Qed.

Lemma fill_foods_spec (n : nat) :
  forall w, let w' := snd (fill_foods n w) in
    (exists fs, foods w' = foods w ++ fs /\ length fs = n /\
       Forall (fun f => Food.value f = 1 /\
                        Vector.mag (Food.pos f) <= CONFIG.mapSize) fs) /\
    snakes w' = snakes w /\ powerups w' = powerups w /\
    particles w' = particles w /\ spatialHash w' = spatialHash w.
Proof.
  induction n as [| n IH]; intros w.
  - cbn. split; [exists []; by rewrite app_nil_r |]. done.
  - cbn [fill_foods]. unfold mbind, M_bind.
    destruct (new_Food_world None None 1 w) as [k Hw].
    destruct (new_Food_fields None None 1 w) as (Hm & Hv & _).
    destruct (new_Food None None 1 w) as [f w1]. cbn [fst snd] in *. subst w1.
    unfold push_food, modify. cbv beta iota zeta.
    match goal with |- context [fill_foods n ?w0] =>
      destruct (IH w0) as ((fs & A1 & A2 & A3) & B & C & D & E) end.
    rewrite B, C, D, E.
    split; [| done]. exists (f :: fs). rewrite A1.
    cbn [foods set_foods set_random_pos]. rewrite <- app_assoc.
    split; [done |]. split; [cbn [length]; lia |]. by constructor.
Qed.

(** X25.  A new game: [resetGameLogic] leaves a store with the player (not a
    bot, score 100, alive) followed by exactly [CONFIG.botCount] bots, all
    alive; exactly [CONFIG.foodCount] foods, each of value 1 and inside the
    map; no power-up and no particle; every path within
    [CONFIG.maxPathPoints]; and the hash as it was.  Nothing of the earlier
    snakes, foods, power-ups or particles is left. *)
Theorem reset_population (w : World) :
  let w' := snd (resetGameLogic w) in
  (exists p bots, snakes w' = p :: bots /\
     Snake.isBot p = false /\ Snake.score p = 100 /\ Snake.dead p = false /\
     length bots = CONFIG.botCount /\
     Forall (fun b => Snake.isBot b = true /\ Snake.dead b = false) bots) /\
  length (foods w') = CONFIG.foodCount /\
  Forall (fun f => Food.value f = 1 /\
                   Vector.mag (Food.pos f) <= CONFIG.mapSize) (foods w') /\
  powerups w' = [] /\ particles w' = [] /\
  Forall (fun s => (length (Snake.path s) <= CONFIG.maxPathPoints)%nat)
         (snakes w') /\
  spatialHash w' = spatialHash w.
Proof.
  intros w'. unfold w', resetGameLogic, mbind, M_bind.
  destruct (new_Snake_fields false 100 w) as (_ & _ & _ & Hsc & _ & Hd & Hb & _).
  pose proof (new_Snake_path_length false 100 w) as Hl.
  pose proof (new_Snake_world false 100 w) as Hw.
  cbv zeta in Hsc, Hd, Hb.
  destruct (new_Snake false 100 w) as [p w1]. cbn [fst snd] in *. subst w1.
  unfold modify. cbv beta iota zeta.
  match goal with |- context [fill_bots CONFIG.botCount ?w0] =>
    destruct (fill_bots_spec CONFIG.botCount w0) as ((bs & A1 & A2 & A3) & B & C & D & E);
    destruct (fill_bots CONFIG.botCount w0) as [[] w2] end.
  cbn [snd] in *. cbv beta iota zeta.
  destruct (fill_foods_spec CONFIG.foodCount w2) as ((fs & F1 & F2 & F3) & G & H & I & J).
  cbv zeta in *. rewrite G, H, I, J, F1, B, C, D, E, A1.
  cbn [snakes foods powerups particles spatialHash set_snakes set_foods
       set_powerups set_particles set_random_pos app].
  split.
  { exists p, bs. split; [reflexivity |]. split; [exact Hb |].
    split; [exact Hsc |]. split; [exact Hd |]. split; [exact A2 |].
    eapply Forall_impl; [exact A3 |]. intros b (Hq1 & Hq2 & _). by split. }
  split; [exact F2 |]. split; [exact F3 |]. split; [done |]. split; [done |].
  split; [| done]. constructor; [exact Hl |].
  eapply Forall_impl; [exact A3 |]. intros b (_ & _ & Hq). exact Hq.
Qed.
